(** * Primitive-cell search of spglib ([src/primitive.c])

    A shallow embedding of [primitive.c] and the properties its
    specification states about it.

    Conventions of the embedding.
    - A C [double] is an exact rational ([Q]): rounding error, infinities
      and NaN are outside the model.  Equality of computed reals is [Qeq]
      ([==]); where the code merely copies a value the theorems use [=].
    - A C [int] is an unbounded integer ([Z]); signed overflow is undefined
      in C and is not modelled.
    - An array is a list.  Reading or writing outside an array is undefined
      behaviour, written [None] in the [ub] monad.
    - [malloc] and the allocating helpers draw their outcome from an
      oracle carried in the [world]; the world also records, in order, the
      calls the code makes to its collaborators.  Memory that was allocated
      and not yet written holds zeros; the code never reads it.
    - A pointer that may be [NULL] is an [option].
    - The collaborators of [symmetry.h], [delaunay.h] and [cell.h] are
      functions of their arguments, gathered in the class [Collaborators];
      the utilities of [mathfunc.h], whose code is not among the sources,
      are modelled from the specification. *)

From Stdlib Require Import QArith ZArith List Bool Lia Lqa.
From Stdlib Require Import Qround Qabs Qpower Sorted.
Import ListNotations.

Local Open Scope Z_scope.
Local Open Scope Q_scope.

(** ** Numbers, vectors and matrices *)

Definition Qlt_bool (a b : Q) : bool := negb (Qle_bool b a).

(** [#define REDUCE_RATE 0.95] and [#define NUM_ATTEMPT 20]. *)
Definition REDUCE_RATE : Q := 0.95.
Definition NUM_ATTEMPT : nat := 20.

(** [double v[3]]. *)
Definition vec3 : Type := (Q * Q * Q)%type.

(** [double a[3][3]], given by its rows [a[0]], [a[1]], [a[2]]. *)
Definition mat3 : Type := (vec3 * vec3 * vec3)%type.

(** [int a[3][3]]. *)
Definition imat3 : Type := ((Z * Z * Z) * (Z * Z * Z) * (Z * Z * Z))%type.

Definition vec3_zero : vec3 := (0, 0, 0).
Definition mat3_zero : mat3 := (vec3_zero, vec3_zero, vec3_zero).

Definition vec3_eq (u v : vec3) : Prop :=
  let '(u0, u1, u2) := u in
  let '(v0, v1, v2) := v in
  u0 == v0 /\ u1 == v1 /\ u2 == v2.

Definition mat3_eq (a b : mat3) : Prop :=
  let '(a0, a1, a2) := a in
  let '(b0, b1, b2) := b in
  vec3_eq a0 b0 /\ vec3_eq a1 b1 /\ vec3_eq a2 b2.

(** ** The matrix utilities ([mathfunc.h])

    [mathfunc.c] is not among the sources; its functions are modelled
    from the specification, which lists them as the MatrixOps collaborator:
    3x3 determinant, inverse, multiply, integer rounding, modulo-1. *)

(** Modelled from the spec: [mat_Dabs] of mathfunc.c, the absolute value
    of a real. *)
Definition mat_Dabs (a : Q) : Q :=
  if Qlt_bool a 0 then - a else a.

(** Modelled from the spec: [mat_Nint] of mathfunc.c, rounding of a real to
    the nearest integer (a half is rounded away from zero). *)
Definition mat_Nint (a : Q) : Z :=
  if Qlt_bool a 0 then Qceiling (a - (1 # 2)) else Qfloor (a + (1 # 2)).

(** Modelled from the spec: [mat_Dmod1] of mathfunc.c, the modulo-1
    reduction that folds a coordinate into [0,1) with tolerance-aware
    snapping at the boundary: a value within [prec] of the boundary is
    folded to 0.  The spec names no value for the tolerance; it is an
    argument here. *)
Definition mat_Dmod1 (prec : Q) (a : Q) : Q :=
  let b := a - inject_Z (Qfloor a) in
  if Qle_bool b prec || Qle_bool (1 - prec) b then 0 else b.

(** Modelled from the spec: [mat_get_determinant_d3] of mathfunc.c, the
    3x3 determinant. *)
Definition mat_get_determinant_d3 (a : mat3) : Q :=
  let '((a00, a01, a02), (a10, a11, a12), (a20, a21, a22)) := a in
  a00 * (a11 * a22 - a12 * a21)
  + a01 * (a12 * a20 - a10 * a22)
  + a02 * (a10 * a21 - a11 * a20).

(** Modelled from the spec: [mat_get_determinant_i3] of mathfunc.c, the
    3x3 determinant of an integer matrix. *)
Definition mat_get_determinant_i3 (a : imat3) : Z :=
  let '((a00, a01, a02), (a10, a11, a12), (a20, a21, a22)) := a in
  (a00 * (a11 * a22 - a12 * a21)
   + a01 * (a12 * a20 - a10 * a22)
   + a02 * (a10 * a21 - a11 * a20))%Z.

(** Modelled from the spec: [mat_inverse_matrix_d3] of mathfunc.c, the 3x3
    inverse (adjugate over determinant).  Its third argument, a threshold
    on the determinant under which the helper refuses, is 0 at every call
    of primitive.c, so the inverse is always computed. *)
Definition mat_inverse_matrix_d3 (a : mat3) : mat3 :=
  let '((a00, a01, a02), (a10, a11, a12), (a20, a21, a22)) := a in
  let det := mat_get_determinant_d3 a in
  (((a11 * a22 - a12 * a21) / det,
    (a21 * a02 - a22 * a01) / det,
    (a01 * a12 - a02 * a11) / det),
   ((a12 * a20 - a10 * a22) / det,
    (a22 * a00 - a20 * a02) / det,
    (a02 * a10 - a00 * a12) / det),
   ((a10 * a21 - a11 * a20) / det,
    (a20 * a01 - a21 * a00) / det,
    (a00 * a11 - a01 * a10) / det)).

(** Modelled from the spec: [mat_multiply_matrix_d3] of mathfunc.c, the
    product [a * b]. *)
Definition mat_multiply_matrix_d3 (a b : mat3) : mat3 :=
  let '((a00, a01, a02), (a10, a11, a12), (a20, a21, a22)) := a in
  let '((b00, b01, b02), (b10, b11, b12), (b20, b21, b22)) := b in
  ((a00 * b00 + a01 * b10 + a02 * b20,
    a00 * b01 + a01 * b11 + a02 * b21,
    a00 * b02 + a01 * b12 + a02 * b22),
   (a10 * b00 + a11 * b10 + a12 * b20,
    a10 * b01 + a11 * b11 + a12 * b21,
    a10 * b02 + a11 * b12 + a12 * b22),
   (a20 * b00 + a21 * b10 + a22 * b20,
    a20 * b01 + a21 * b11 + a22 * b21,
    a20 * b02 + a21 * b12 + a22 * b22)).

(** Modelled from the spec: [mat_multiply_matrix_vector_d3] of mathfunc.c,
    the product [a * b] of a matrix and a column vector. *)
Definition mat_multiply_matrix_vector_d3 (a : mat3) (b : vec3) : vec3 :=
  let '((a00, a01, a02), (a10, a11, a12), (a20, a21, a22)) := a in
  let '(b0, b1, b2) := b in
  (a00 * b0 + a01 * b1 + a02 * b2,
   a10 * b0 + a11 * b1 + a12 * b2,
   a20 * b0 + a21 * b1 + a22 * b2).

(** Modelled from the spec: [mat_cast_matrix_3d_to_3i] of mathfunc.c, the
    real-to-integer matrix cast, every entry rounded to the nearest
    integer. *)
Definition mat_cast_matrix_3d_to_3i (a : mat3) : imat3 :=
  let '((a00, a01, a02), (a10, a11, a12), (a20, a21, a22)) := a in
  ((mat_Nint a00, mat_Nint a01, mat_Nint a02),
   (mat_Nint a10, mat_Nint a11, mat_Nint a12),
   (mat_Nint a20, mat_Nint a21, mat_Nint a22)).

(** Modelled from the spec: [mat_cast_matrix_3i_to_3d] of mathfunc.c, the
    integer-to-real matrix cast. *)
Definition mat_cast_matrix_3i_to_3d (a : imat3) : mat3 :=
  let '((a00, a01, a02), (a10, a11, a12), (a20, a21, a22)) := a in
  ((inject_Z a00, inject_Z a01, inject_Z a02),
   (inject_Z a10, inject_Z a11, inject_Z a12),
   (inject_Z a20, inject_Z a21, inject_Z a22)).

(** ** Data model ([cell.h], [mathfunc.h], [primitive.h]) *)

(** [Cell]: [size] atoms, a lattice, and two arrays of [size] entries. *)
Record Cell : Type := mkCell {
  cell_size : Z;
  lattice : mat3;
  types : list Z;
  position : list vec3
}.

Definition wf_cell (c : Cell) : Prop :=
  (0 <= cell_size c)%Z /\
  length (types c) = Z.to_nat (cell_size c) /\
  length (position c) = Z.to_nat (cell_size c).

(** [VecDBL]: an array of 3-vectors; its [size] field is the length of the
    array. *)
Definition VecDBL : Type := list vec3.
Definition vsize (v : VecDBL) : Z := Z.of_nat (length v).

(** [Primitive], the result record.  [cell] is [NULL] until a primitive
    cell has been accepted. *)
Record Primitive : Type := mkPrimitive {
  cell : option Cell;
  mapping_table : list Z;
  size : Z;
  tolerance : Q;
  angle_tolerance : Q;
  t_mat : mat3
}.

(** The record after writes to [primitive->mapping_table]. *)
Definition set_mapping_table (primitive : Primitive) (mapping : list Z)
  : Primitive :=
  mkPrimitive (cell primitive) mapping (size primitive)
              (tolerance primitive) (angle_tolerance primitive)
              (t_mat primitive).

(** ** Undefined behaviour, arrays and loops *)

Definition ub (A : Type) : Type := option A.

Definition aget {A : Type} (a : list A) (i : Z) : ub A :=
  if (i <? 0)%Z then None else nth_error a (Z.to_nat i).

Definition aset {A : Type} (a : list A) (i : Z) (x : A) : ub (list A) :=
  if ((0 <=? i) && (i <? Z.of_nat (length a)))%Z
  then Some (firstn (Z.to_nat i) a ++ x :: skipn (S (Z.to_nat i)) a)
  else None.

(** The values [lo], [lo+1], ..., [hi-1] of
    [for (i = lo; i < hi; i++)]. *)
Definition range (lo hi : Z) : list Z :=
  map (fun n => (lo + Z.of_nat n)%Z) (seq 0 (Z.to_nat (hi - lo))).

(** A [for] loop that updates a state. *)
Fixpoint for_each {S : Type} (l : list Z) (body : Z -> S -> ub S) (s : S)
  : ub S :=
  match l with
  | [] => Some s
  | i :: l' =>
      match body i s with
      | Some s' => for_each l' body s'
      | None => None
      end
  end.

(** A [for] loop left by [goto] at the first iteration that finds
    something. *)
Fixpoint for_first {A B : Type} (l : list A) (body : A -> ub (option B))
  : ub (option B) :=
  match l with
  | [] => Some None
  | i :: l' =>
      match body i with
      | Some None => for_first l' body
      | r => r
      end
  end.

Declare Scope ub_scope.
Delimit Scope ub_scope with ub.
Notation "'let?' x ':=' m 'in' k" :=
  (match m with Some x => k | None => None end)
  (at level 10, x name, m at level 100, k at level 200) : ub_scope.
Local Open Scope ub_scope.

(** ** The world: allocator oracle and call trace *)

Inductive event : Type :=
| Call_sym_get_pure_translation (symprec : Q)
| Call_get_primitive_lattice_vectors (symprec : Q)
| Call_sym_reduce_pure_translation (symprec : Q)
| Call_prm_free_primitive.

(** [allocs] gives the outcome of the coming allocations ([true]: the
    memory is obtained); allocations past the end of the list succeed.
    [trace] lists the calls made so far, oldest first. *)
Record world : Type := mkWorld {
  allocs : list bool;
  trace : list event
}.

Definition M (A : Type) : Type := world -> ub (A * world).

Definition ret {A : Type} (a : A) : M A := fun w => Some (a, w).

Definition bind {A B : Type} (m : M A) (f : A -> M B) : M B :=
  fun w => match m w with
           | Some (a, w') => f a w'
           | None => None
           end.

Definition lift {A : Type} (x : ub A) : M A :=
  fun w => match x with
           | Some a => Some (a, w)
           | None => None
           end.

Definition malloc : M bool :=
  fun w => Some (hd true (allocs w), mkWorld (tl (allocs w)) (trace w)).

Definition emit (e : event) : M unit :=
  fun w => Some (tt, mkWorld (allocs w) (trace w ++ [e])).

(** What one allocation leaves of the world. *)
Definition after_malloc (w : world) : world :=
  mkWorld (tl (allocs w)) (trace w).

(** Whether the coming allocation obtains its memory. *)
Definition next_alloc (w : world) : bool := hd true (allocs w).

Declare Scope M_scope.
Delimit Scope M_scope with M.
Notation "x <- m ;; k" := (bind m (fun x => k))
  (at level 100, m at next level, right associativity) : M_scope.
Notation "' p <- m ;; k" := (bind m (fun x => let p := x in k))
  (at level 100, p pattern, m at next level, right associativity) : M_scope.
Local Open Scope M_scope.

(** ** Collaborators

    The functions of [symmetry.h], [delaunay.h] and [cell.h] that
    primitive.c calls and whose code is elsewhere.  A [NULL] or [0] result
    is [None].  [cel_trim_cell] receives the mapping table and returns what
    it has written there.  [ZERO_PREC] is the snapping tolerance of
    [mat_Dmod1]. *)
Class Collaborators : Type := {
  sym_get_pure_translation : Cell -> Q -> option VecDBL;
  sym_reduce_pure_translation : Cell -> VecDBL -> Q -> Q -> option VecDBL;
  del_delaunay_reduce : mat3 -> Q -> option mat3;
  cel_trim_cell : list Z -> mat3 -> Cell -> Q -> option Cell * list Z;
  ZERO_PREC : Q;
  (** the mapping table is the caller's array: its length is not changed *)
  cel_trim_cell_length :
    forall (mapping : list Z) (lat : mat3) (c : Cell) (symprec : Q),
      length (snd (cel_trim_cell mapping lat c symprec)) = length mapping
}.

(** Modelled from the spec: [mat_alloc_VecDBL] of mathfunc.c, the
    allocation of a VectorList of [size] entries; [NULL] when memory is not
    obtained. *)
Definition mat_alloc_VecDBL (size : Z) : M (option VecDBL) :=
  ok <- malloc ;;
  if ok then ret (Some (repeat vec3_zero (Z.to_nat size))) else ret None.

(** Modelled from the spec: [cel_alloc_cell] of cell.c, the allocation of
    a Cell whose [position] and [types] sequences have exactly [size]
    entries; [NULL] when memory is not obtained. *)
Definition cel_alloc_cell (size : Z) : M (option Cell) :=
  ok <- malloc ;;
  if ok
  then ret (Some (mkCell size mat3_zero
                         (repeat 0%Z (Z.to_nat size))
                         (repeat vec3_zero (Z.to_nat size))))
  else ret None.

(** ** primitive.c *)

Section Primitive_c.

Context {collab : Collaborators}.

(** [prm_alloc_primitive]: three allocations (the record, [t_mat], and the
    mapping table when [size > 0]), each of which may fail. *)
Definition prm_alloc_primitive (size : Z) : M (option Primitive) :=
  ok <- malloc ;;
  if negb ok then ret None else
  ok_t_mat <- malloc ;;
  if negb ok_t_mat then ret None else
  ok_mapping <- (if (0 <? size)%Z then malloc else ret true) ;;
  if negb ok_mapping then ret None else
  mapping <- lift (for_each (range 0 size)
                            (fun i m => aset m i (-1)%Z)
                            (repeat 0%Z (Z.to_nat size))) ;;
  ret (Some (mkPrimitive None mapping size 0 (- (1)) mat3_zero)).

(** [prm_free_primitive]: the record and what it owns are released. *)
Definition prm_free_primitive (primitive : Primitive) : M unit :=
  emit Call_prm_free_primitive.

(** What the loop body of [get_cell_with_smallest_lattice] leaves in
    [smallest_cell->position[i]]: the product by [trans_mat], then
    [mat_Dmod1] on each of the three components. *)
Definition folded_position (trans_mat : mat3) (p : vec3) : vec3 :=
  let '(x0, x1, x2) := mat_multiply_matrix_vector_d3 trans_mat p in
  (mat_Dmod1 ZERO_PREC x0, mat_Dmod1 ZERO_PREC x1, mat_Dmod1 ZERO_PREC x2).

(** [get_cell_with_smallest_lattice]. *)
Definition get_cell_with_smallest_lattice (cell : Cell) (symprec : Q)
  : M (option Cell) :=
  match del_delaunay_reduce (lattice cell) symprec with
  | None => ret None
  | Some min_lat =>
      let inv_lat := mat_inverse_matrix_d3 min_lat in
      let trans_mat := mat_multiply_matrix_d3 inv_lat (lattice cell) in
      a <- cel_alloc_cell (cell_size cell) ;;
      match a with
      | None => ret None
      | Some smallest_cell =>
          let smallest_cell :=
            mkCell (cell_size smallest_cell) min_lat
                   (types smallest_cell) (position smallest_cell) in
          smallest_cell <-
            lift (for_each (range 0 (cell_size cell))
                    (fun i sc =>
                       let? t := aget (types cell) i in
                       let? ts := aset (types sc) i t in
                       let? p := aget (position cell) i in
                       let? ps := aset (position sc) i
                                       (folded_position trans_mat p) in
                       Some (mkCell (cell_size sc) (lattice sc) ts ps))
                    smallest_cell) ;;
          ret (Some smallest_cell)
      end
  end.

(** The vector written by the inner loop of [get_translation_candidates]
    for a given [i]: component [j] is 1 if [i == j] and 0 otherwise. *)
Definition unit_vector (i : Z) : vec3 :=
  (if (i =? 0)%Z then 1 else 0,
   if (i =? 1)%Z then 1 else 0,
   if (i =? 2)%Z then 1 else 0).

(** The three unit lattice vectors written by the second loop. *)
Definition unit_vectors : list vec3 :=
  [unit_vector 0; unit_vector 1; unit_vector 2].

(** [get_translation_candidates]. *)
Definition get_translation_candidates (pure_trans : VecDBL)
  : M (option VecDBL) :=
  let multi := vsize pure_trans in
  a <- mat_alloc_VecDBL (multi + 2) ;;
  match a with
  | None => ret None
  | Some vectors =>
      vectors <- lift (for_each (range 0 (multi - 1))
                         (fun i vs =>
                            let? t := aget pure_trans (i + 1) in
                            aset vs i t)
                         vectors) ;;
      vectors <- lift (for_each (range 0 3)
                         (fun i vs => aset vs (i + multi - 1) (unit_vector i))
                         vectors) ;;
      ret (Some vectors)
  end.

(** The three nested loops of [get_primitive_lattice_vectors], over
    [i < j < k < size], left at the first [(i, j, k)] where [body] finds
    something. *)
Definition for_triples {B : Type} (size : Z)
  (body : Z -> Z -> Z -> ub (option B)) : ub (option B) :=
  for_first (range 0 size) (fun i =>
    for_first (range (i + 1) size) (fun j =>
      for_first (range (j + 1) size) (fun k =>
        body i j k))).

(** [volume] of the loop body: the three vectors are taken to Cartesian
    space by the lattice of the cell. *)
Definition triple_volume (cell : Cell) (vi vj vk : vec3) : Q :=
  let tmp_lattice :=
    (mat_multiply_matrix_vector_d3 (lattice cell) vi,
     mat_multiply_matrix_vector_d3 (lattice cell) vj,
     mat_multiply_matrix_vector_d3 (lattice cell) vk) in
  mat_Dabs (mat_get_determinant_d3 tmp_lattice).

(** The two nested conditions of the loop body. *)
Definition triple_accepted (size : Z) (cell : Cell) (symprec : Q)
  (vi vj vk : vec3) : bool :=
  let initial_volume := mat_Dabs (mat_get_determinant_d3 (lattice cell)) in
  let volume := triple_volume cell vi vj vk in
  if Qlt_bool symprec volume then
    if (mat_Nint (initial_volume / volume) =? size - 2)%Z then true
    else false
  else false.

(** The search loops of [get_primitive_lattice_vectors]: [min_vectors] at
    label [ret], or nothing when the loops run to their end. *)
Definition search_min_vectors (vectors : VecDBL) (cell : Cell) (symprec : Q)
  : ub (option (vec3 * vec3 * vec3)) :=
  let size := vsize vectors in
  for_triples size (fun i j k =>
    let? vi := aget vectors i in
    let? vj := aget vectors j in
    let? vk := aget vectors k in
    if triple_accepted size cell symprec vi vj vk
    then Some (Some (vi, vj, vk))
    else Some None).

(** [relative_lattice[j][i] = min_vectors[i][j]]. *)
Definition transpose_min_vectors (min_vectors : vec3 * vec3 * vec3) : mat3 :=
  let '((a00, a01, a02), (a10, a11, a12), (a20, a21, a22)) := min_vectors in
  ((a00, a10, a20), (a01, a11, a21), (a02, a12, a22)).

(** The cleaning of [relative_lattice] after label [ret]. *)
Definition clean_relative_lattice (size : Z) (relative_lattice : mat3)
  : mat3 :=
  let inv_mat_dbl := mat_inverse_matrix_d3 relative_lattice in
  let inv_mat_int := mat_cast_matrix_3d_to_3i inv_mat_dbl in
  if (Z.abs (mat_get_determinant_i3 inv_mat_int) =? size - 2)%Z
  then mat_inverse_matrix_d3 (mat_cast_matrix_3i_to_3d inv_mat_int)
  else relative_lattice.

(** [get_primitive_lattice_vectors]: [None] is the return value 0,
    [Some prim_lattice] the return value 1 with what was written to
    [prim_lattice]. *)
Definition get_primitive_lattice_vectors (vectors : VecDBL) (cell : Cell)
  (symprec : Q) : ub (option mat3) :=
  let size := vsize vectors in
  let? found := search_min_vectors vectors cell symprec in
  match found with
  | None => Some None
  | Some min_vectors =>
      let relative_lattice := transpose_min_vectors min_vectors in
      Some (Some (mat_multiply_matrix_d3
                    (lattice cell)
                    (clean_relative_lattice size relative_lattice)))
  end.

(** The loop of [get_primitive_lattice_vectors_iterative], with [n]
    attempts left. *)
Fixpoint get_primitive_lattice_vectors_iterative_loop (n : nat) (cell : Cell)
  (pure_trans_reduced : VecDBL) (tolerance angle_tolerance : Q)
  : M (option (Z * mat3)) :=
  match n with
  | O => ret None
  | S n' =>
      let multi := vsize pure_trans_reduced in
      a <- get_translation_candidates pure_trans_reduced ;;
      match a with
      | None => ret None
      | Some vectors =>
          _ <- emit (Call_get_primitive_lattice_vectors tolerance) ;;
          r <- lift (get_primitive_lattice_vectors vectors cell tolerance) ;;
          match r with
          | Some prim_lattice => ret (Some (multi, prim_lattice))
          | None =>
              b <- mat_alloc_VecDBL multi ;;
              match b with
              | None => ret None
              | Some tmp_vec =>
                  tmp_vec <- lift (for_each (range 0 multi)
                                     (fun i vs =>
                                        let? t := aget pure_trans_reduced i in
                                        aset vs i t)
                                     tmp_vec) ;;
                  _ <- emit (Call_sym_reduce_pure_translation tolerance) ;;
                  match sym_reduce_pure_translation
                          cell tmp_vec tolerance angle_tolerance with
                  | None => ret None
                  | Some pure_trans_reduced =>
                      get_primitive_lattice_vectors_iterative_loop
                        n' cell pure_trans_reduced
                        (tolerance * REDUCE_RATE) angle_tolerance
                  end
              end
          end
      end
  end.

(** [get_primitive_lattice_vectors_iterative]: [None] is the return value
    0 of label [fail]; [Some (multi, prim_lattice)] is the return value
    [multi] of label [found] with what was written to [prim_lattice]. *)
Definition get_primitive_lattice_vectors_iterative (cell : Cell)
  (pure_trans : VecDBL) (symprec angle_tolerance : Q)
  : M (option (Z * mat3)) :=
  let tolerance := symprec in
  a <- mat_alloc_VecDBL (vsize pure_trans) ;;
  match a with
  | None => ret None
  | Some pure_trans_reduced =>
      pure_trans_reduced <- lift (for_each (range 0 (vsize pure_trans))
                                    (fun i vs =>
                                       let? t := aget pure_trans i in
                                       aset vs i t)
                                    pure_trans_reduced) ;;
      get_primitive_lattice_vectors_iterative_loop
        NUM_ATTEMPT cell pure_trans_reduced tolerance angle_tolerance
  end.

(** [get_primitive_cell]: the cell or [NULL], and the content of the
    mapping table afterwards. *)
Definition get_primitive_cell (mapping_table : list Z) (cell : Cell)
  (pure_trans : VecDBL) (symprec angle_tolerance : Q)
  : M (option Cell * list Z) :=
  r <- get_primitive_lattice_vectors_iterative
         cell pure_trans symprec angle_tolerance ;;
  match r with
  | None => ret (None, mapping_table)
  | Some (multi, prim_lat) =>
      if (multi =? 0)%Z then ret (None, mapping_table) else
      match del_delaunay_reduce prim_lat symprec with
      | None => ret (None, mapping_table)
      | Some smallest_lat =>
          ret (cel_trim_cell mapping_table smallest_lat cell symprec)
      end
  end.

(** Label [found] of [get_primitive]; [primitive_cell] is what
    [primitive->cell] points to. *)
Definition found (cell : Cell) (primitive : Primitive) (primitive_cell : Cell)
  (tolerance angle_tolerance : Q) : Primitive :=
  let inv_lat := mat_inverse_matrix_d3 (lattice cell) in
  mkPrimitive (Some primitive_cell)
              (mapping_table primitive)
              (size primitive)
              tolerance
              angle_tolerance
              (mat_multiply_matrix_d3 (lattice primitive_cell) inv_lat).

(** The loop of [get_primitive], with [n] attempts left. *)
Fixpoint get_primitive_loop (n : nat) (cell : Cell) (primitive : Primitive)
  (tolerance angle_tolerance : Q) : M (option Primitive) :=
  match n with
  | O =>
      _ <- prm_free_primitive primitive ;;
      ret None
  | S n' =>
      _ <- emit (Call_sym_get_pure_translation tolerance) ;;
      match sym_get_pure_translation cell tolerance with
      | None =>
          get_primitive_loop n' cell primitive
                             (tolerance * REDUCE_RATE) angle_tolerance
      | Some pure_trans =>
          if (vsize pure_trans =? 1)%Z then
            c <- get_cell_with_smallest_lattice cell tolerance ;;
            match c with
            | Some primitive_cell =>
                mapping <- lift (for_each (range 0 (cell_size cell))
                                   (fun i m => aset m i i)
                                   (mapping_table primitive)) ;;
                let primitive := set_mapping_table primitive mapping in
                ret (Some (found cell primitive primitive_cell
                                 tolerance angle_tolerance))
            | None =>
                get_primitive_loop n' cell primitive
                                   (tolerance * REDUCE_RATE) angle_tolerance
            end
          else
            ' (c, mapping) <- get_primitive_cell (mapping_table primitive)
                                cell pure_trans tolerance angle_tolerance ;;
            let primitive := set_mapping_table primitive mapping in
            match c with
            | Some primitive_cell =>
                ret (Some (found cell primitive primitive_cell
                                 tolerance angle_tolerance))
            | None =>
                get_primitive_loop n' cell primitive
                                   (tolerance * REDUCE_RATE) angle_tolerance
            end
      end
  end.

(** [get_primitive]. *)
Definition get_primitive (cell : Cell) (symprec angle_tolerance : Q)
  : M (option Primitive) :=
  a <- prm_alloc_primitive (cell_size cell) ;;
  match a with
  | None => ret None
  | Some primitive =>
      let tolerance := symprec in
      get_primitive_loop NUM_ATTEMPT cell primitive tolerance angle_tolerance
  end.

(** [prm_get_primitive]. *)
Definition prm_get_primitive (cell : Cell) (symprec angle_tolerance : Q)
  : M (option Primitive) :=
  get_primitive cell symprec angle_tolerance.

End Primitive_c.

(** ** Vocabulary of the specification *)

(** The index triples [i < j < k < size] in the order in which three nested
    [for] loops meet them. *)
Definition triples (size : Z) : list (Z * Z * Z) :=
  flat_map (fun i =>
    flat_map (fun j =>
      map (fun k => (i, j, k)) (range (j + 1) size))
      (range (i + 1) size))
    (range 0 size).

(** Lexicographic order of index triples. *)
Definition lex_lt (s t : Z * Z * Z) : Prop :=
  let '(i, j, k) := s in
  let '(i', j', k') := t in
  (i < i' \/ (i = i' /\ (j < j' \/ (j = j' /\ k < k'))))%Z.

(** [t1] comes before [t2] in the list [l]. *)
Definition before {A : Type} (l : list A) (t1 t2 : A) : Prop :=
  exists l1 l2 l3, l = l1 ++ t1 :: l2 ++ t2 :: l3.

(** Among the [m + 2] candidates of a list of [m] translations, the
    translations have the indices up to [m - 2] and the unit lattice
    vectors the indices from [m - 1]. *)
Definition only_translations (m : Z) (t : Z * Z * Z) : Prop :=
  let '(i, j, k) := t in (k <= m - 2)%Z.

Definition involves_unit_vector (m : Z) (t : Z * Z * Z) : Prop :=
  let '(i, j, k) := t in (m - 1 <= k)%Z.

(** Every triple made of translations only is tested before every triple
    that involves a unit lattice vector. *)
Definition translations_first (m : Z) : Prop :=
  forall t1 t2,
    In t1 (triples (m + 2)) -> In t2 (triples (m + 2)) ->
    only_translations m t1 -> involves_unit_vector m t2 ->
    before (triples (m + 2)) t1 t2.

(** The vector at index [i] of a list of candidate vectors. *)
Definition vector_at (vectors : VecDBL) (i : Z) : vec3 :=
  nth (Z.to_nat i) vectors vec3_zero.

Definition vectors_of (vectors : VecDBL) (t : Z * Z * Z)
  : vec3 * vec3 * vec3 :=
  let '(i, j, k) := t in
  (vector_at vectors i, vector_at vectors j, vector_at vectors k).

(** A triple qualifies when its volume [V] exceeds the tolerance and
    [round(V0 / V)] is the [expected] multiplicity, [V0] being the volume
    of the original cell. *)
Definition triple_qualifies (expected : Z) (cell : Cell) (symprec : Q)
  (vectors : VecDBL) (t : Z * Z * Z) : Prop :=
  let '(vi, vj, vk) := vectors_of vectors t in
  let V0 := mat_Dabs (mat_get_determinant_d3 (lattice cell)) in
  let V := triple_volume cell vi vj vk in
  symprec < V /\ mat_Nint (V0 / V) = expected.

Definition triple_qualifies_bool (expected : Z) (cell : Cell) (symprec : Q)
  (vectors : VecDBL) (t : Z * Z * Z) : bool :=
  let '(vi, vj, vk) := vectors_of vectors t in
  let V0 := mat_Dabs (mat_get_determinant_d3 (lattice cell)) in
  let V := triple_volume cell vi vj vk in
  Qlt_bool symprec V && (mat_Nint (V0 / V) =? expected)%Z.

(** The triple search as the specification words it: the first triple, in
    index order, that qualifies for the [expected] multiplicity; none if no
    triple qualifies. *)
Definition first_qualifying_triple (expected : Z) (vectors : VecDBL)
  (cell : Cell) (symprec : Q) : option (vec3 * vec3 * vec3) :=
  option_map (vectors_of vectors)
             (find (triple_qualifies_bool expected cell symprec vectors)
                   (triples (vsize vectors))).

(** The cleaning as the specification words it: the rounded inverse
    replaces the raw relation when its determinant magnitude is the group
    order minus two. *)
Definition spec_clean_relative_lattice (group_order : Z)
  (relative_lattice : mat3) : mat3 :=
  let inv_mat_int :=
    mat_cast_matrix_3d_to_3i (mat_inverse_matrix_d3 relative_lattice) in
  if (Z.abs (mat_get_determinant_i3 inv_mat_int) =? group_order - 2)%Z
  then mat_inverse_matrix_d3 (mat_cast_matrix_3i_to_3d inv_mat_int)
  else relative_lattice.

(** The modulo-1 fold with snapping as the specification words it:
    [x] is the coordinate [y] folded into [0,1) with tolerance [prec].
    [x] lies in [0,1); it is [y] less an integer, or 0 with [y] within
    [prec] of an integer; it is 0 whenever [y] is within [prec] of an
    integer (of 1, in particular); and, for a tolerance that is not
    negative, it is [y - n] whenever [y] lies between [n + prec] and
    [n + 1 - prec]. *)
Definition folded_modulo_1 (prec y x : Q) : Prop :=
  (0 <= x /\ x < 1) /\
  (exists n : Z,
      x == y - inject_Z n \/
      (x == 0 /\ Qabs (y - inject_Z n) <= prec)) /\
  (forall n : Z, Qabs (y - inject_Z n) <= prec -> x == 0) /\
  (0 <= prec ->
   forall n : Z,
     inject_Z n + prec < y -> y < inject_Z n + 1 - prec ->
     x == y - inject_Z n).

(** The tolerance after [k] reductions:
    [tolerance *= REDUCE_RATE], [k] times. *)
Fixpoint reduced_tolerance (tolerance : Q) (k : nat) : Q :=
  match k with
  | O => tolerance
  | S k' => reduced_tolerance (tolerance * REDUCE_RATE) k'
  end.

(** The tolerances of the calls of a trace, by callee, oldest first. *)
Definition pure_translation_tolerances (t : list event) : list Q :=
  flat_map (fun e => match e with
                     | Call_sym_get_pure_translation tol => [tol]
                     | _ => []
                     end) t.

Definition stage_b_tolerances (t : list event) : list Q :=
  flat_map (fun e => match e with
                     | Call_get_primitive_lattice_vectors tol => [tol]
                     | _ => []
                     end) t.

Definition refinement_tolerances (t : list event) : list Q :=
  flat_map (fun e => match e with
                     | Call_sym_reduce_pure_translation tol => [tol]
                     | _ => []
                     end) t.

(** The calls made below [get_primitive_cell]. *)
Definition stage_a_event (e : event) : Prop :=
  match e with
  | Call_get_primitive_lattice_vectors _ => True
  | Call_sym_reduce_pure_translation _ => True
  | _ => False
  end.

(** The record after a successful [prm_alloc_primitive]. *)
Definition fresh_primitive (size : Z) : Primitive :=
  mkPrimitive None (repeat (-1)%Z (Z.to_nat size)) size 0 (- (1)) mat3_zero.

Section Vocabulary.

Context {collab : Collaborators}.

(** What holds of a record that [get_primitive] returns for the cell
    [input]: it carries a cell, the transform computed from it, the
    tolerances of the attempt that produced it, and on the trivial path the
    input's atom count with the identity mapping. *)
Definition accepted (input : Cell) (angle : Q) (p : Primitive) : Prop :=
  angle_tolerance p = angle /\
  length (mapping_table p) = Z.to_nat (cell_size input) /\
  exists (c : Cell) (pure_trans : VecDBL),
    cell p = Some c /\
    t_mat p = mat_multiply_matrix_d3 (lattice c)
                (mat_inverse_matrix_d3 (lattice input)) /\
    sym_get_pure_translation input (tolerance p) = Some pure_trans /\
    (vsize pure_trans = 1%Z ->
     (exists w1 w2,
         get_cell_with_smallest_lattice input (tolerance p) w1
         = Some (Some c, w2)) /\
     cell_size c = cell_size input /\
     mapping_table p = range 0 (cell_size input)).

(** What holds of the events [evs] and the result [r] of the loop started
    with [n] attempts left at tolerance [tol]. *)
Definition loop_outcome (input : Cell) (angle : Q) (size0 : Z) (tol : Q)
  (n : nat) (evs : list event) (r : option Primitive) : Prop :=
  exists k,
    (k <= n)%nat /\
    pure_translation_tolerances evs = map (reduced_tolerance tol) (seq 0 k) /\
    match r with
    | None =>
        k = n /\
        exists evs0, evs = evs0 ++ [Call_prm_free_primitive] /\
                     ~ In Call_prm_free_primitive evs0
    | Some p =>
        (1 <= k)%nat /\
        tolerance p = reduced_tolerance tol (k - 1) /\
        size p = size0 /\
        ~ In Call_prm_free_primitive evs /\
        accepted input angle p
    end.


End Vocabulary.

(** ** Example data *)

Definition identity_lattice : mat3 := ((1, 0, 0), (0, 1, 0), (0, 0, 1)).

(** A world in which every allocation succeeds and nothing was called. *)
Definition world0 : world := mkWorld [] [].

(** Collaborators for the examples: the translation search fails at a
    tolerance of 1/100 or more and finds the identity alone below; the
    refinement returns the list it is given; the reduction returns the
    lattice it is given; trimming returns the cell it is given and leaves
    the mapping table as it is. *)
Definition example_collaborators : Collaborators := {|
  sym_get_pure_translation :=
    fun _ tol => if Qle_bool (1 # 100) tol then None else Some [vec3_zero];
  sym_reduce_pure_translation := fun _ v _ _ => Some v;
  del_delaunay_reduce := fun lat _ => Some lat;
  cel_trim_cell := fun mapping _ c _ => (Some c, mapping);
  ZERO_PREC := 1 # 100000;
  cel_trim_cell_length := fun mapping _ _ _ => eq_refl
|}.

(** Two atoms of one type in a cubic cell, at the corner and at the body
    centre. *)
Definition cubic_cell : Cell :=
  mkCell 2 identity_lattice [1%Z; 1%Z] [(0, 0, 0); (1 # 2, 1 # 2, 1 # 2)].

(** Two atoms of different types, with coordinates outside [0,1). *)
Definition two_type_cell : Cell :=
  mkCell 2 ((2, 0, 0), (0, 2, 0), (0, 0, 2)) [1%Z; 2%Z]
         [(0, 0, 0); (1, 3 # 2, - (1 # 4))].

(** The translation group of the body-centred cell, of order 2. *)
Definition bcc_translations : VecDBL := [(0, 0, 0); (1 # 2, 1 # 2, 1 # 2)].

(** The same with noise on one coordinate. *)
Definition noisy_translations : VecDBL :=
  [(0, 0, 0); (501 # 1000, 1 # 2, 1 # 2)].

(** Three vectors among whose candidates no triple has volume ratio 3. *)
Definition three_translations : VecDBL :=
  [(0, 0, 0); (1 # 2, 0, 0); (0, 1 # 2, 0)].

(** Five vectors; with the candidates [a b c d e1 e2 e3] made from them,
    both [(a, b, e1)] and [(a, c, d)] have a fifth of the volume of the
    cell. *)
Definition five_translations : VecDBL :=
  [(0, 0, 0); (0, 2 # 5, 0); (1 # 2, 0, 1 # 2); (3 # 4, 0, 0); (0, 0, 2 # 3)].

(** Collaborators that find the body-centring translation at every
    tolerance; the refinement and the reduction are as above; trimming
    keeps the first atom and maps every atom to it. *)
Definition centring_collaborators : Collaborators := {|
  sym_get_pure_translation := fun _ _ => Some bcc_translations;
  sym_reduce_pure_translation := fun _ v _ _ => Some v;
  del_delaunay_reduce := fun lat _ => Some lat;
  cel_trim_cell :=
    fun mapping lat c _ =>
      (Some (mkCell 1 lat (firstn 1 (types c)) [vec3_zero]),
       map (fun _ => 0%Z) mapping);
  ZERO_PREC := 1 # 100000;
  cel_trim_cell_length :=
    fun mapping _ _ _ => length_map (fun _ => 0%Z) mapping
|}.

(** ** Vocabulary of the further properties *)

(** The calls of [k] iterations of the iterative search that go on to the
    next one: a triple search, then a refinement, at the tolerance of the
    iteration. *)
Definition search_rounds (tol : Q) (k : nat) : list event :=
  flat_map (fun j =>
              [Call_get_primitive_lattice_vectors (reduced_tolerance tol j);
               Call_sym_reduce_pure_translation (reduced_tolerance tol j)])
           (seq 0 k).

(** * Properties *)

(** ** The model on small inputs *)

Example mat_Nint_values :
  mat_Nint (5 # 2) = 3%Z /\ mat_Nint (- (5 # 2)) = (-3)%Z /\
  mat_Nint (12 # 5) = 2%Z /\ mat_Nint (- (1 # 3)) = 0%Z.
Proof. repeat split. Qed.

Example mat_Dmod1_values :
  mat_Dmod1 (1 # 100000) (3 # 2) == 1 # 2 /\
  mat_Dmod1 (1 # 100000) (- (1 # 4)) == 3 # 4 /\
  mat_Dmod1 (1 # 100000) 1 == 0 /\
  mat_Dmod1 (1 # 100000) (999999 # 1000000) == 0.
Proof. repeat split. Qed.

Example triples_of_four :
  triples 4 = [(0, 1, 2); (0, 1, 3); (0, 2, 3); (1, 2, 3)]%Z.
Proof. reflexivity. Qed.

Example candidates_of_bcc :
  get_translation_candidates bcc_translations world0
  = Some (Some [(1 # 2, 1 # 2, 1 # 2); (1, 0, 0); (0, 1, 0); (0, 0, 1)],
          world0).
Proof. reflexivity. Qed.

(** With an empty list the second loop writes at index -1. *)
Example candidates_of_nothing :
  get_translation_candidates [] world0 = None.
Proof. reflexivity. Qed.

Example search_of_bcc :
  search_min_vectors
    [(1 # 2, 1 # 2, 1 # 2); (1, 0, 0); (0, 1, 0); (0, 0, 1)]
    cubic_cell (1 # 100000)
  = Some (Some ((1 # 2, 1 # 2, 1 # 2), (1, 0, 0), (0, 1, 0))).
Proof. vm_compute. reflexivity. Qed.

(** The first attempt finds no translation, the second finds the identity
    alone and takes the trivial path. *)
Example get_primitive_of_two_type_cell :
  exists p w',
    get_primitive (collab := example_collaborators)
                  two_type_cell (1 # 100) (- (1)) world0
    = Some (Some p, w') /\
    trace w' = [Call_sym_get_pure_translation (1 # 100);
                Call_sym_get_pure_translation (95 # 10000)] /\
    mapping_table p = [0; 1]%Z /\
    tolerance p = 95 # 10000 /\
    exists c,
      cell p = Some c /\
      types c = [1; 2]%Z /\
      Forall2 vec3_eq (position c) [(0, 0, 0); (0, 1 # 2, 3 # 4)].
Proof.
  eexists _, _. split; [vm_compute; reflexivity|].
  split; [reflexivity|]. split; [reflexivity|]. split; [reflexivity|].
  eexists. split; [reflexivity|]. split; [reflexivity|].
  repeat constructor.
Qed.

(** No memory for the record: nothing is called. *)
Example get_primitive_without_memory :
  get_primitive (collab := example_collaborators)
                two_type_cell (1 # 100) (- (1)) (mkWorld [false] [])
  = Some (None, world0).
Proof. reflexivity. Qed.

(** ** Arrays and loops *)

Section Loops.

Local Open Scope nat_scope.

Lemma range_0 (n : Z) : range 0 n = map Z.of_nat (seq 0 (Z.to_nat n)).
Proof.
  unfold range. rewrite Z.sub_0_r. apply map_ext. intro k. reflexivity.
Qed.

Lemma range_length (lo hi : Z) : length (range lo hi) = Z.to_nat (hi - lo).
Proof.
  unfold range. now rewrite length_map, length_seq.
Qed.

Lemma range_In (lo hi i : Z) : In i (range lo hi) <-> (lo <= i < hi)%Z.
Proof.
  unfold range. rewrite in_map_iff. split.
  - intros [k [<- Hk]]. apply in_seq in Hk. lia.
  - intros H. exists (Z.to_nat (i - lo)). split; [lia|]. apply in_seq. lia.
Qed.

Lemma aget_Some {A : Type} (a : list A) (i : nat) (d : A) :
  i < length a -> aget a (Z.of_nat i) = Some (nth i a d).
Proof.
  intros H. unfold aget.
  destruct (Z.ltb_spec (Z.of_nat i) 0); [lia|].
  rewrite Nat2Z.id. now apply nth_error_nth'.
Qed.

Lemma aset_Some {A : Type} (a : list A) (i : nat) (x : A) :
  i < length a ->
  aset a (Z.of_nat i) x = Some (firstn i a ++ x :: skipn (S i) a).
Proof.
  intros H. unfold aset.
  destruct (Z.leb_spec 0 (Z.of_nat i)); [|lia].
  destruct (Z.ltb_spec (Z.of_nat i) (Z.of_nat (length a))); [|lia].
  simpl. now rewrite Nat2Z.id.
Qed.

(** Writing [x] at position [i] keeps the part before [i] and the part
    after it. *)
Lemma firstn_update {A : Type} (a : list A) (i : nat) (x : A) :
  i < length a ->
  firstn (S i) (firstn i a ++ x :: skipn (S i) a) = firstn i a ++ [x].
Proof.
  intros H.
  rewrite firstn_app, firstn_firstn, length_firstn.
  replace (Nat.min (S i) i) with i by lia.
  replace (Nat.min i (length a)) with i by lia.
  replace (S i - i) with 1 by lia. reflexivity.
Qed.

Lemma skipn_update {A : Type} (a : list A) (i k : nat) (x : A) :
  i < length a ->
  skipn (S i + k) (firstn i a ++ x :: skipn (S i) a) = skipn (S i + k) a.
Proof.
  intros H.
  rewrite skipn_app, length_firstn.
  replace (Nat.min i (length a)) with i by lia.
  rewrite skipn_all2 by (rewrite length_firstn; lia).
  replace (S i + k - i) with (S k) by lia.
  rewrite skipn_cons, skipn_skipn.
  replace (k + S i) with (S i + k) by lia. reflexivity.
Qed.

Lemma length_update {A : Type} (a : list A) (i : nat) (x : A) :
  i < length a -> length (firstn i a ++ x :: skipn (S i) a) = length a.
Proof.
  intros H. rewrite length_app, length_firstn. cbn [length].
  rewrite length_skipn. lia.
Qed.

(** A loop [for (i = a; i < a + k; i++) dst[i] = g(i);]. *)
Lemma for_each_fill {A : Type} (g : Z -> ub A) (h : nat -> A) :
  forall (k a : nat) (dst : list A),
    a + k <= length dst ->
    (forall i, a <= i < a + k -> g (Z.of_nat i) = Some (h i)) ->
    for_each (map Z.of_nat (seq a k))
             (fun i vs => let? t := g i in aset vs i t) dst
    = Some (firstn a dst ++ map h (seq a k) ++ skipn (a + k) dst).
Proof.
  induction k as [|k IH]; intros a dst Hlen Hg.
  - simpl. rewrite Nat.add_0_r. now rewrite firstn_skipn.
  - simpl. rewrite (Hg a) by lia.
    rewrite aset_Some by lia.
    rewrite IH.
    + rewrite firstn_update by lia.
      rewrite skipn_update by lia.
      rewrite <- app_assoc. simpl.
      replace (a + S k) with (S a + k) by lia. reflexivity.
    + rewrite length_update by lia. lia.
    + intros i Hi. apply Hg. lia.
Qed.

(** What the body keeps, the loop keeps. *)
Lemma for_each_inv {S : Type} (P : S -> Prop) (body : Z -> S -> ub S) :
  forall (l : list Z) (s s' : S),
    (forall i x y, In i l -> P x -> body i x = Some y -> P y) ->
    P s -> for_each l body s = Some s' -> P s'.
Proof.
  induction l as [|i l IH]; intros s s' Hstep Hs H; simpl in H.
  - inversion H. now subst.
  - destruct (body i s) as [y|] eqn:E; [|discriminate].
    apply (IH y s'); auto.
    + intros j x z Hj. apply Hstep. now right.
    + apply (Hstep i s y); auto. now left.
Qed.

End Loops.

(** ** The monad *)

Lemma bind_inv {A B : Type} (m : M A) (f : A -> M B) (w w' : world) (b : B) :
  bind m f w = Some (b, w') ->
  exists a w1, m w = Some (a, w1) /\ f a w1 = Some (b, w').
Proof.
  unfold bind. destruct (m w) as [[a w1]|]; [|discriminate].
  intros H. now exists a, w1.
Qed.

Lemma lift_inv {A : Type} (x : ub A) (w w' : world) (a : A) :
  lift x w = Some (a, w') -> x = Some a /\ w' = w.
Proof.
  unfold lift. destruct x; [|discriminate]. intros H. inversion H. now subst.
Qed.

Lemma mat_alloc_VecDBL_spec (size : Z) (w : world) :
  mat_alloc_VecDBL size w
  = Some (if next_alloc w then Some (repeat vec3_zero (Z.to_nat size))
          else None,
          after_malloc w).
Proof.
  unfold mat_alloc_VecDBL, bind, malloc, next_alloc, after_malloc.
  now destruct (hd true (allocs w)).
Qed.

Lemma cel_alloc_cell_spec (size : Z) (w : world) :
  cel_alloc_cell size w
  = Some (if next_alloc w
          then Some (mkCell size mat3_zero
                            (repeat 0%Z (Z.to_nat size))
                            (repeat vec3_zero (Z.to_nat size)))
          else None,
          after_malloc w).
Proof.
  unfold cel_alloc_cell, bind, malloc, next_alloc, after_malloc.
  now destruct (hd true (allocs w)).
Qed.

(** ** [get_translation_candidates] *)

Section Candidates.

Context {collab : Collaborators}.

Local Open Scope nat_scope.

Lemma map_nth_seq {A : Type} (d : A) (l : list A) :
  map (fun i => nth i l d) (seq 0 (length l)) = l.
Proof.
  induction l as [|x l IH]; [reflexivity|].
  simpl. f_equal. rewrite <- seq_shift, map_map. exact IH.
Qed.

Lemma aset_app_middle {A : Type} (l r : list A) (x y : A) (i : Z) :
  i = Z.of_nat (length l) ->
  aset (l ++ x :: r) i y = Some (l ++ y :: r).
Proof.
  intros ->. rewrite aset_Some by (rewrite length_app; simpl; lia).
  rewrite firstn_app, firstn_all, Nat.sub_diag, firstn_0, app_nil_r.
  rewrite skipn_app, skipn_all2 by lia.
  replace (S (length l) - length l) with 1 by lia. reflexivity.
Qed.

Lemma unit_vectors_loop (rest : list vec3) (multi : Z) (x y z : vec3) :
  multi = Z.of_nat (S (length rest)) ->
  for_each (range 0 3)
           (fun i vs => aset vs (i + multi - 1)%Z (unit_vector i))
           (rest ++ [x; y; z])
  = Some (rest ++ unit_vectors).
Proof.
  intros Hmulti.
  change (range 0 3) with [0%Z; 1%Z; 2%Z]. cbn [for_each].
  rewrite (aset_app_middle rest) by lia.
  replace (rest ++ [unit_vector 0; y; z])
    with ((rest ++ [unit_vector 0]) ++ [y; z])
    by (now rewrite <- app_assoc).
  rewrite aset_app_middle by (rewrite length_app; cbn [length]; lia).
  replace ((rest ++ [unit_vector 0]) ++ [unit_vector 1; z])
    with ((rest ++ [unit_vector 0; unit_vector 1]) ++ [z])
    by (now rewrite <- !app_assoc).
  rewrite aset_app_middle by (rewrite length_app; cbn [length]; lia).
  now rewrite <- app_assoc.
Qed.

(** The function allocates once and, for a list of at least one
    translation, writes the translations after the first and then the
    three unit vectors. *)
Lemma get_translation_candidates_spec (pure_trans : VecDBL) (w : world) :
  1 <= length pure_trans ->
  get_translation_candidates pure_trans w
  = Some (if next_alloc w then Some (tl pure_trans ++ unit_vectors) else None,
          after_malloc w).
Proof.
  intros Hm. unfold get_translation_candidates, bind.
  rewrite mat_alloc_VecDBL_spec.
  destruct (next_alloc w); [|reflexivity].
  destruct pure_trans as [|t0 rest]; [simpl in Hm; lia|].
  unfold vsize. cbn [tl].
  remember (Z.of_nat (length (t0 :: rest))) as multi eqn:Hmulti.
  cbn [length] in Hmulti.
  replace (multi - 1)%Z with (Z.of_nat (length rest)) by lia.
  rewrite range_0, Nat2Z.id.
  rewrite (for_each_fill (fun i => aget (t0 :: rest) (i + 1))
                         (fun i => nth i rest vec3_zero)).
  - unfold lift. rewrite firstn_0, map_nth_seq.
    replace (Z.to_nat (multi + 2)) with (length rest + 3) by lia.
    rewrite repeat_app, skipn_app, repeat_length, Nat.add_0_l, Nat.sub_diag.
    rewrite skipn_all2 by (rewrite repeat_length; lia).
    cbn [app skipn repeat].
    now rewrite unit_vectors_loop.
  - rewrite repeat_length. lia.
  - intros i Hi.
    replace (Z.of_nat i + 1)%Z with (Z.of_nat (S i)) by lia.
    rewrite (aget_Some _ _ vec3_zero) by (simpl; lia). reflexivity.
Qed.

End Candidates.

(** ** The search loops of [get_primitive_lattice_vectors] *)

Section Stage_B.

Context {collab : Collaborators}.

Lemma for_first_app {A B : Type} (l1 l2 : list A) (body : A -> ub (option B)) :
  for_first (l1 ++ l2) body
  = match for_first l1 body with
    | Some None => for_first l2 body
    | r => r
    end.
Proof.
  induction l1 as [|x l1 IH]; [reflexivity|].
  simpl. destruct (body x) as [[b|]|]; auto.
Qed.

Lemma for_first_flat_map {A A' B : Type} (f : A -> list A') (l : list A)
  (body : A' -> ub (option B)) :
  for_first (flat_map f l) body = for_first l (fun x => for_first (f x) body).
Proof.
  induction l as [|x l IH]; [reflexivity|].
  simpl. rewrite for_first_app, IH. reflexivity.
Qed.

Lemma for_first_map {A A' B : Type} (g : A -> A') (l : list A)
  (body : A' -> ub (option B)) :
  for_first (map g l) body = for_first l (fun x => body (g x)).
Proof.
  induction l as [|x l IH]; [reflexivity|].
  simpl. now rewrite IH.
Qed.

Lemma for_first_ext {A B : Type} (l : list A) (f g : A -> ub (option B)) :
  (forall x, In x l -> f x = g x) -> for_first l f = for_first l g.
Proof.
  induction l as [|x l IH]; intros H; [reflexivity|].
  simpl. rewrite (H x) by now left.
  rewrite IH; [reflexivity|]. intros y Hy. apply H. now right.
Qed.

(** The nested loops meet the triples in the order of [triples]. *)
Lemma for_triples_order {B : Type} (size : Z)
  (body : Z -> Z -> Z -> ub (option B)) :
  for_triples size body
  = for_first (triples size) (fun t => let '(i, j, k) := t in body i j k).
Proof.
  unfold for_triples, triples.
  rewrite for_first_flat_map. apply for_first_ext. intros i _.
  rewrite for_first_flat_map. apply for_first_ext. intros j _.
  now rewrite for_first_map.
Qed.

Lemma for_first_find {A B : Type} (l : list A) (body : A -> ub (option B))
  (test : A -> bool) (g : A -> B) :
  (forall x, In x l -> body x = Some (if test x then Some (g x) else None)) ->
  for_first l body = Some (option_map g (find test l)).
Proof.
  induction l as [|x l IH]; intros H; [reflexivity|].
  simpl. rewrite (H x) by now left.
  destruct (test x); [reflexivity|].
  apply IH. intros y Hy. apply H. now right.
Qed.

Lemma triples_In (size i j k : Z) :
  In (i, j, k) (triples size) <-> (0 <= i < j /\ j < k < size)%Z.
Proof.
  unfold triples. rewrite in_flat_map. split.
  - intros [i' [Hi H]]. apply in_flat_map in H. destruct H as [j' [Hj H]].
    apply in_map_iff in H. destruct H as [k' [E Hk]].
    inversion E; subst. apply range_In in Hi, Hj, Hk. lia.
  - intros H. exists i. split; [apply range_In; lia|].
    apply in_flat_map. exists j. split; [apply range_In; lia|].
    apply in_map_iff. exists k. split; [reflexivity|apply range_In; lia].
Qed.

Lemma StronglySorted_app {A : Type} (R : A -> A -> Prop) (l1 l2 : list A) :
  StronglySorted R l1 -> StronglySorted R l2 ->
  (forall a b, In a l1 -> In b l2 -> R a b) ->
  StronglySorted R (l1 ++ l2).
Proof.
  induction l1 as [|x l1 IH]; intros H1 H2 H; [exact H2|].
  simpl. inversion H1; subst. constructor.
  - apply IH; auto. intros a b Ha Hb. apply H; auto. now right.
  - apply Forall_app. split; [assumption|].
    apply Forall_forall. intros b Hb. apply H; auto. now left.
Qed.

Lemma StronglySorted_map {A B : Type} (RA : A -> A -> Prop)
  (R : B -> B -> Prop) (g : A -> B) (l : list A) :
  StronglySorted RA l ->
  (forall x y, RA x y -> R (g x) (g y)) ->
  StronglySorted R (map g l).
Proof.
  intros Hl Hg. induction Hl as [|x l Hl IH Hx]; simpl; constructor; auto.
  apply Forall_map. eapply Forall_impl; [|exact Hx]. intros y. apply Hg.
Qed.

Lemma StronglySorted_flat_map {A B : Type} (RA : A -> A -> Prop)
  (R : B -> B -> Prop) (f : A -> list B) (l : list A) :
  StronglySorted RA l ->
  (forall x, StronglySorted R (f x)) ->
  (forall x y a b, RA x y -> In a (f x) -> In b (f y) -> R a b) ->
  StronglySorted R (flat_map f l).
Proof.
  intros Hl Hf Hc. induction Hl as [|x l Hl IH Hx]; simpl; [constructor|].
  apply StronglySorted_app; auto.
  intros a b Ha Hb. apply in_flat_map in Hb. destruct Hb as [y [Hy Hb]].
  rewrite Forall_forall in Hx. eapply Hc; eauto.
Qed.

Lemma seq_sorted (k a : nat) : StronglySorted lt (seq a k).
Proof.
  revert a. induction k as [|k IH]; intros a; simpl; constructor; auto.
  apply Forall_forall. intros x Hx. apply in_seq in Hx. lia.
Qed.

Lemma range_sorted (lo hi : Z) : StronglySorted Z.lt (range lo hi).
Proof.
  unfold range. eapply StronglySorted_map; [apply seq_sorted|].
  intros x y H. lia.
Qed.

(** The order of the loops is the lexicographic order of the indices. *)
Lemma triples_sorted (size : Z) : StronglySorted lex_lt (triples size).
Proof.
  unfold triples.
  apply StronglySorted_flat_map with (RA := Z.lt).
  - apply range_sorted.
  - intros i. apply StronglySorted_flat_map with (RA := Z.lt).
    + apply range_sorted.
    + intros j. eapply StronglySorted_map; [apply range_sorted|].
      intros k k' H. simpl. lia.
    + intros j j' a b Hj Ha Hb.
      apply in_map_iff in Ha, Hb.
      destruct Ha as [k [<- _]]. destruct Hb as [k' [<- _]]. simpl. lia.
  - intros i i' a b Hi Ha Hb.
    apply in_flat_map in Ha, Hb.
    destruct Ha as [j [_ Ha]]. destruct Hb as [j' [_ Hb]].
    apply in_map_iff in Ha, Hb.
    destruct Ha as [k [<- _]]. destruct Hb as [k' [<- _]]. simpl. lia.
Qed.

Lemma lex_lt_irrefl (t : Z * Z * Z) : ~ lex_lt t t.
Proof.
  destruct t as [[i j] k]. simpl. lia.
Qed.

Lemma lex_lt_asym (s t : Z * Z * Z) : lex_lt s t -> ~ lex_lt t s.
Proof.
  destruct s as [[i j] k], t as [[i' j'] k']. simpl. lia.
Qed.

(** In a sorted list, [find] returns the least element that passes the
    test. *)
Lemma find_sorted_least {A : Type} (R : A -> A -> Prop) (test : A -> bool)
  (l : list A) (x : A) :
  (forall a, ~ R a a) -> (forall a b, R a b -> ~ R b a) ->
  StronglySorted R l -> find test l = Some x ->
  In x l /\ test x = true /\
  forall y, In y l -> R y x -> test y = false.
Proof.
  intros Hirr Hasym Hl. induction Hl as [|z l Hl IH Hz]; simpl;
    [discriminate|].
  destruct (test z) eqn:Ez.
  - intros H. inversion H; subst. split; [now left|]. split; [assumption|].
    intros y [<-|Hy] Hyx; [now apply Hirr in Hyx|].
    rewrite Forall_forall in Hz. exfalso. eapply Hasym; eauto.
  - intros H. destruct (IH H) as [Hin [Ht Hmin]].
    split; [now right|]. split; [assumption|].
    intros y [<-|Hy] Hyx; auto.
Qed.

Lemma Qlt_bool_iff (a b : Q) : Qlt_bool a b = true <-> a < b.
Proof.
  unfold Qlt_bool. rewrite negb_true_iff. split.
  - intros H. apply Qnot_le_lt. intros Hle.
    apply Qle_bool_iff in Hle. congruence.
  - intros H. destruct (Qle_bool b a) eqn:E; [|reflexivity].
    apply Qle_bool_iff in E. exfalso. now apply (Qlt_not_le a b).
Qed.

Lemma triple_qualifies_bool_iff (expected : Z) (cell : Cell) (symprec : Q)
  (vectors : VecDBL) (t : Z * Z * Z) :
  triple_qualifies_bool expected cell symprec vectors t = true
  <-> triple_qualifies expected cell symprec vectors t.
Proof.
  unfold triple_qualifies_bool, triple_qualifies.
  destruct (vectors_of vectors t) as [[vi vj] vk].
  cbv zeta. rewrite andb_true_iff, Qlt_bool_iff, Z.eqb_eq. reflexivity.
Qed.

Lemma triple_accepted_qualifies (vectors : VecDBL) (cell : Cell)
  (symprec : Q) (i j k : Z) :
  triple_accepted (vsize vectors) cell symprec
                  (vector_at vectors i) (vector_at vectors j)
                  (vector_at vectors k)
  = triple_qualifies_bool (vsize vectors - 2) cell symprec vectors (i, j, k).
Proof.
  unfold triple_accepted, triple_qualifies_bool, vectors_of. cbv zeta.
  destruct (Qlt_bool symprec _); [|reflexivity].
  now destruct (Z.eqb _ _).
Qed.

Lemma aget_vector_at (vectors : VecDBL) (i : Z) :
  (0 <= i < vsize vectors)%Z ->
  aget vectors i = Some (vector_at vectors i).
Proof.
  intros H. unfold vsize in H. unfold vector_at.
  rewrite <- (Z2Nat.id i) at 1 by lia.
  apply aget_Some. lia.
Qed.

(** The search loops compute the first qualifying triple for the
    multiplicity [size - 2], and never leave the array. *)
Lemma search_min_vectors_spec (vectors : VecDBL) (cell : Cell) (symprec : Q) :
  search_min_vectors vectors cell symprec
  = Some (first_qualifying_triple (vsize vectors - 2) vectors cell symprec).
Proof.
  unfold search_min_vectors, first_qualifying_triple.
  rewrite for_triples_order.
  apply for_first_find. intros [[i j] k] Hin.
  apply triples_In in Hin.
  rewrite !aget_vector_at by lia.
  rewrite triple_accepted_qualifies.
  now destruct (triple_qualifies_bool _ _ _ _ _).
Qed.

End Stage_B.

(** ** The tolerance sequence *)

Lemma REDUCE_RATE_nonzero : ~ REDUCE_RATE == 0.
Proof.
  unfold REDUCE_RATE, Qeq. simpl. discriminate.
Qed.

Lemma reduced_tolerance_power (tolerance : Q) (k : nat) :
  reduced_tolerance tolerance k == tolerance * REDUCE_RATE ^ Z.of_nat k.
Proof.
  revert tolerance. induction k as [|k IH]; intros tolerance.
  - simpl. ring.
  - cbn [reduced_tolerance]. rewrite IH.
    rewrite Nat2Z.inj_succ, <- Z.add_1_l.
    rewrite Qpower_plus by apply REDUCE_RATE_nonzero.
    change (REDUCE_RATE ^ 1) with REDUCE_RATE. ring.
Qed.

Lemma reduced_tolerance_le (tolerance : Q) (k : nat) :
  0 < tolerance -> reduced_tolerance tolerance k <= tolerance.
Proof.
  revert tolerance. induction k as [|k IH]; intros tolerance H.
  - apply Qle_refl.
  - cbn [reduced_tolerance].
    apply Qle_trans with (tolerance * REDUCE_RATE).
    + apply IH. unfold REDUCE_RATE. lra.
    + unfold REDUCE_RATE. lra.
Qed.

Lemma reduced_tolerance_lt (tolerance : Q) (k : nat) :
  0 < tolerance -> (0 < k)%nat -> reduced_tolerance tolerance k < tolerance.
Proof.
  intros H Hk. destruct k as [|k]; [lia|].
  cbn [reduced_tolerance].
  apply Qle_lt_trans with (tolerance * REDUCE_RATE).
  - apply reduced_tolerance_le. unfold REDUCE_RATE. lra.
  - unfold REDUCE_RATE. lra.
Qed.

Lemma reduced_tolerance_seq (tolerance : Q) (k : nat) :
  map (reduced_tolerance tolerance) (seq 0 (S k))
  = tolerance :: map (reduced_tolerance (tolerance * REDUCE_RATE)) (seq 0 k).
Proof.
  cbn [seq map reduced_tolerance]. f_equal.
  rewrite <- seq_shift, map_map. reflexivity.
Qed.

(** ** Traces *)

Lemma stage_a_events_no_pure_translation (evs : list event) :
  Forall stage_a_event evs -> pure_translation_tolerances evs = [].
Proof.
  induction 1 as [|e evs He _ IH]; [reflexivity|].
  unfold pure_translation_tolerances in *. simpl. rewrite IH.
  destruct e; simpl in He; tauto.
Qed.

Lemma stage_a_events_no_free (evs : list event) :
  Forall stage_a_event evs -> ~ In Call_prm_free_primitive evs.
Proof.
  intros H Hin. rewrite Forall_forall in H. apply (H _ Hin).
Qed.

Lemma pure_translation_tolerances_app (l1 l2 : list event) :
  pure_translation_tolerances (l1 ++ l2)
  = pure_translation_tolerances l1 ++ pure_translation_tolerances l2.
Proof.
  apply flat_map_app.
Qed.

Ltac inv_bind H a w1 Ha :=
  apply bind_inv in H; destruct H as (a & w1 & Ha & H).

Ltac finish_trace :=
  repeat split; auto; try lia; try reflexivity; try (repeat constructor).

Ltac inv_ret H := unfold ret in H; inversion H; subst; clear H.

Ltac inv_lift H :=
  apply lift_inv in H; let E := fresh "E" in destruct H as [H E]; subst.

(** ** Runs of the iterative search *)

Section Stage_A.

Context {collab : Collaborators}.

Local Open Scope nat_scope.

Lemma mat_alloc_VecDBL_inv (size : Z) (w w' : world) (r : option VecDBL) :
  mat_alloc_VecDBL size w = Some (r, w') -> trace w' = trace w.
Proof.
  rewrite mat_alloc_VecDBL_spec. intros H. inversion H. reflexivity.
Qed.

Lemma get_translation_candidates_trace (pure_trans : VecDBL) (w w' : world)
  (r : option VecDBL) :
  get_translation_candidates pure_trans w = Some (r, w') ->
  trace w' = trace w.
Proof.
  unfold get_translation_candidates. intros H.
  inv_bind H a w1 Ha. apply mat_alloc_VecDBL_inv in Ha.
  destruct a as [vectors|]; [|now inv_ret H].
  inv_bind H v1 w2 H1. inv_lift H1.
  inv_bind H v2 w3 H2. inv_lift H2.
  now inv_ret H.
Qed.

(** Every iteration calls the triple search, then (if it fails and memory
    is obtained) the refinement, both with the current tolerance, which is
    then multiplied by [REDUCE_RATE]. *)
Lemma get_primitive_lattice_vectors_iterative_loop_trace (n : nat) :
  forall (cell : Cell) (pure_trans_reduced : VecDBL)
         (tolerance angle_tolerance : Q) (w w' : world)
         (r : option (Z * mat3)),
    get_primitive_lattice_vectors_iterative_loop
      n cell pure_trans_reduced tolerance angle_tolerance w = Some (r, w') ->
    exists evs nb nr,
      trace w' = trace w ++ evs /\
      nb <= n /\ nr <= nb /\
      Forall stage_a_event evs /\
      stage_b_tolerances evs
      = map (reduced_tolerance tolerance) (seq 0 nb) /\
      refinement_tolerances evs
      = map (reduced_tolerance tolerance) (seq 0 nr).
Proof.
  induction n as [|n IH]; intros cell ptr tol ang w w' r H.
  - inv_ret H. exists [], 0, 0. rewrite app_nil_r. finish_trace.
  - cbn [get_primitive_lattice_vectors_iterative_loop] in H.
    inv_bind H a w1 Ha. apply get_translation_candidates_trace in Ha.
    destruct a as [vectors|].
    2:{ inv_ret H. exists [], 0, 0. rewrite app_nil_r, Ha.
        finish_trace. }
    inv_bind H u w2 He. unfold emit in He. inversion He; subst; clear He.
    inv_bind H res w3 Hb. inv_lift Hb.
    destruct res as [prim_lattice|].
    { inv_ret H.
      exists [Call_get_primitive_lattice_vectors tol], 1, 0.
      cbn [trace]. rewrite Ha. finish_trace. }
    inv_bind H b w4 Hb'. apply mat_alloc_VecDBL_inv in Hb'.
    destruct b as [tmp_vec|].
    2:{ inv_ret H.
        exists [Call_get_primitive_lattice_vectors tol], 1, 0.
        rewrite Hb'. cbn [trace]. rewrite Ha. finish_trace. }
    inv_bind H tmp_vec' w5 Hc. inv_lift Hc.
    inv_bind H u' w6 He. unfold emit in He. inversion He; subst; clear He.
    destruct (sym_reduce_pure_translation cell tmp_vec' tol ang)
      as [ptr'|].
    2:{ inv_ret H.
        exists [Call_get_primitive_lattice_vectors tol;
                Call_sym_reduce_pure_translation tol], 1, 1.
        cbn [trace]. rewrite Hb'. cbn [trace]. rewrite Ha, <- app_assoc.
        finish_trace. }
    apply IH in H.
    destruct H as (evs & nb & nr & Ht & Hnb & Hnr & Hev & Hsb & Hrf).
    exists (Call_get_primitive_lattice_vectors tol
            :: Call_sym_reduce_pure_translation tol :: evs), (S nb), (S nr).
    split.
    { rewrite Ht. cbn [trace]. rewrite Hb'. cbn [trace].
      rewrite Ha, <- !app_assoc. reflexivity. }
    split; [lia|]. split; [lia|]. split; [repeat constructor; auto|].
    rewrite !reduced_tolerance_seq.
    change (stage_b_tolerances (?a :: ?b :: evs))
      with (tol :: stage_b_tolerances evs).
    change (refinement_tolerances (?a :: ?b :: evs))
      with (tol :: refinement_tolerances evs).
    now rewrite Hsb, Hrf.
Qed.

Lemma get_primitive_lattice_vectors_iterative_trace (cell : Cell)
  (pure_trans : VecDBL) (symprec angle_tolerance : Q) (w w' : world)
  (r : option (Z * mat3)) :
  get_primitive_lattice_vectors_iterative
    cell pure_trans symprec angle_tolerance w = Some (r, w') ->
  exists evs nb nr,
    trace w' = trace w ++ evs /\
    nb <= NUM_ATTEMPT /\ nr <= nb /\
    Forall stage_a_event evs /\
    stage_b_tolerances evs = map (reduced_tolerance symprec) (seq 0 nb) /\
    refinement_tolerances evs = map (reduced_tolerance symprec) (seq 0 nr).
Proof.
  unfold get_primitive_lattice_vectors_iterative. intros H.
  inv_bind H a w1 Ha. apply mat_alloc_VecDBL_inv in Ha.
  destruct a as [ptr|].
  2:{ inv_ret H. exists [], 0, 0. rewrite app_nil_r.
      finish_trace. }
  inv_bind H ptr' w2 Hc. inv_lift Hc.
  apply get_primitive_lattice_vectors_iterative_loop_trace in H.
  rewrite Ha in H. exact H.
Qed.

Lemma get_primitive_cell_trace (mapping : list Z) (cell : Cell)
  (pure_trans : VecDBL) (symprec angle_tolerance : Q) (w w' : world)
  (r : option Cell * list Z) :
  get_primitive_cell mapping cell pure_trans symprec angle_tolerance w
  = Some (r, w') ->
  exists evs, trace w' = trace w ++ evs /\ Forall stage_a_event evs.
Proof.
  unfold get_primitive_cell. intros H.
  inv_bind H a w1 Ha.
  apply get_primitive_lattice_vectors_iterative_trace in Ha.
  destruct Ha as (evs & nb & nr & Ht & _ & _ & Hev & _).
  exists evs. split; [|assumption].
  destruct a as [[multi prim_lat]|]; [|now inv_ret H].
  destruct (multi =? 0)%Z; [now inv_ret H|].
  destruct (del_delaunay_reduce prim_lat symprec); now inv_ret H.
Qed.

End Stage_A.

(** ** Runs of [get_cell_with_smallest_lattice] *)

Section Smallest_lattice.

Context {collab : Collaborators}.

Local Open Scope nat_scope.

(** The loop over the atoms: types are copied, positions are taken to the
    new basis and folded. *)
Lemma smallest_cell_loop (trans_mat : mat3) (cell : Cell) :
  forall (k a : nat) (sc : Cell),
    a + k <= length (types cell) ->
    a + k <= length (position cell) ->
    a + k <= length (types sc) ->
    a + k <= length (position sc) ->
    for_each (map Z.of_nat (seq a k))
      (fun i sc =>
         let? t := aget (types cell) i in
         let? ts := aset (types sc) i t in
         let? p := aget (position cell) i in
         let? ps := aset (position sc) i (folded_position trans_mat p) in
         Some (mkCell (cell_size sc) (lattice sc) ts ps))
      sc
    = Some (mkCell (cell_size sc) (lattice sc)
              (firstn a (types sc)
               ++ map (fun i => nth i (types cell) 0%Z) (seq a k)
               ++ skipn (a + k) (types sc))
              (firstn a (position sc)
               ++ map (fun i => folded_position trans_mat
                                  (nth i (position cell) vec3_zero))
                      (seq a k)
               ++ skipn (a + k) (position sc))).
Proof.
  induction k as [|k IH]; intros a sc H1 H2 H3 H4.
  - cbn [seq map for_each app]. rewrite Nat.add_0_r, !firstn_skipn.
    now destruct sc.
  - cbn [seq map for_each].
    rewrite (aget_Some _ _ 0%Z) by lia.
    rewrite aset_Some by lia.
    rewrite (aget_Some _ _ vec3_zero) by lia.
    rewrite aset_Some by lia.
    rewrite IH; cbn [types position cell_size lattice];
      rewrite ?length_update by lia; try lia.
    rewrite !firstn_update, !skipn_update by lia.
    rewrite <- !app_assoc. cbn [app].
    replace (a + S k) with (S a + k) by lia. reflexivity.
Qed.

(** On a well-formed cell the function never leaves an array; its result
    is determined by the reduction and by the allocation. *)
Lemma get_cell_with_smallest_lattice_spec (cell : Cell) (symprec : Q)
  (w : world) :
  wf_cell cell ->
  get_cell_with_smallest_lattice cell symprec w
  = match del_delaunay_reduce (lattice cell) symprec with
    | None => Some (None, w)
    | Some min_lat =>
        Some (if next_alloc w
              then Some (mkCell (cell_size cell) min_lat (types cell)
                           (map (folded_position
                                   (mat_multiply_matrix_d3
                                      (mat_inverse_matrix_d3 min_lat)
                                      (lattice cell)))
                                (position cell)))
              else None,
              after_malloc w)
    end.
Proof.
  intros [Hsize [Htypes Hpos]]. unfold get_cell_with_smallest_lattice.
  destruct (del_delaunay_reduce (lattice cell) symprec) as [min_lat|];
    [|reflexivity].
  unfold bind. rewrite cel_alloc_cell_spec.
  destruct (next_alloc w); [|reflexivity].
  cbn [cell_size lattice types position].
  rewrite range_0, smallest_cell_loop;
    cbn [types position]; rewrite ?repeat_length; try lia.
  unfold lift, ret. cbn [cell_size lattice types position firstn app].
  rewrite !skipn_all2 by (rewrite repeat_length; lia).
  rewrite !app_nil_r.
  rewrite <- Htypes at 1. rewrite map_nth_seq.
  rewrite <- (map_map (fun i => nth i (position cell) vec3_zero)).
  rewrite <- Hpos, map_nth_seq. reflexivity.
Qed.

(** Whatever the cell, a returned cell has the size of the input, and the
    function calls no traced collaborator. *)
Lemma get_cell_with_smallest_lattice_inv (cell c : Cell) (symprec : Q)
  (w w' : world) :
  get_cell_with_smallest_lattice cell symprec w = Some (Some c, w') ->
  cell_size c = cell_size cell /\ trace w' = trace w.
Proof.
  unfold get_cell_with_smallest_lattice.
  destruct (del_delaunay_reduce (lattice cell) symprec) as [min_lat|];
    [|intros H; inv_ret H].
  intros H. inv_bind H a w1 Ha. rewrite cel_alloc_cell_spec in Ha.
  inversion Ha; subst; clear Ha.
  destruct (next_alloc w); [|inv_ret H].
  inv_bind H sc w2 Hl. inv_lift Hl. inv_ret H.
  split; [|reflexivity].
  revert Hl.
  apply for_each_inv with (P := fun sc => cell_size sc = cell_size cell);
    [|reflexivity].
  intros i x y _ Hx Hb.
  destruct (aget (types cell) i); [|discriminate].
  destruct (aset (types x) i z); [|discriminate].
  destruct (aget (position cell) i); [|discriminate].
  destruct (aset (position x) i _); [|discriminate].
  inversion Hb. exact Hx.
Qed.

Lemma get_cell_with_smallest_lattice_trace (cell : Cell) (symprec : Q)
  (w w' : world) (r : option Cell) :
  get_cell_with_smallest_lattice cell symprec w = Some (r, w') ->
  trace w' = trace w.
Proof.
  unfold get_cell_with_smallest_lattice.
  destruct (del_delaunay_reduce (lattice cell) symprec) as [min_lat|];
    [|intros H; now inv_ret H].
  intros H. inv_bind H a w1 Ha. rewrite cel_alloc_cell_spec in Ha.
  inversion Ha; subst; clear Ha.
  destruct (next_alloc w); [|now inv_ret H].
  inv_bind H sc w2 Hl. inv_lift Hl. now inv_ret H.
Qed.

End Smallest_lattice.

(** ** Runs of [prm_alloc_primitive] *)

Section Alloc_primitive.

Context {collab : Collaborators}.

Local Open Scope nat_scope.

Lemma map_const_seq {A : Type} (x : A) (k a : nat) :
  map (fun _ => x) (seq a k) = repeat x k.
Proof.
  revert a. induction k as [|k IH]; intros a; [reflexivity|].
  simpl. now rewrite IH.
Qed.

(** [for (i = 0; i < size; i++) mapping_table[i] = -1;] *)
Lemma mapping_init_loop (size : Z) :
  for_each (range 0 size) (fun i m => aset m i (-1)%Z)
           (repeat 0%Z (Z.to_nat size))
  = Some (repeat (-1)%Z (Z.to_nat size)).
Proof.
  rewrite range_0.
  refine (eq_trans
            (for_each_fill (fun _ => Some (-1)%Z) (fun _ => (-1)%Z)
                           (Z.to_nat size) 0 _ _ _) _).
  - rewrite repeat_length. lia.
  - reflexivity.
  - rewrite firstn_0, map_const_seq.
    rewrite skipn_all2 by (rewrite repeat_length; lia).
    now rewrite app_nil_r.
Qed.

(** [for (i = 0; i < cell->size; i++) mapping_table[i] = i;] *)
Lemma mapping_identity_loop (size : Z) (m : list Z) :
  length m = Z.to_nat size ->
  for_each (range 0 size) (fun i m => aset m i i) m = Some (range 0 size).
Proof.
  intros Hm. rewrite range_0.
  refine (eq_trans
            (for_each_fill (fun i => Some i) (fun i => Z.of_nat i)
                           (Z.to_nat size) 0 _ _ _) _).
  - lia.
  - reflexivity.
  - rewrite firstn_0, skipn_all2 by lia. now rewrite app_nil_r.
Qed.

(** [prm_alloc_primitive] always returns, calls no traced collaborator, and
    a record it returns is the fresh one. *)
Lemma prm_alloc_primitive_spec (size : Z) (w : world) :
  exists r w',
    prm_alloc_primitive size w = Some (r, w') /\
    trace w' = trace w /\
    (r = None \/ r = Some (fresh_primitive size)).
Proof.
  unfold prm_alloc_primitive, bind, malloc.
  destruct (hd true (allocs w)); cbn [negb];
    [|eexists _, _; split; [reflexivity|split; [reflexivity|now left]]].
  cbn [allocs trace].
  destruct (hd true (tl (allocs w))); cbn [negb];
    [|eexists _, _; split; [reflexivity|split; [reflexivity|now left]]].
  destruct (0 <? size)%Z.
  - cbn [allocs trace].
    destruct (hd true (tl (tl (allocs w)))); cbn [negb];
      [|eexists _, _; split; [reflexivity|split; [reflexivity|now left]]].
    rewrite mapping_init_loop. unfold lift, ret.
    eexists _, _. split; [reflexivity|]. split; [reflexivity|now right].
  - unfold ret at 1. cbn [negb].
    rewrite mapping_init_loop. unfold lift, ret.
    eexists _, _. split; [reflexivity|]. split; [reflexivity|now right].
Qed.

End Alloc_primitive.

(** ** Runs of [get_primitive] *)

Section Get_primitive.

Context {collab : Collaborators}.

Local Open Scope nat_scope.

Lemma loop_outcome_step (input : Cell) (angle : Q) (size0 : Z) (tol : Q)
  (n : nat) (pre evs : list event) (r : option Primitive) :
  pure_translation_tolerances pre = [tol] ->
  ~ In Call_prm_free_primitive pre ->
  loop_outcome input angle size0 (tol * REDUCE_RATE) n evs r ->
  loop_outcome input angle size0 tol (S n) (pre ++ evs) r.
Proof.
  intros Hpre Hfree (k & Hk & Htol & Hr).
  exists (S k). split; [lia|]. split.
  - rewrite pure_translation_tolerances_app, Hpre, Htol.
    now rewrite reduced_tolerance_seq.
  - destruct r as [p|].
    + destruct Hr as (Hk1 & Hp & Hsz & Hnf & Hacc).
      split; [lia|]. split.
      * rewrite Hp. destruct k as [|k]; [lia|].
        cbn [Nat.sub]. rewrite Nat.sub_0_r. reflexivity.
      * split; [assumption|]. split; [|assumption].
        intros Hin. apply in_app_or in Hin. tauto.
    + destruct Hr as (-> & evs0 & -> & Hnf).
      split; [reflexivity|].
      exists (pre ++ evs0). split; [now rewrite app_assoc|].
      intros Hin. apply in_app_or in Hin. tauto.
Qed.

Lemma loop_outcome_found (input : Cell) (angle : Q) (tol : Q) (n : nat)
  (pre : list event) (p : Primitive) :
  pure_translation_tolerances pre = [tol] ->
  ~ In Call_prm_free_primitive pre ->
  tolerance p = tol ->
  accepted input angle p ->
  loop_outcome input angle (size p) tol (S n) pre (Some p).
Proof.
  intros Hpre Hfree Htol Hacc. exists 1.
  split; [lia|]. split; [exact Hpre|].
  split; [lia|]. split; [exact Htol|]. split; [reflexivity|].
  split; assumption.
Qed.

Lemma get_primitive_cell_mapping_length (mapping : list Z) (input : Cell)
  (pure_trans : VecDBL) (symprec angle : Q) (w w' : world)
  (c : option Cell) (mapping' : list Z) :
  get_primitive_cell mapping input pure_trans symprec angle w
  = Some ((c, mapping'), w') ->
  length mapping' = length mapping.
Proof.
  unfold get_primitive_cell. intros H.
  inv_bind H a w1 Ha.
  destruct a as [[multi prim_lat]|]; [|now inv_ret H].
  destruct (multi =? 0)%Z; [now inv_ret H|].
  destruct (del_delaunay_reduce prim_lat symprec) as [smallest_lat|];
    [|now inv_ret H].
  unfold ret in H. inversion H as [[Hc Hw]].
  rewrite <- (cel_trim_cell_length mapping smallest_lat input symprec).
  now rewrite Hc.
Qed.

(** The loop of [get_primitive]: one call of [sym_get_pure_translation]
    per attempt, at the tolerance reduced once per earlier attempt; a
    record is returned by the attempt that succeeds, and the record is
    released when no attempt is left. *)
Lemma get_primitive_loop_run (n : nat) :
  forall (input : Cell) (primitive : Primitive) (tol angle : Q)
         (w w' : world) (r : option Primitive),
    length (mapping_table primitive) = Z.to_nat (cell_size input) ->
    get_primitive_loop n input primitive tol angle w = Some (r, w') ->
    exists evs,
      trace w' = trace w ++ evs /\
      loop_outcome input angle (size primitive) tol n evs r.
Proof.
  induction n as [|n IH]; intros input primitive tol angle w w' r Hlen H.
  - cbn [get_primitive_loop] in H. unfold prm_free_primitive in H.
    inv_bind H u w1 He. unfold emit in He. inversion He; subst; clear He.
    inv_ret H. exists [Call_prm_free_primitive]. split; [reflexivity|].
    exists 0. split; [lia|]. split; [reflexivity|]. split; [reflexivity|].
    exists []. split; [reflexivity|]. intros [].
  - cbn [get_primitive_loop] in H.
    inv_bind H u w1 He. unfold emit in He. inversion He; subst; clear He.
    set (e := Call_sym_get_pure_translation tol) in *.
    assert (He : pure_translation_tolerances [e] = [tol]) by reflexivity.
    assert (Hf : ~ In Call_prm_free_primitive [e])
      by (intros [Hx|[]]; discriminate).
    destruct (sym_get_pure_translation input tol) as [pure_trans|] eqn:Hpt.
    2:{ apply IH in H; [|assumption].
        destruct H as (evs & Ht & Hout). exists ([e] ++ evs).
        split; [rewrite Ht; cbn [trace]; now rewrite <- app_assoc|].
        now apply loop_outcome_step. }
    destruct (vsize pure_trans =? 1)%Z eqn:Hone.
    + inv_bind H c w2 Hc.
      destruct c as [primitive_cell|].
      * pose proof Hc as Hrun.
        apply get_cell_with_smallest_lattice_inv in Hc.
        destruct Hc as [Hsize Htr].
        inv_bind H mapping w3 Hm. inv_lift Hm. inv_ret H.
        rewrite mapping_identity_loop in Hm by assumption.
        inversion Hm; subst; clear Hm.
        exists [e]. split; [now rewrite Htr|].
        apply (loop_outcome_found input angle tol n [e]
                 (found input (set_mapping_table primitive
                                 (range 0 (cell_size input)))
                        primitive_cell tol angle)); auto.
        split; [reflexivity|].
        split; [cbn [found mapping_table set_mapping_table];
                now rewrite range_length, Z.sub_0_r|].
        exists primitive_cell, pure_trans. cbn [cell t_mat tolerance found].
        split; [reflexivity|]. split; [reflexivity|].
        split; [assumption|]. intros _.
        split; [eexists _, _; exact Hrun|]. split; [assumption|reflexivity].
      * apply get_cell_with_smallest_lattice_trace in Hc.
        apply IH in H; [|assumption].
        destruct H as (evs & Ht & Hout). exists ([e] ++ evs).
        split; [rewrite Ht, Hc; cbn [trace]; now rewrite <- app_assoc|].
        now apply loop_outcome_step.
    + inv_bind H cm w2 Hc. destruct cm as [c mapping].
      pose proof (get_primitive_cell_mapping_length _ _ _ _ _ _ _ _ _ Hc)
        as Hlen'.
      apply get_primitive_cell_trace in Hc.
      destruct Hc as (evs1 & Ht1 & Hev1).
      assert (He1 : pure_translation_tolerances ([e] ++ evs1) = [tol]).
      { rewrite pure_translation_tolerances_app, He.
        now rewrite stage_a_events_no_pure_translation. }
      assert (Hf1 : ~ In Call_prm_free_primitive ([e] ++ evs1)).
      { intros Hin. apply in_app_or in Hin. destruct Hin as [Hin|Hin];
          [tauto|]. revert Hin. now apply stage_a_events_no_free. }
      destruct c as [primitive_cell|].
      * inv_ret H. exists ([e] ++ evs1).
        split; [rewrite Ht1; cbn [trace]; now rewrite <- app_assoc|].
        apply (loop_outcome_found input angle tol n ([e] ++ evs1)
                 (found input (set_mapping_table primitive mapping)
                        primitive_cell tol angle)); auto.
        split; [reflexivity|].
        split; [cbn [found mapping_table set_mapping_table]; congruence|].
        exists primitive_cell, pure_trans. cbn [cell t_mat tolerance found].
        repeat split; auto; apply Z.eqb_neq in Hone; contradiction.
      * apply IH in H; [|cbn [set_mapping_table mapping_table]; congruence].
        destruct H as (evs & Ht & Hout). exists (([e] ++ evs1) ++ evs).
        split.
        { rewrite Ht, Ht1. cbn [trace]. now rewrite <- !app_assoc. }
        now apply loop_outcome_step.
Qed.

End Get_primitive.

(** ** Definedness

    The code stays inside its arrays when the cell is well formed and the
    symmetry collaborator never returns an empty list of translations (a
    translation group contains at least the identity). *)

Section Definedness.

Context {collab : Collaborators}.

Local Open Scope nat_scope.

(** [for (i = 0; i < src->size; i++) dst->vec[i] = src->vec[i];] into a
    list allocated with [src->size] entries. *)
Lemma copy_loop (src : VecDBL) :
  for_each (range 0 (vsize src))
           (fun i vs => let? t := aget src i in aset vs i t)
           (repeat vec3_zero (Z.to_nat (vsize src)))
  = Some src.
Proof.
  unfold vsize. rewrite range_0, Nat2Z.id.
  rewrite (for_each_fill (fun i => aget src i)
                         (fun i => nth i src vec3_zero)).
  - rewrite firstn_0, map_nth_seq.
    rewrite skipn_all2 by (rewrite repeat_length; lia).
    now rewrite app_nil_r.
  - rewrite repeat_length. lia.
  - intros i Hi. apply aget_Some. lia.
Qed.

Lemma get_primitive_lattice_vectors_spec (vectors : VecDBL) (input : Cell)
  (symprec : Q) :
  get_primitive_lattice_vectors vectors input symprec
  = Some (option_map
            (fun min_vectors =>
               mat_multiply_matrix_d3
                 (lattice input)
                 (clean_relative_lattice
                    (vsize vectors) (transpose_min_vectors min_vectors)))
            (first_qualifying_triple (vsize vectors - 2)
                                     vectors input symprec)).
Proof.
  unfold get_primitive_lattice_vectors.
  rewrite search_min_vectors_spec.
  now destruct (first_qualifying_triple _ _ _ _).
Qed.





End Definedness.

(** ** Matrix algebra *)

Lemma mat_multiply_inverse_cancel (p l : mat3) :
  ~ mat_get_determinant_d3 l == 0 ->
  mat3_eq (mat_multiply_matrix_d3
             (mat_multiply_matrix_d3 p (mat_inverse_matrix_d3 l)) l)
          p.
Proof.
  destruct p as [[[[p00 p01] p02] [[p10 p11] p12]] [[p20 p21] p22]].
  destruct l as [[[[l00 l01] l02] [[l10 l11] l12]] [[l20 l21] l22]].
  unfold mat_get_determinant_d3. intros Hdet.
  unfold mat3_eq, vec3_eq, mat_multiply_matrix_d3, mat_inverse_matrix_d3,
    mat_get_determinant_d3.
  repeat split; field; exact Hdet.
Qed.

(** ** Modulo-1 folding *)

Lemma mat_Dmod1_range (prec a : Q) :
  0 <= mat_Dmod1 prec a /\ mat_Dmod1 prec a < 1.
Proof.
  unfold mat_Dmod1.
  pose proof (Qfloor_le a) as Hlo. pose proof (Qlt_floor a) as Hhi.
  rewrite inject_Z_plus in Hhi. change (inject_Z 1) with 1 in Hhi.
  destruct (Qle_bool _ prec || Qle_bool (1 - prec) _); split; lra.
Qed.

Lemma mat_Dmod1_snap (prec a : Q) :
  Qabs (a - 1) <= prec -> mat_Dmod1 prec a == 0.
Proof.
  intros Habs. apply Qabs_Qle_condition in Habs. destruct Habs as [H1 H2].
  unfold mat_Dmod1.
  pose proof (Qfloor_le a) as Hlo. pose proof (Qlt_floor a) as Hhi.
  rewrite inject_Z_plus in Hhi. change (inject_Z 1) with 1 in Hhi.
  destruct (Qle_bool (a - inject_Z (Qfloor a)) prec) eqn:E1;
    [reflexivity|].
  destruct (Qle_bool (1 - prec) (a - inject_Z (Qfloor a))) eqn:E2;
    [reflexivity|].
  exfalso.
  assert (Hb1 : prec < a - inject_Z (Qfloor a)).
  { apply Qnot_le_lt. intros H. apply Qle_bool_iff in H. congruence. }
  assert (Hb2 : a - inject_Z (Qfloor a) < 1 - prec).
  { apply Qnot_le_lt. intros H. apply Qle_bool_iff in H. congruence. }
  assert (Hf1 : (Qfloor a < 2)%Z).
  { rewrite Zlt_Qlt. change (inject_Z 2) with 2. lra. }
  assert (Hf0 : (-1 < Qfloor a)%Z).
  { rewrite Zlt_Qlt. change (inject_Z (-1)) with (- (1)). lra. }
  assert (Hf : Qfloor a = 0%Z \/ Qfloor a = 1%Z) by lia.
  destruct Hf as [Hf|Hf]; rewrite Hf in *.
  - change (inject_Z 0) with 0 in *. lra.
  - change (inject_Z 1) with 1 in *. lra.
Qed.

(** [mat_Dmod1] is the fold of the specification, whatever the
    tolerance. *)
Lemma mat_Dmod1_folded (prec a : Q) :
  folded_modulo_1 prec a (mat_Dmod1 prec a).
Proof.
  split; [apply mat_Dmod1_range|].
  unfold mat_Dmod1.
  pose proof (Qfloor_le a) as Hlo. pose proof (Qlt_floor a) as Hhi.
  rewrite inject_Z_plus in Hhi. change (inject_Z 1) with 1 in Hhi.
  set (f := Qfloor a) in *.
  destruct (Qle_bool (a - inject_Z f) prec) eqn:E1;
    [apply Qle_bool_iff in E1|];
    [|destruct (Qle_bool (1 - prec) (a - inject_Z f)) eqn:E2;
      [apply Qle_bool_iff in E2|]];
    cbn [orb].
  - split; [|split].
    + exists f. right. split; [reflexivity|].
      apply Qabs_Qle_condition. split; lra.
    + reflexivity.
    + intros Hprec n H1 H2. exfalso.
      assert (Hn1 : (n < f + 1)%Z).
      { rewrite Zlt_Qlt, inject_Z_plus. change (inject_Z 1) with 1. lra. }
      assert (Hn2 : (f < n + 1)%Z).
      { rewrite Zlt_Qlt, inject_Z_plus. change (inject_Z 1) with 1. lra. }
      assert (Hn : n = f) by lia. subst n. lra.
  - split; [|split].
    + exists (f + 1)%Z. right. split; [reflexivity|].
      rewrite inject_Z_plus. change (inject_Z 1) with 1.
      apply Qabs_Qle_condition. split; lra.
    + reflexivity.
    + intros Hprec n H1 H2. exfalso.
      assert (Hn1 : (n < f + 1)%Z).
      { rewrite Zlt_Qlt, inject_Z_plus. change (inject_Z 1) with 1. lra. }
      assert (Hn2 : (f < n + 1)%Z).
      { rewrite Zlt_Qlt, inject_Z_plus. change (inject_Z 1) with 1. lra. }
      assert (Hn : n = f) by lia. subst n. lra.
  - assert (Hb1 : prec < a - inject_Z f).
    { apply Qnot_le_lt. intros H. apply Qle_bool_iff in H. congruence. }
    assert (Hb2 : a - inject_Z f < 1 - prec).
    { apply Qnot_le_lt. intros H. apply Qle_bool_iff in H. congruence. }
    split; [|split].
    + exists f. left. reflexivity.
    + intros n Hn. exfalso.
      apply Qabs_Qle_condition in Hn. destruct Hn as [Hn1 Hn2].
      assert (Hz1 : (f < n)%Z) by (rewrite Zlt_Qlt; lra).
      assert (Hz2 : (n < f + 1)%Z).
      { rewrite Zlt_Qlt, inject_Z_plus. change (inject_Z 1) with 1. lra. }
      lia.
    + intros Hprec n H1 H2.
      assert (Hn1 : (n < f + 1)%Z).
      { rewrite Zlt_Qlt, inject_Z_plus. change (inject_Z 1) with 1. lra. }
      assert (Hn2 : (f < n + 1)%Z).
      { rewrite Zlt_Qlt, inject_Z_plus. change (inject_Z 1) with 1. lra. }
      assert (Hn : n = f) by lia. subst n. reflexivity.
Qed.

(** ** Rounding *)

Lemma mat_Nint_nearest (a : Q) :
  Qabs (a - inject_Z (mat_Nint a)) <= 1 # 2.
Proof.
  apply Qabs_Qle_condition. unfold mat_Nint.
  destruct (Qlt_bool a 0).
  - pose proof (Qle_ceiling (a - (1 # 2))) as H1.
    pose proof (Qceiling_lt (a - (1 # 2))) as H2.
    unfold Z.sub in H2. rewrite inject_Z_plus, inject_Z_opp in H2.
    change (inject_Z 1) with 1 in H2. split; lra.
  - pose proof (Qfloor_le (a + (1 # 2))) as H1.
    pose proof (Qlt_floor (a + (1 # 2))) as H2.
    rewrite inject_Z_plus in H2. change (inject_Z 1) with 1 in H2.
    split; lra.
Qed.

(** ** Order of the tests *)

Lemma StronglySorted_app_inv_r {A : Type} (R : A -> A -> Prop)
  (l1 l2 : list A) :
  StronglySorted R (l1 ++ l2) -> StronglySorted R l2.
Proof.
  induction l1 as [|x l1 IH]; [auto|].
  simpl. intros H. inversion H; subst. auto.
Qed.

Lemma StronglySorted_app_cross {A : Type} (R : A -> A -> Prop)
  (l1 l2 : list A) (x y : A) :
  StronglySorted R (l1 ++ l2) -> In x l1 -> In y l2 -> R x y.
Proof.
  induction l1 as [|z l1 IH]; [intros _ []|].
  simpl. intros H [->|Hx] Hy; inversion H; subst.
  - rewrite Forall_forall in H3. apply H3, in_or_app. now right.
  - auto.
Qed.

(** In a strictly sorted list, position and order are the same thing. *)
Lemma before_sorted {A : Type} (R : A -> A -> Prop) (l : list A) (x y : A) :
  (forall a, ~ R a a) -> (forall a b, R a b -> ~ R b a) ->
  StronglySorted R l ->
  before l x y <-> In x l /\ In y l /\ R x y.
Proof.
  intros Hirr Hasym Hl. split.
  - intros (l1 & l2 & l3 & ->). split; [|split].
    + apply in_or_app. right. now left.
    + apply in_or_app. right. right. apply in_or_app. right. now left.
    + apply StronglySorted_app_inv_r in Hl. inversion Hl; subst.
      rewrite Forall_forall in H2. apply H2, in_or_app. right. now left.
  - intros (Hx & Hy & Hxy).
    apply in_split in Hx. destruct Hx as (l1 & l' & ->).
    apply in_app_or in Hy. destruct Hy as [Hy|[->|Hy]].
    + exfalso. apply (Hasym _ _ Hxy).
      apply (StronglySorted_app_cross R l1 (x :: l')); auto. now left.
    + now apply Hirr in Hxy.
    + apply in_split in Hy. destruct Hy as (l2 & l3 & ->).
      now exists l1, l2, l3.
Qed.

Lemma before_triples (size : Z) (t1 t2 : Z * Z * Z) :
  before (triples size) t1 t2
  <-> In t1 (triples size) /\ In t2 (triples size) /\ lex_lt t1 t2.
Proof.
  apply before_sorted.
  - apply lex_lt_irrefl.
  - apply lex_lt_asym.
  - apply triples_sorted.
Qed.

(** All-translation triples come first exactly for four translations or
    fewer. *)
Lemma translations_first_iff (m : Z) : translations_first m <-> (m <= 4)%Z.
Proof.
  split.
  - intros H. destruct (Z.le_gt_cases m 4) as [Hm|Hm]; [assumption|].
    exfalso.
    assert (Hb : before (triples (m + 2)) (0, 2, 3)%Z (0, 1, m - 1)%Z).
    { apply H; try (apply triples_In; lia); simpl; lia. }
    apply before_triples in Hb. destruct Hb as (_ & _ & Hlt).
    simpl in Hlt. lia.
  - intros Hm [[i j] k] [[i' j'] k'] H1 H2 Ho Hu.
    apply before_triples. split; [assumption|]. split; [assumption|].
    apply triples_In in H1, H2. simpl in *. lia.
Qed.

(** * The properties stated by the specification *)

(** ** The candidate vectors *)

(** C6.  For a translation list of [m >= 1] members (and memory for the
    list), [get_translation_candidates] returns [m - 1 + 3 = m + 2]
    vectors: the translations after the first, in order, followed by the
    unit lattice vectors (1,0,0), (0,1,0), (0,0,1). *)
Theorem translation_candidates_count (pure_trans : VecDBL) (w : world) :
  (1 <= length pure_trans)%nat ->
  next_alloc w = true ->
  exists vectors,
    get_translation_candidates pure_trans w
    = Some (Some vectors, after_malloc w) /\
    vectors = tl pure_trans ++ [(1, 0, 0); (0, 1, 0); (0, 0, 1)] /\
    vsize vectors = (vsize pure_trans - 1 + 3)%Z /\
    vsize vectors = (vsize pure_trans + 2)%Z.
Proof.
  intros Hm Halloc. exists (tl pure_trans ++ unit_vectors).
  rewrite get_translation_candidates_spec, Halloc by assumption.
  split; [reflexivity|]. split; [reflexivity|].
  unfold vsize. rewrite length_app.
  destruct pure_trans as [|t0 rest]; [simpl in Hm; lia|].
  cbn [tl length unit_vectors]. lia.
Qed.

Lemma translation_candidates_count_witness :
  (1 <= length bcc_translations)%nat /\
  next_alloc world0 = true /\
  exists vectors,
    get_translation_candidates bcc_translations world0
    = Some (Some vectors, after_malloc world0) /\
    vectors = tl bcc_translations ++ [(1, 0, 0); (0, 1, 0); (0, 0, 1)] /\
    vsize vectors = (vsize bcc_translations - 1 + 3)%Z /\
    vsize vectors = (vsize bcc_translations + 2)%Z.
Proof.
  split; [simpl; lia|]. split; [reflexivity|].
  apply (translation_candidates_count bcc_translations world0);
    [simpl; lia|reflexivity].
Defined.

Lemma candidates_size (pure_trans : VecDBL) :
  (1 <= length pure_trans)%nat ->
  (vsize (tl pure_trans ++ unit_vectors) - 2 = vsize pure_trans)%Z.
Proof.
  intros Hm. unfold vsize. rewrite length_app.
  destruct pure_trans as [|t0 rest]; [simpl in Hm; lia|].
  cbn [tl length unit_vectors]. lia.
Qed.

(** ** The triple search *)

(** C1, as amended.  The loops of [get_primitive_lattice_vectors] never
    leave the array and return the first triple, in lexicographic order of
    [(i, j, k)] with [i < j < k], whose volume [V] exceeds the tolerance
    and for which [round(V0 / V)] is the number of candidates minus two;
    the search fails exactly when no triple qualifies.  For the candidates
    of a list of [m >= 1] translations that number is [m], the order of
    the group, not [m - 2]. *)
Theorem triple_search_first_match (vectors : VecDBL) (input : Cell)
  (symprec : Q) :
  search_min_vectors vectors input symprec
  = Some (first_qualifying_triple (vsize vectors - 2) vectors input symprec)
  /\
  (forall min_vectors,
      search_min_vectors vectors input symprec = Some (Some min_vectors) ->
      exists i j k,
        (0 <= i < j /\ j < k < vsize vectors)%Z /\
        min_vectors = vectors_of vectors (i, j, k) /\
        triple_qualifies (vsize vectors - 2) input symprec vectors (i, j, k) /\
        forall i' j' k',
          (0 <= i' < j' /\ j' < k' < vsize vectors)%Z ->
          lex_lt (i', j', k') (i, j, k) ->
          ~ triple_qualifies (vsize vectors - 2) input symprec vectors
              (i', j', k'))
  /\
  (get_primitive_lattice_vectors vectors input symprec = Some None
   <-> forall i j k,
         (0 <= i < j /\ j < k < vsize vectors)%Z ->
         ~ triple_qualifies (vsize vectors - 2) input symprec vectors
             (i, j, k))
  /\
  (forall pure_trans,
      (1 <= length pure_trans)%nat ->
      vectors = tl pure_trans ++ unit_vectors ->
      (vsize vectors - 2 = vsize pure_trans)%Z).
Proof.
  split; [apply search_min_vectors_spec|].
  split; [|split].
  - rewrite search_min_vectors_spec. unfold first_qualifying_triple.
    intros min_vectors H.
    destruct (find _ (triples (vsize vectors))) as [[[i j] k]|] eqn:E;
      [|discriminate].
    inversion H; subst; clear H.
    apply (find_sorted_least lex_lt) in E;
      [|apply lex_lt_irrefl|apply lex_lt_asym|apply triples_sorted].
    destruct E as (Hin & Hq & Hleast).
    exists i, j, k. split; [now apply triples_In|]. split; [reflexivity|].
    split; [now apply triple_qualifies_bool_iff|].
    intros i' j' k' Hr Hlt Hq'.
    apply triple_qualifies_bool_iff in Hq'.
    rewrite Hleast in Hq'; [discriminate| |assumption].
    now apply triples_In.
  - rewrite get_primitive_lattice_vectors_spec.
    unfold first_qualifying_triple. split.
    + intros H i j k Hr Hq.
      destruct (find _ (triples (vsize vectors))) eqn:E; [discriminate|].
      apply triple_qualifies_bool_iff in Hq.
      rewrite (find_none _ _ E (i, j, k)) in Hq; [discriminate|].
      now apply triples_In.
    + intros H.
      destruct (find _ (triples (vsize vectors))) as [[[i j] k]|] eqn:E;
        [|reflexivity].
      apply find_some in E. destruct E as [Hin Hq].
      exfalso. apply (H i j k); [now apply triples_In|].
      now apply triple_qualifies_bool_iff.
  - intros pure_trans Hm ->. now apply candidates_size.
Qed.

Lemma triple_search_first_match_witness :
  (1 <= length bcc_translations)%nat /\
  search_min_vectors (tl bcc_translations ++ unit_vectors) cubic_cell
                     (1 # 100000)
  = Some (Some ((1 # 2, 1 # 2, 1 # 2), (1, 0, 0), (0, 1, 0))) /\
  exists i j k,
    (0 <= i < j /\ j < k < vsize (tl bcc_translations ++ unit_vectors))%Z /\
    ((1 # 2, 1 # 2, 1 # 2), (1, 0, 0), (0, 1, 0))
    = vectors_of (tl bcc_translations ++ unit_vectors) (i, j, k) /\
    triple_qualifies (vsize bcc_translations) cubic_cell (1 # 100000)
                     (tl bcc_translations ++ unit_vectors) (i, j, k).
Proof.
  assert (Hm : (1 <= length bcc_translations)%nat) by (simpl; lia).
  assert (Hrun : search_min_vectors (tl bcc_translations ++ unit_vectors)
                                    cubic_cell (1 # 100000)
                 = Some (Some ((1 # 2, 1 # 2, 1 # 2), (1, 0, 0), (0, 1, 0))))
    by (vm_compute; reflexivity).
  split; [exact Hm|]. split; [exact Hrun|].
  destruct (triple_search_first_match
              (tl bcc_translations ++ unit_vectors) cubic_cell (1 # 100000))
    as (_ & Hfirst & _ & Hsize).
  destruct (Hfirst _ Hrun) as (i & j & k & Hr & Hv & Hq & _).
  exists i, j, k. split; [exact Hr|]. split; [exact Hv|].
  rewrite <- (Hsize bcc_translations Hm eq_refl). exact Hq.
Defined.

(** C1 as stated fails: for the body-centred cell the group has order 2,
    no triple has [round(V0 / V) = 0], and yet the search succeeds, with
    the first triple for which [round(V0 / V) = 2]. *)
Lemma triple_search_group_order_minus_two_fails :
  exists vectors,
    get_translation_candidates bcc_translations world0
    = Some (Some vectors, after_malloc world0) /\
    first_qualifying_triple (vsize bcc_translations - 2) vectors
                            cubic_cell (1 # 100000) = None /\
    search_min_vectors vectors cubic_cell (1 # 100000)
    = Some (Some ((1 # 2, 1 # 2, 1 # 2), (1, 0, 0), (0, 1, 0))) /\
    search_min_vectors vectors cubic_cell (1 # 100000)
    <> Some (first_qualifying_triple (vsize bcc_translations - 2) vectors
                                     cubic_cell (1 # 100000)).
Proof.
  eexists. split; [vm_compute; reflexivity|].
  split; [vm_compute; reflexivity|].
  split; [vm_compute; reflexivity|].
  vm_compute. discriminate.
Qed.

(** C10, as amended.  [get_translation_candidates] drops the element at
    index 0 whatever its value, writes the other translations in their
    order at the indices [0 .. m-2] and the unit lattice vectors at
    [m-1 .. m+1].  The search loops test the triples in lexicographic order
    of their indices, so a triple made of translations only is tested
    before the triples with the same [(i, j)] that end in a unit lattice
    vector; it is tested before every triple that involves a unit lattice
    vector only when [m <= 4]: for [m >= 5] the triple [(0, 1, m-1)] is
    tested before [(0, 2, 3)]. *)
Theorem candidates_positions_and_test_order :
  (forall (t0 t0' : vec3) (rest : VecDBL) (w : world),
      get_translation_candidates (t0 :: rest) w
      = get_translation_candidates (t0' :: rest) w)
  /\
  (forall (pure_trans vectors : VecDBL) (w w' : world),
      (1 <= length pure_trans)%nat ->
      get_translation_candidates pure_trans w = Some (Some vectors, w') ->
      (forall i, (0 <= i < vsize pure_trans - 1)%Z ->
                 aget vectors i = aget pure_trans (i + 1)) /\
      aget vectors (vsize pure_trans - 1) = Some (1, 0, 0) /\
      aget vectors (vsize pure_trans) = Some (0, 1, 0) /\
      aget vectors (vsize pure_trans + 1) = Some (0, 0, 1) /\
      vsize vectors = (vsize pure_trans + 2)%Z)
  /\
  (forall (B : Type) (size : Z) (body : Z -> Z -> Z -> ub (option B)),
      for_triples size body
      = for_first (triples size) (fun t => let '(i, j, k) := t in body i j k))
  /\
  (forall size t1 t2,
      before (triples size) t1 t2
      <-> In t1 (triples size) /\ In t2 (triples size) /\ lex_lt t1 t2)
  /\
  (forall m i j k k',
      (0 <= i < j /\ j < k <= m - 2 /\ m - 1 <= k' < m + 2)%Z ->
      before (triples (m + 2)) (i, j, k) (i, j, k'))
  /\
  (forall m, (5 <= m)%Z ->
             before (triples (m + 2)) (0, 1, m - 1)%Z (0, 2, 3)%Z)
  /\
  (forall m, translations_first m <-> (m <= 4)%Z).
Proof.
  split.
  { intros t0 t0' rest w.
    rewrite !get_translation_candidates_spec by (simpl; lia). reflexivity. }
  split.
  { intros pure_trans vectors w w' Hm H.
    rewrite get_translation_candidates_spec in H by assumption.
    destruct (next_alloc w); [|discriminate].
    inversion H; subst; clear H.
    destruct pure_trans as [|t0 rest]; [simpl in Hm; lia|].
    unfold vsize. cbn [tl length].
    split; [|split; [|split; [|split]]].
    - intros i Hi.
      rewrite <- (Z2Nat.id i) by lia.
      replace (Z.of_nat (Z.to_nat i) + 1)%Z with (Z.of_nat (S (Z.to_nat i)))
        by lia.
      rewrite (aget_Some _ _ vec3_zero) by (rewrite length_app; lia).
      rewrite (aget_Some _ _ vec3_zero) by (simpl; lia).
      rewrite app_nth1 by lia. reflexivity.
    - replace (Z.of_nat (S (length rest)) - 1)%Z
        with (Z.of_nat (length rest)) by lia.
      rewrite (aget_Some _ _ vec3_zero) by (rewrite length_app; simpl; lia).
      rewrite app_nth2, Nat.sub_diag by lia. reflexivity.
    - rewrite (aget_Some _ _ vec3_zero) by (rewrite length_app; simpl; lia).
      rewrite app_nth2 by lia.
      replace (S (length rest) - length rest)%nat with 1%nat by lia.
      reflexivity.
    - replace (Z.of_nat (S (length rest)) + 1)%Z
        with (Z.of_nat (S (S (length rest)))) by lia.
      rewrite (aget_Some _ _ vec3_zero) by (rewrite length_app; simpl; lia).
      rewrite app_nth2 by lia.
      replace (S (S (length rest)) - length rest)%nat with 2%nat by lia.
      reflexivity.
    - rewrite length_app. simpl. lia. }
  split; [intros B size body; apply for_triples_order|].
  split; [apply before_triples|].
  split.
  { intros m i j k k' H. apply before_triples.
    split; [apply triples_In; lia|]. split; [apply triples_In; lia|].
    simpl. lia. }
  split.
  { intros m Hm. apply before_triples.
    split; [apply triples_In; lia|]. split; [apply triples_In; lia|].
    simpl. lia. }
  apply translations_first_iff.
Qed.

Lemma candidates_positions_and_test_order_witness :
  (5 <= vsize five_translations)%Z /\
  before (triples (vsize five_translations + 2))
         (0, 1, vsize five_translations - 1)%Z (0, 2, 3)%Z /\
  ~ translations_first (vsize five_translations).
Proof.
  assert (Hm : (5 <= vsize five_translations)%Z)
    by (unfold vsize; simpl; lia).
  destruct candidates_positions_and_test_order
    as (_ & _ & _ & _ & _ & Hbefore & Hfirst).
  split; [exact Hm|]. split; [exact (Hbefore _ Hm)|].
  intros H. apply Hfirst in H. unfold vsize in H. simpl in H. lia.
Defined.

(** C10 as stated fails: with five translations the triple [(0, 1, 4)],
    which ends in the unit lattice vector (1,0,0), is tested before
    [(0, 2, 3)], made of translations only.  Both qualify, and the search
    returns the former. *)
Lemma unit_vector_triple_tested_before_translation_triple :
  ~ translations_first (vsize five_translations) /\
  exists vectors,
    get_translation_candidates five_translations world0
    = Some (Some vectors, after_malloc world0) /\
    vsize vectors = 7%Z /\
    only_translations (vsize five_translations) (0, 2, 3)%Z /\
    involves_unit_vector (vsize five_translations) (0, 1, 4)%Z /\
    before (triples 7) (0, 1, 4)%Z (0, 2, 3)%Z /\
    ~ before (triples 7) (0, 2, 3)%Z (0, 1, 4)%Z /\
    triple_qualifies_bool (vsize vectors - 2) cubic_cell (1 # 100000)
                          vectors (0, 2, 3)%Z = true /\
    search_min_vectors vectors cubic_cell (1 # 100000)
    = Some (Some ((0, 2 # 5, 0), (1 # 2, 0, 1 # 2), (1, 0, 0))).
Proof.
  split.
  { intros H. apply translations_first_iff in H. vm_compute in H.
    now apply H. }
  eexists. split; [vm_compute; reflexivity|].
  split; [reflexivity|].
  split; [vm_compute; discriminate|].
  split; [vm_compute; discriminate|].
  split.
  { apply before_triples.
    split; [apply triples_In; lia|]. split; [apply triples_In; lia|].
    simpl. lia. }
  split.
  { intros H. apply before_triples in H. destruct H as (_ & _ & H).
    simpl in H. lia. }
  split; vm_compute; reflexivity.
Qed.

(** ** The cleaning of the accepted triple *)

(** C8, as amended.  When the loops have accepted a triple, the matrix
    whose columns are its vectors is inverted and every entry is rounded to
    the nearest integer; the inverse of that integer matrix replaces the
    raw relation if and only if the magnitude of the integer determinant is
    the number of candidates minus two, which for the candidates of [m]
    translations is [m], the order of the group; otherwise the raw relation
    is used.  In both cases the function returns 1. *)
Theorem cleaning_uses_rounded_inverse (vectors : VecDBL) (input : Cell)
  (symprec : Q) (min_vectors : vec3 * vec3 * vec3) :
  search_min_vectors vectors input symprec = Some (Some min_vectors) ->
  exists (inv_mat_int : imat3) (relative_lattice : mat3),
    relative_lattice = transpose_min_vectors min_vectors /\
    inv_mat_int
    = mat_cast_matrix_3d_to_3i (mat_inverse_matrix_d3 relative_lattice) /\
    (forall a, Qabs (a - inject_Z (mat_Nint a)) <= 1 # 2) /\
    (Z.abs (mat_get_determinant_i3 inv_mat_int) = vsize vectors - 2 ->
     get_primitive_lattice_vectors vectors input symprec
     = Some (Some (mat_multiply_matrix_d3
                     (lattice input)
                     (mat_inverse_matrix_d3
                        (mat_cast_matrix_3i_to_3d inv_mat_int)))))%Z /\
    (Z.abs (mat_get_determinant_i3 inv_mat_int) <> vsize vectors - 2 ->
     get_primitive_lattice_vectors vectors input symprec
     = Some (Some (mat_multiply_matrix_d3 (lattice input)
                                          relative_lattice)))%Z /\
    (forall pure_trans,
        (1 <= length pure_trans)%nat ->
        vectors = tl pure_trans ++ unit_vectors ->
        (vsize vectors - 2 = vsize pure_trans)%Z).
Proof.
  intros H. eexists _, _. split; [reflexivity|]. split; [reflexivity|].
  split; [apply mat_Nint_nearest|].
  unfold get_primitive_lattice_vectors, clean_relative_lattice.
  rewrite H. split; [|split].
  - intros E. apply Z.eqb_eq in E. now rewrite E.
  - intros E. apply Z.eqb_neq in E. now rewrite E.
  - intros pure_trans Hm ->. now apply candidates_size.
Qed.

Lemma cleaning_uses_rounded_inverse_witness :
  search_min_vectors (tl noisy_translations ++ unit_vectors) cubic_cell
                     (1 # 100000)
  = Some (Some ((501 # 1000, 1 # 2, 1 # 2), (1, 0, 0), (0, 1, 0))) /\
  exists (inv_mat_int : imat3) (relative_lattice : mat3),
    relative_lattice
    = transpose_min_vectors ((501 # 1000, 1 # 2, 1 # 2), (1, 0, 0), (0, 1, 0))
    /\
    inv_mat_int
    = mat_cast_matrix_3d_to_3i (mat_inverse_matrix_d3 relative_lattice) /\
    (forall a, Qabs (a - inject_Z (mat_Nint a)) <= 1 # 2) /\
    (Z.abs (mat_get_determinant_i3 inv_mat_int)
     = vsize (tl noisy_translations ++ unit_vectors) - 2 ->
     get_primitive_lattice_vectors (tl noisy_translations ++ unit_vectors)
                                   cubic_cell (1 # 100000)
     = Some (Some (mat_multiply_matrix_d3
                     (lattice cubic_cell)
                     (mat_inverse_matrix_d3
                        (mat_cast_matrix_3i_to_3d inv_mat_int)))))%Z /\
    (Z.abs (mat_get_determinant_i3 inv_mat_int)
     <> vsize (tl noisy_translations ++ unit_vectors) - 2 ->
     get_primitive_lattice_vectors (tl noisy_translations ++ unit_vectors)
                                   cubic_cell (1 # 100000)
     = Some (Some (mat_multiply_matrix_d3 (lattice cubic_cell)
                                          relative_lattice)))%Z /\
    (forall pure_trans,
        (1 <= length pure_trans)%nat ->
        tl noisy_translations ++ unit_vectors = tl pure_trans ++ unit_vectors ->
        (vsize (tl noisy_translations ++ unit_vectors) - 2
         = vsize pure_trans)%Z).
Proof.
  split; [vm_compute; reflexivity|].
  apply (cleaning_uses_rounded_inverse
           (tl noisy_translations ++ unit_vectors) cubic_cell (1 # 100000)).
  vm_compute. reflexivity.
Defined.

(** C8 as stated fails: for a noisy body-centred translation the group has
    order 2, the rounded inverse has determinant magnitude 2, not 0, and
    the code does replace the raw relation by the cleaned one. *)
Lemma cleaning_threshold_is_not_group_order_minus_two :
  exists vectors min_vectors relative_lattice,
    get_translation_candidates noisy_translations world0
    = Some (Some vectors, after_malloc world0) /\
    search_min_vectors vectors cubic_cell (1 # 100000)
    = Some (Some min_vectors) /\
    relative_lattice = transpose_min_vectors min_vectors /\
    Z.abs (mat_get_determinant_i3
             (mat_cast_matrix_3d_to_3i
                (mat_inverse_matrix_d3 relative_lattice))) = 2%Z /\
    (vsize noisy_translations - 2 = 0)%Z /\
    spec_clean_relative_lattice (vsize noisy_translations) relative_lattice
    = relative_lattice /\
    ~ mat3_eq (clean_relative_lattice (vsize vectors) relative_lattice)
              (spec_clean_relative_lattice (vsize noisy_translations)
                                           relative_lattice) /\
    get_primitive_lattice_vectors vectors cubic_cell (1 # 100000)
    = Some (Some (mat_multiply_matrix_d3
                    (lattice cubic_cell)
                    (clean_relative_lattice (vsize vectors)
                                            relative_lattice))).
Proof.
  eexists _, _, _. split; [vm_compute; reflexivity|].
  split; [vm_compute; reflexivity|].
  split; [reflexivity|].
  split; [vm_compute; reflexivity|].
  split; [reflexivity|].
  split; [vm_compute; reflexivity|].
  split; [|vm_compute; reflexivity].
  vm_compute. intros [[H _] _]. discriminate.
Qed.

(** ** The iterative search *)

Lemma reduced_tolerance_succ (tol : Q) (k : nat) :
  reduced_tolerance tol (S k) = reduced_tolerance tol k * REDUCE_RATE.
Proof.
  revert tol. induction k as [|k IH]; intros tol; [reflexivity|].
  change (reduced_tolerance tol (S (S k)))
    with (reduced_tolerance (tol * REDUCE_RATE) (S k)).
  rewrite IH. reflexivity.
Qed.

(** C7, as amended.  Within one call of
    [get_primitive_lattice_vectors_iterative] there are at most 20
    iterations; iteration [k] passes the tolerance
    [symprec * 0.95^k] to the triple search and to the refinement
    collaborator: the tolerance is multiplied by 0.95 at the end of every
    iteration that goes on to the next one. *)
Theorem iterative_search_tolerance_decays (collab : Collaborators)
  (input : Cell) (pure_trans : VecDBL) (symprec angle : Q) (w w' : world)
  (r : option (Z * mat3)) :
  get_primitive_lattice_vectors_iterative input pure_trans symprec angle w
  = Some (r, w') ->
  exists evs nb nr,
    trace w' = trace w ++ evs /\
    (nb <= 20)%nat /\ (nr <= nb)%nat /\
    stage_b_tolerances evs = map (reduced_tolerance symprec) (seq 0 nb) /\
    refinement_tolerances evs = map (reduced_tolerance symprec) (seq 0 nr) /\
    (forall k, reduced_tolerance symprec (S k)
               = reduced_tolerance symprec k * 0.95) /\
    (forall k, reduced_tolerance symprec k
               == symprec * 0.95 ^ Z.of_nat k).
Proof.
  intros H. apply get_primitive_lattice_vectors_iterative_trace in H.
  destruct H as (evs & nb & nr & Ht & Hnb & Hnr & _ & Hsb & Hrf).
  exists evs, nb, nr. repeat split; auto.
  - apply reduced_tolerance_succ.
  - apply reduced_tolerance_power.
Qed.

Lemma iterative_search_tolerance_decays_witness :
  exists r w',
    get_primitive_lattice_vectors_iterative
      (collab := example_collaborators)
      cubic_cell three_translations (1 # 100) (- (1)) world0
    = Some (r, w') /\
    exists evs nb nr,
      trace w' = trace world0 ++ evs /\
      (nb <= 20)%nat /\ (nr <= nb)%nat /\
      stage_b_tolerances evs = map (reduced_tolerance (1 # 100)) (seq 0 nb) /\
      refinement_tolerances evs
      = map (reduced_tolerance (1 # 100)) (seq 0 nr) /\
      (forall k, reduced_tolerance (1 # 100) (S k)
                 = reduced_tolerance (1 # 100) k * 0.95) /\
      (forall k, reduced_tolerance (1 # 100) k
                 == (1 # 100) * 0.95 ^ Z.of_nat k).
Proof.
  eexists _, _. split; [vm_compute; reflexivity|].
  eapply (iterative_search_tolerance_decays
            example_collaborators cubic_cell three_translations
            (1 # 100) (- (1)) world0).
  vm_compute. reflexivity.
Defined.

(** C7 as stated fails: in this run the first iteration passes the
    tolerance 1/100 and the second passes 95/10000, to the triple search
    and to the refinement alike. *)
Lemma iterative_search_tolerance_not_constant :
  exists r w',
    get_primitive_lattice_vectors_iterative
      (collab := example_collaborators)
      cubic_cell three_translations (1 # 100) (- (1)) world0
    = Some (r, w') /\
    nth 0 (stage_b_tolerances (trace w')) 0 = 1 # 100 /\
    nth 1 (stage_b_tolerances (trace w')) 0 = 95 # 10000 /\
    nth 1 (refinement_tolerances (trace w')) 0 = 95 # 10000 /\
    ~ Forall (fun tol => tol == 1 # 100) (stage_b_tolerances (trace w')) /\
    ~ Forall (fun tol => tol == 1 # 100) (refinement_tolerances (trace w')).
Proof.
  eexists _, _. split; [vm_compute; reflexivity|].
  split; [reflexivity|]. split; [reflexivity|]. split; [reflexivity|].
  split; intros H; vm_compute in H;
    inversion H as [|? ? _ Htl]; inversion Htl as [|? ? Hhd _]; discriminate.
Qed.

(** ** The orchestrator *)

(** A run of [get_primitive] either stops at the allocation of the record,
    with no call made, or is a run of the loop with 20 attempts from the
    fresh record at tolerance [symprec]. *)
Lemma get_primitive_run (collab : Collaborators) (input : Cell)
  (symprec angle : Q) (w w' : world) (r : option Primitive) :
  get_primitive input symprec angle w = Some (r, w') ->
  exists evs,
    trace w' = trace w ++ evs /\
    ((prm_alloc_primitive (cell_size input) w = Some (None, w') /\
      r = None /\ evs = []) \/
     (exists w1,
         prm_alloc_primitive (cell_size input) w
         = Some (Some (fresh_primitive (cell_size input)), w1) /\
         loop_outcome input angle (cell_size input) symprec NUM_ATTEMPT
                      evs r)).
Proof.
  unfold get_primitive. intros H. inv_bind H a w1 Ha.
  destruct (prm_alloc_primitive_spec (cell_size input) w)
    as (a' & w1' & E & Htr & Hcase).
  rewrite E in Ha. inversion Ha; subst; clear Ha.
  destruct Hcase as [->| ->].
  - inv_ret H. exists []. rewrite app_nil_r. split; [assumption|].
    left. auto.
  - apply get_primitive_loop_run in H;
      [|unfold fresh_primitive; cbn [mapping_table]; apply repeat_length].
    destruct H as (evs & Ht & Hout). exists evs.
    split; [now rewrite Ht, Htr|].
    right. exists w1. split; [assumption|]. exact Hout.
Qed.

(** C2.  [get_primitive] calls [sym_get_pure_translation] at most 20
    times; the call of attempt [j] has tolerance [symprec * 0.95^j], the
    tolerance being multiplied by 0.95 after every failed attempt; a
    returned record carries the tolerance of the attempt that succeeded,
    which for [symprec > 0] is at most [symprec], and is less than
    [symprec] exactly when an earlier attempt failed. *)
Theorem get_primitive_tolerance_schedule (collab : Collaborators)
  (input : Cell) (symprec angle : Q) (w w' : world) (r : option Primitive) :
  get_primitive input symprec angle w = Some (r, w') ->
  exists evs k,
    trace w' = trace w ++ evs /\
    (k <= 20)%nat /\
    pure_translation_tolerances evs
    = map (reduced_tolerance symprec) (seq 0 k) /\
    (forall j, reduced_tolerance symprec (S j)
               = reduced_tolerance symprec j * 0.95) /\
    (forall j, reduced_tolerance symprec j
               == symprec * 0.95 ^ Z.of_nat j) /\
    forall p, r = Some p ->
      (1 <= k)%nat /\
      tolerance p = reduced_tolerance symprec (k - 1) /\
      (0 < symprec ->
       tolerance p <= symprec /\
       (tolerance p < symprec <-> (1 < k)%nat)).
Proof.
  intros H. apply get_primitive_run in H.
  destruct H as (evs & Ht & [(_ & -> & ->)|(w1 & _ & k & Hk & Htol & Hr)]).
  - exists [], 0%nat. repeat split; auto; try lia;
      try apply reduced_tolerance_succ; try apply reduced_tolerance_power;
      discriminate.
  - exists evs, k. split; [assumption|]. split; [exact Hk|].
    split; [assumption|]. split; [apply reduced_tolerance_succ|].
    split; [apply reduced_tolerance_power|].
    intros p ->. destruct Hr as (Hk1 & Hp & _).
    split; [assumption|]. split; [assumption|].
    intros Hpos. rewrite Hp. split; [now apply reduced_tolerance_le|].
    split.
    + intros Hlt. destruct (Nat.eq_dec k 1) as [->|]; [|lia].
      simpl in Hlt. now apply Qlt_irrefl in Hlt.
    + intros Hk2. apply reduced_tolerance_lt; [assumption|lia].
Qed.

Lemma get_primitive_tolerance_schedule_witness :
  exists p w',
    get_primitive (collab := example_collaborators)
                  two_type_cell (1 # 100) (- (1)) world0
    = Some (Some p, w') /\
    0 < 1 # 100 /\
    pure_translation_tolerances (trace w') = [1 # 100; 95 # 10000] /\
    tolerance p = 95 # 10000 /\
    tolerance p < 1 # 100 /\
    exists evs k,
      trace w' = trace world0 ++ evs /\
      (k <= 20)%nat /\
      pure_translation_tolerances evs
      = map (reduced_tolerance (1 # 100)) (seq 0 k) /\
      (forall j, reduced_tolerance (1 # 100) (S j)
                 = reduced_tolerance (1 # 100) j * 0.95) /\
      (forall j, reduced_tolerance (1 # 100) j
                 == (1 # 100) * 0.95 ^ Z.of_nat j) /\
      forall p0, Some p = Some p0 ->
        (1 <= k)%nat /\
        tolerance p0 = reduced_tolerance (1 # 100) (k - 1) /\
        (0 < 1 # 100 ->
         tolerance p0 <= 1 # 100 /\
         (tolerance p0 < 1 # 100 <-> (1 < k)%nat)).
Proof.
  eexists _, _. split; [vm_compute; reflexivity|].
  split; [reflexivity|]. split; [reflexivity|]. split; [reflexivity|].
  split; [reflexivity|].
  eapply (get_primitive_tolerance_schedule
            example_collaborators two_type_cell (1 # 100) (- (1)) world0).
  vm_compute. reflexivity.
Defined.

(** C3.  The transform of a returned record is the product of the
    primitive lattice by the inverse of the original lattice, and, the
    original lattice being a basis (its determinant is not 0), the
    primitive lattice is the product of the transform by the original
    lattice. *)
Theorem transform_consistency (collab : Collaborators) (input : Cell)
  (symprec angle : Q) (w w' : world) (p : Primitive) :
  prm_get_primitive input symprec angle w = Some (Some p, w') ->
  exists c,
    cell p = Some c /\
    t_mat p = mat_multiply_matrix_d3 (lattice c)
                (mat_inverse_matrix_d3 (lattice input)) /\
    (~ mat_get_determinant_d3 (lattice input) == 0 ->
     mat3_eq (mat_multiply_matrix_d3 (t_mat p) (lattice input)) (lattice c)).
Proof.
  unfold prm_get_primitive. intros H. apply get_primitive_run in H.
  destruct H as (evs & _ & [(_ & Hr & _)|(w1 & _ & k & _ & _ & Hr)]);
    [discriminate|].
  destruct Hr as (_ & _ & _ & _ & _ & _ & c & pure_trans & Hc & Ht & _).
  exists c. split; [assumption|]. split; [assumption|].
  intros Hdet. rewrite Ht. now apply mat_multiply_inverse_cancel.
Qed.

Lemma transform_consistency_witness :
  exists p w',
    prm_get_primitive (collab := example_collaborators)
                      two_type_cell (1 # 100) (- (1)) world0
    = Some (Some p, w') /\
    ~ mat_get_determinant_d3 (lattice two_type_cell) == 0 /\
    exists c,
      cell p = Some c /\
      t_mat p = mat_multiply_matrix_d3 (lattice c)
                  (mat_inverse_matrix_d3 (lattice two_type_cell)) /\
      mat3_eq (mat_multiply_matrix_d3 (t_mat p) (lattice two_type_cell))
              (lattice c).
Proof.
  eexists _, _. split; [vm_compute; reflexivity|].
  assert (Hdet : ~ mat_get_determinant_d3 (lattice two_type_cell) == 0)
    by (vm_compute; discriminate).
  split; [exact Hdet|].
  edestruct (transform_consistency
               example_collaborators two_type_cell (1 # 100) (- (1)) world0)
    as (c & Hc & Ht & Heq); [vm_compute; reflexivity|].
  exists c. split; [exact Hc|]. split; [exact Ht|]. exact (Heq Hdet).
Defined.



(** ** The trivial path *)

Lemma aget_range (n i : Z) : (0 <= i < n)%Z -> aget (range 0 n) i = Some i.
Proof.
  intros H. rewrite range_0.
  rewrite <- (Z2Nat.id i) at 1 by lia.
  rewrite (aget_Some _ _ 0%Z) by (rewrite length_map, length_seq; lia).
  change 0%Z with (Z.of_nat 0) at 1. rewrite map_nth, seq_nth by lia.
  f_equal. lia.
Qed.

(** C5.  When the group found at the tolerance of the returned record has
    the identity as its only member, the record comes from the trivial
    path: its cell is the one returned by
    [get_cell_with_smallest_lattice], it has as many atoms as the input,
    and the mapping table is the identity. *)
Theorem trivial_group_identity_mapping (collab : Collaborators)
  (input : Cell) (symprec angle : Q) (w w' : world) (p : Primitive)
  (pure_trans : VecDBL) :
  prm_get_primitive input symprec angle w = Some (Some p, w') ->
  sym_get_pure_translation input (tolerance p) = Some pure_trans ->
  vsize pure_trans = 1%Z ->
  exists c,
    cell p = Some c /\
    (exists w1 w2,
        get_cell_with_smallest_lattice input (tolerance p) w1
        = Some (Some c, w2)) /\
    cell_size c = cell_size input /\
    mapping_table p = range 0 (cell_size input) /\
    forall i, (0 <= i < cell_size input)%Z ->
              aget (mapping_table p) i = Some i.
Proof.
  unfold prm_get_primitive. intros H Hpt Hone. apply get_primitive_run in H.
  destruct H as (evs & _ & [(_ & Hr & _)|(w1 & _ & k & _ & _ & Hr)]);
    [discriminate|].
  destruct Hr as (_ & _ & _ & _ & _ & _ & c & pt & Hc & _ & Hpt' & Htriv).
  rewrite Hpt in Hpt'. inversion Hpt'; subst pt.
  destruct (Htriv Hone) as (Hrun & Hsize & Hmap).
  exists c. repeat split; auto.
  intros i Hi. rewrite Hmap. now apply aget_range.
Qed.

Lemma trivial_group_identity_mapping_witness :
  exists p w',
    prm_get_primitive (collab := example_collaborators)
                      two_type_cell (1 # 100) (- (1)) world0
    = Some (Some p, w') /\
    sym_get_pure_translation (Collaborators := example_collaborators)
                             two_type_cell (tolerance p)
    = Some [vec3_zero] /\
    vsize [vec3_zero] = 1%Z /\
    exists c,
      cell p = Some c /\
      (exists w1 w2,
          get_cell_with_smallest_lattice (collab := example_collaborators)
                                         two_type_cell (tolerance p) w1
          = Some (Some c, w2)) /\
      cell_size c = cell_size two_type_cell /\
      mapping_table p = range 0 (cell_size two_type_cell) /\
      forall i, (0 <= i < cell_size two_type_cell)%Z ->
                aget (mapping_table p) i = Some i.
Proof.
  eexists _, _. split; [vm_compute; reflexivity|].
  split; [vm_compute; reflexivity|]. split; [reflexivity|].
  eapply (trivial_group_identity_mapping
            example_collaborators two_type_cell (1 # 100) (- (1)) world0).
  - vm_compute. reflexivity.
  - vm_compute. reflexivity.
  - reflexivity.
Defined.

(** C9.  On a well-formed cell, a cell returned by
    [get_cell_with_smallest_lattice] has the atom count and the types of
    the input, in the same order, and as many positions; its lattice is
    the reduced one.  The position of atom [i] is made of the three
    coordinates of the input position of atom [i] in the new basis (the
    product by [inverse(min_lat) * lattice], which leaves the Cartesian
    position as it is when the reduced lattice is not degenerate), each
    folded into [0,1) modulo 1: it is not negative and less than 1, it
    differs from the new-basis coordinate by an integer unless that
    coordinate is within the tolerance of an integer, and it is 0 then; a
    coordinate within the tolerance of 1 is folded to 0. *)
Theorem smallest_lattice_frame (collab : Collaborators) (input c : Cell)
  (symprec : Q) (w w' : world) :
  wf_cell input ->
  get_cell_with_smallest_lattice input symprec w = Some (Some c, w') ->
  cell_size c = cell_size input /\
  types c = types input /\
  length (position c) = length (position input) /\
  exists min_lat t00 t01 t02 t10 t11 t12 t20 t21 t22,
    del_delaunay_reduce (lattice input) symprec = Some min_lat /\
    lattice c = min_lat /\
    mat_multiply_matrix_d3 (mat_inverse_matrix_d3 min_lat) (lattice input)
    = ((t00, t01, t02), (t10, t11, t12), (t20, t21, t22)) /\
    forall (i : nat) (p0 p1 p2 : Q),
      nth_error (position input) i = Some (p0, p1, p2) ->
      exists x0 x1 x2,
        nth_error (position c) i = Some (x0, x1, x2) /\
        x0 = mat_Dmod1 ZERO_PREC (t00 * p0 + t01 * p1 + t02 * p2) /\
        x1 = mat_Dmod1 ZERO_PREC (t10 * p0 + t11 * p1 + t12 * p2) /\
        x2 = mat_Dmod1 ZERO_PREC (t20 * p0 + t21 * p1 + t22 * p2) /\
        folded_modulo_1 ZERO_PREC (t00 * p0 + t01 * p1 + t02 * p2) x0 /\
        folded_modulo_1 ZERO_PREC (t10 * p0 + t11 * p1 + t12 * p2) x1 /\
        folded_modulo_1 ZERO_PREC (t20 * p0 + t21 * p1 + t22 * p2) x2 /\
        (~ mat_get_determinant_d3 min_lat == 0 ->
         vec3_eq
           (mat_multiply_matrix_vector_d3
              min_lat
              (t00 * p0 + t01 * p1 + t02 * p2,
               t10 * p0 + t11 * p1 + t12 * p2,
               t20 * p0 + t21 * p1 + t22 * p2))
           (mat_multiply_matrix_vector_d3 (lattice input) (p0, p1, p2))).
Proof.
  intros Hwf H. rewrite get_cell_with_smallest_lattice_spec in H by assumption.
  destruct (del_delaunay_reduce (lattice input) symprec) as [min_lat|];
    [|discriminate].
  destruct (next_alloc w); [|discriminate].
  inversion H; subst; clear H. cbn [cell_size types position lattice].
  split; [reflexivity|]. split; [reflexivity|].
  split; [apply length_map|].
  destruct (mat_multiply_matrix_d3 (mat_inverse_matrix_d3 min_lat)
                                   (lattice input))
    as [[[[t00 t01] t02] [[t10 t11] t12]] [[t20 t21] t22]] eqn:HT.
  exists min_lat, t00, t01, t02, t10, t11, t12, t20, t21, t22.
  split; [reflexivity|]. split; [reflexivity|]. split; [exact HT|].
  intros i p0 p1 p2 Hp.
  eexists _, _, _. split.
  { rewrite nth_error_map, Hp. cbn [option_map].
    unfold folded_position, mat_multiply_matrix_vector_d3. reflexivity. }
  split; [reflexivity|]. split; [reflexivity|]. split; [reflexivity|].
  split; [apply mat_Dmod1_folded|]. split; [apply mat_Dmod1_folded|].
  split; [apply mat_Dmod1_folded|].
  intros Hdet.
  destruct min_lat as [[[[m00 m01] m02] [[m10 m11] m12]] [[m20 m21] m22]].
  destruct (lattice input)
    as [[[[l00 l01] l02] [[l10 l11] l12]] [[l20 l21] l22]].
  unfold mat_multiply_matrix_d3, mat_inverse_matrix_d3 in HT.
  inversion HT; subst; clear HT.
  unfold mat_get_determinant_d3 in *.
  unfold vec3_eq, mat_multiply_matrix_vector_d3.
  repeat split; field; exact Hdet.
Qed.

Lemma smallest_lattice_frame_witness :
  exists c w',
    wf_cell two_type_cell /\
    get_cell_with_smallest_lattice (collab := example_collaborators)
                                   two_type_cell (1 # 100) world0
    = Some (Some c, w') /\
    types c = [1%Z; 2%Z] /\
    (exists x0 x1 x2,
        nth_error (position c) 1 = Some (x0, x1, x2) /\
        x0 == 0 /\ x1 == 1 # 2 /\ x2 == 3 # 4) /\
    cell_size c = cell_size two_type_cell /\
    types c = types two_type_cell /\
    length (position c) = length (position two_type_cell) /\
    exists min_lat t00 t01 t02 t10 t11 t12 t20 t21 t22,
      del_delaunay_reduce (Collaborators := example_collaborators)
                          (lattice two_type_cell) (1 # 100)
      = Some min_lat /\
      lattice c = min_lat /\
      mat_multiply_matrix_d3 (mat_inverse_matrix_d3 min_lat)
                             (lattice two_type_cell)
      = ((t00, t01, t02), (t10, t11, t12), (t20, t21, t22)) /\
      forall (i : nat) (p0 p1 p2 : Q),
        nth_error (position two_type_cell) i = Some (p0, p1, p2) ->
        exists x0 x1 x2,
          nth_error (position c) i = Some (x0, x1, x2) /\
          x0 = mat_Dmod1 (ZERO_PREC (Collaborators := example_collaborators))
                         (t00 * p0 + t01 * p1 + t02 * p2) /\
          x1 = mat_Dmod1 (ZERO_PREC (Collaborators := example_collaborators))
                         (t10 * p0 + t11 * p1 + t12 * p2) /\
          x2 = mat_Dmod1 (ZERO_PREC (Collaborators := example_collaborators))
                         (t20 * p0 + t21 * p1 + t22 * p2) /\
          folded_modulo_1
            (ZERO_PREC (Collaborators := example_collaborators))
            (t00 * p0 + t01 * p1 + t02 * p2) x0 /\
          folded_modulo_1
            (ZERO_PREC (Collaborators := example_collaborators))
            (t10 * p0 + t11 * p1 + t12 * p2) x1 /\
          folded_modulo_1
            (ZERO_PREC (Collaborators := example_collaborators))
            (t20 * p0 + t21 * p1 + t22 * p2) x2 /\
          (~ mat_get_determinant_d3 min_lat == 0 ->
           vec3_eq
             (mat_multiply_matrix_vector_d3
                min_lat
                (t00 * p0 + t01 * p1 + t02 * p2,
                 t10 * p0 + t11 * p1 + t12 * p2,
                 t20 * p0 + t21 * p1 + t22 * p2))
             (mat_multiply_matrix_vector_d3
                (lattice two_type_cell) (p0, p1, p2))).
Proof.
  eexists _, _.
  assert (Hwf : wf_cell two_type_cell)
    by (unfold wf_cell; simpl; repeat split; lia).
  split; [exact Hwf|]. split; [vm_compute; reflexivity|].
  split; [reflexivity|].
  split; [eexists _, _, _; split; [reflexivity|]; repeat split; reflexivity|].
  eapply (smallest_lattice_frame
            example_collaborators two_type_cell _ (1 # 100) world0).
  - exact Hwf.
  - vm_compute. reflexivity.
Defined.

(** * Further properties of the code *)

(** ** Determinants and rounding *)

Lemma mat_Dabs_Qabs (a : Q) : mat_Dabs a == Qabs a.
Proof.
  unfold mat_Dabs. destruct (Qlt_bool a 0) eqn:E.
  - apply Qlt_bool_iff in E. symmetry. apply Qabs_neg. lra.
  - symmetry. apply Qabs_pos. apply Qnot_lt_le. intros H.
    apply Qlt_bool_iff in H. congruence.
Qed.

Lemma mat_Dabs_comp (a b : Q) : a == b -> mat_Dabs a == mat_Dabs b.
Proof.
  intros H. rewrite !mat_Dabs_Qabs. now apply Qabs_wd.
Qed.

Lemma mat_Dabs_mult (a b : Q) : mat_Dabs (a * b) == mat_Dabs a * mat_Dabs b.
Proof.
  rewrite !mat_Dabs_Qabs. apply Qabs_Qmult.
Qed.

Lemma mat_Dabs_nonneg (a : Q) : 0 <= mat_Dabs a.
Proof.
  rewrite mat_Dabs_Qabs. apply Qabs_nonneg.
Qed.

Lemma mat_Dabs_zero (a : Q) : mat_Dabs a == 0 -> a == 0.
Proof.
  unfold mat_Dabs. destruct (Qlt_bool a 0); lra.
Qed.

Lemma Qlt_bool_comp (a a' b b' : Q) :
  a == a' -> b == b' -> Qlt_bool a b = Qlt_bool a' b'.
Proof.
  intros Ha Hb. unfold Qlt_bool. now rewrite Ha, Hb.
Qed.

Lemma mat_Nint_comp (a b : Q) : a == b -> mat_Nint a = mat_Nint b.
Proof.
  intros H. unfold mat_Nint.
  rewrite (Qlt_bool_comp a b 0 0 H (Qeq_refl 0)).
  destruct (Qlt_bool b 0).
  - apply Qceiling_comp. now rewrite H.
  - apply Qfloor_comp. now rewrite H.
Qed.

Lemma mat_Nint_inject_Z (n : Z) : mat_Nint (inject_Z n) = n.
Proof.
  pose proof (mat_Nint_nearest (inject_Z n)) as H.
  apply Qabs_Qle_condition in H. destruct H as [H1 H2].
  set (m := mat_Nint (inject_Z n)) in *.
  assert (Hlo : (n - 1 < m)%Z).
  { rewrite Zlt_Qlt. unfold Z.sub. rewrite inject_Z_plus, inject_Z_opp.
    change (inject_Z 1) with 1. lra. }
  assert (Hhi : (m < n + 1)%Z).
  { rewrite Zlt_Qlt. rewrite inject_Z_plus. change (inject_Z 1) with 1. lra. }
  lia.
Qed.

(** The determinant of a product, of the transposed triple, of the three
    vectors taken to Cartesian space, and of an inverse. *)
Lemma det_multiply (a b : mat3) :
  mat_get_determinant_d3 (mat_multiply_matrix_d3 a b)
  == mat_get_determinant_d3 a * mat_get_determinant_d3 b.
Proof.
  destruct a as [[[[a00 a01] a02] [[a10 a11] a12]] [[a20 a21] a22]].
  destruct b as [[[[b00 b01] b02] [[b10 b11] b12]] [[b20 b21] b22]].
  unfold mat_multiply_matrix_d3, mat_get_determinant_d3. ring.
Qed.

Lemma det_transpose (mv : vec3 * vec3 * vec3) :
  mat_get_determinant_d3 (transpose_min_vectors mv)
  == mat_get_determinant_d3 mv.
Proof.
  destruct mv as [[[[a00 a01] a02] [[a10 a11] a12]] [[a20 a21] a22]].
  unfold transpose_min_vectors, mat_get_determinant_d3. ring.
Qed.

Lemma det_cartesian (l : mat3) (vi vj vk : vec3) :
  mat_get_determinant_d3
    (mat_multiply_matrix_vector_d3 l vi,
     mat_multiply_matrix_vector_d3 l vj,
     mat_multiply_matrix_vector_d3 l vk)
  == mat_get_determinant_d3 l * mat_get_determinant_d3 (vi, vj, vk).
Proof.
  destruct l as [[[[l00 l01] l02] [[l10 l11] l12]] [[l20 l21] l22]].
  destruct vi as [[a0 a1] a2], vj as [[b0 b1] b2], vk as [[c0 c1] c2].
  unfold mat_multiply_matrix_vector_d3, mat_get_determinant_d3. ring.
Qed.

Lemma det_inverse (a : mat3) :
  ~ mat_get_determinant_d3 a == 0 ->
  mat_get_determinant_d3 (mat_inverse_matrix_d3 a)
  == / mat_get_determinant_d3 a.
Proof.
  destruct a as [[[[a00 a01] a02] [[a10 a11] a12]] [[a20 a21] a22]].
  unfold mat_inverse_matrix_d3, mat_get_determinant_d3. intros H.
  field. exact H.
Qed.

Lemma det_cast (a : imat3) :
  mat_get_determinant_d3 (mat_cast_matrix_3i_to_3d a)
  = inject_Z (mat_get_determinant_i3 a).
Proof.
  destruct a as [[[[a00 a01] a02] [[a10 a11] a12]] [[a20 a21] a22]].
  unfold mat_cast_matrix_3i_to_3d, mat_get_determinant_d3,
    mat_get_determinant_i3, Z.sub.
  now rewrite !inject_Z_plus, !inject_Z_mult, !inject_Z_plus, !inject_Z_opp,
    !inject_Z_mult.
Qed.

(** ** The triple search, further *)

Lemma triple_volume_factor (input : Cell) (vi vj vk : vec3) :
  triple_volume input vi vj vk
  == mat_Dabs (mat_get_determinant_d3 (lattice input))
     * mat_Dabs (mat_get_determinant_d3 (vi, vj, vk)).
Proof.
  unfold triple_volume. cbv zeta.
  rewrite <- mat_Dabs_mult. apply mat_Dabs_comp, det_cartesian.
Qed.

Lemma first_qualifying_triple_inv (expected : Z) (vectors : VecDBL)
  (input : Cell) (symprec : Q) (mv : vec3 * vec3 * vec3) :
  first_qualifying_triple expected vectors input symprec = Some mv ->
  exists t,
    In t (triples (vsize vectors)) /\
    mv = vectors_of vectors t /\
    triple_qualifies expected input symprec vectors t /\
    forall t', In t' (triples (vsize vectors)) -> lex_lt t' t ->
               triple_qualifies_bool expected input symprec vectors t'
               = false.
Proof.
  unfold first_qualifying_triple. intros H.
  destruct (find _ (triples (vsize vectors))) as [t|] eqn:E; [|discriminate].
  inversion H; subst; clear H.
  apply (find_sorted_least lex_lt) in E;
    [|apply lex_lt_irrefl|apply lex_lt_asym|apply triples_sorted].
  destruct E as (Hin & Hq & Hleast).
  exists t. split; [assumption|]. split; [reflexivity|].
  split; [now apply triple_qualifies_bool_iff|assumption].
Qed.

Lemma triples_nonempty_size (size : Z) (t : Z * Z * Z) :
  In t (triples size) -> (3 <= size)%Z.
Proof.
  destruct t as [[i j] k]. intros H. apply triples_In in H. lia.
Qed.

Lemma Qabs_inject_Z (n : Z) : Qabs (inject_Z n) == inject_Z (Z.abs n).
Proof.
  unfold inject_Z. symmetry. apply Zabs_Qabs.
Qed.

Lemma inject_Z_nonzero (n : Z) : n <> 0%Z -> ~ inject_Z n == 0.
Proof.
  intros H E. unfold Qeq in E. simpl in E. lia.
Qed.

Lemma Qpos_of_nonneg_nonzero (a : Q) : 0 <= a -> ~ a == 0 -> 0 < a.
Proof.
  intros H1 H2. destruct (Qlt_le_dec 0 a) as [H|H]; [assumption|].
  exfalso. apply H2. lra.
Qed.

(** What an accepted triple tells about the volumes, for a tolerance that
    is not negative: the original lattice and the triple are not
    degenerate, and the lattice built from the triple has the volume of the
    original cell divided by the expected multiplicity, up to the rounding
    of the test and exactly when the integer cleaning applies. *)
Lemma accepted_triple_volumes (vectors : VecDBL) (input : Cell)
  (symprec : Q) (mv : vec3 * vec3 * vec3) :
  0 <= symprec ->
  first_qualifying_triple (vsize vectors - 2) vectors input symprec
  = Some mv ->
  (3 <= vsize vectors)%Z /\
  ~ mat_get_determinant_d3 (lattice input) == 0 /\
  ~ mat_get_determinant_d3 (transpose_min_vectors mv) == 0 /\
  0 < mat_Dabs (mat_get_determinant_d3
                  (mat_multiply_matrix_d3
                     (lattice input)
                     (clean_relative_lattice
                        (vsize vectors) (transpose_min_vectors mv)))) /\
  mat_Nint (mat_Dabs (mat_get_determinant_d3 (lattice input))
            / mat_Dabs (mat_get_determinant_d3
                          (mat_multiply_matrix_d3
                             (lattice input)
                             (clean_relative_lattice
                                (vsize vectors)
                                (transpose_min_vectors mv)))))
  = (vsize vectors - 2)%Z /\
  ((Z.abs (mat_get_determinant_i3
             (mat_cast_matrix_3d_to_3i
                (mat_inverse_matrix_d3 (transpose_min_vectors mv))))
    = vsize vectors - 2)%Z ->
   mat_Dabs (mat_get_determinant_d3
               (mat_multiply_matrix_d3
                  (lattice input)
                  (clean_relative_lattice
                     (vsize vectors) (transpose_min_vectors mv))))
   * inject_Z (vsize vectors - 2)
   == mat_Dabs (mat_get_determinant_d3 (lattice input))).
Proof.
  intros Htol H. apply first_qualifying_triple_inv in H.
  destruct H as (t & Hin & -> & Hq & _).
  pose proof (triples_nonempty_size _ _ Hin) as Hsize.
  unfold triple_qualifies in Hq.
  destruct (vectors_of vectors t) as [[vi vj] vk] eqn:Evec.
  cbv zeta in Hq. destruct Hq as [HV HN].
  set (V0 := mat_Dabs (mat_get_determinant_d3 (lattice input))) in *.
  set (D := mat_Dabs (mat_get_determinant_d3 (vi, vj, vk))).
  assert (HVf : triple_volume input vi vj vk == V0 * D)
    by apply triple_volume_factor.
  assert (HVpos : 0 < V0 * D) by (rewrite <- HVf; lra).
  assert (HV0nz : ~ V0 == 0).
  { intros E. rewrite E in HVpos. lra. }
  assert (HDnz : ~ D == 0).
  { intros E. rewrite E in HVpos. lra. }
  assert (HV0pos : 0 < V0)
    by (apply Qpos_of_nonneg_nonzero; [apply mat_Dabs_nonneg|assumption]).
  assert (Hdet0 : ~ mat_get_determinant_d3 (lattice input) == 0).
  { intros E. apply HV0nz. unfold V0. rewrite (mat_Dabs_comp _ 0 E).
    reflexivity. }
  assert (Hdetv : ~ mat_get_determinant_d3
                      (transpose_min_vectors (vi, vj, vk)) == 0).
  { intros E. apply HDnz. unfold D. rewrite det_transpose in E.
    rewrite (mat_Dabs_comp _ 0 E). reflexivity. }
  split; [assumption|]. split; [assumption|]. split; [assumption|].
  unfold clean_relative_lattice. cbv zeta.
  set (di := mat_get_determinant_i3
               (mat_cast_matrix_3d_to_3i
                  (mat_inverse_matrix_d3
                     (transpose_min_vectors (vi, vj, vk))))).
  destruct (Z.eqb_spec (Z.abs di) (vsize vectors - 2)) as [Hclean|Hraw].
  - assert (Hdi : ~ inject_Z di == 0) by (apply inject_Z_nonzero; lia).
    assert (He : ~ inject_Z (vsize vectors - 2) == 0)
      by (apply inject_Z_nonzero; lia).
    assert (HP : mat_Dabs
                   (mat_get_determinant_d3
                      (mat_multiply_matrix_d3
                         (lattice input)
                         (mat_inverse_matrix_d3
                            (mat_cast_matrix_3i_to_3d
                               (mat_cast_matrix_3d_to_3i
                                  (mat_inverse_matrix_d3
                                     (transpose_min_vectors
                                        (vi, vj, vk))))))))
                 == V0 / inject_Z (vsize vectors - 2)).
    { rewrite (mat_Dabs_comp _ _ (det_multiply _ _)), mat_Dabs_mult.
      fold V0.
      rewrite (mat_Dabs_comp _ _ (det_inverse _
                 ltac:(rewrite det_cast; exact Hdi))).
      rewrite det_cast. fold di.
      rewrite mat_Dabs_Qabs, Qabs_Qinv, Qabs_inject_Z, Hclean.
      reflexivity. }
    split; [|split].
    + rewrite HP. apply Qlt_shift_div_l.
      * apply Qpos_of_nonneg_nonzero; [|assumption].
        change 0 with (inject_Z 0). rewrite <- Zle_Qle. lia.
      * lra.
    + rewrite (mat_Nint_comp _ (inject_Z (vsize vectors - 2))).
      * apply mat_Nint_inject_Z.
      * rewrite HP. field. split; assumption.
    + intros _. rewrite HP. field. assumption.
  - assert (HP : mat_Dabs
                   (mat_get_determinant_d3
                      (mat_multiply_matrix_d3
                         (lattice input)
                         (transpose_min_vectors (vi, vj, vk))))
                 == triple_volume input vi vj vk).
    { rewrite (mat_Dabs_comp _ _ (det_multiply _ _)), mat_Dabs_mult.
      fold V0. rewrite (mat_Dabs_comp _ _ (det_transpose _)). fold D.
      now rewrite HVf. }
    split; [|split].
    + rewrite HP. lra.
    + rewrite <- HN. apply mat_Nint_comp. now rewrite HP.
    + intros E. contradiction.
Qed.

Lemma lex_lt_total (s t : Z * Z * Z) : s = t \/ lex_lt s t \/ lex_lt t s.
Proof.
  destruct s as [[i j] k], t as [[i' j'] k']. simpl.
  destruct (Z.lt_total i i') as [H|[H|H]]; try lia.
  destruct (Z.lt_total j j') as [H1|[H1|H1]]; try lia.
  destruct (Z.lt_total k k') as [H2|[H2|H2]]; try lia.
  left. congruence.
Qed.

(** X3.  With fewer than three vectors the loops have no triple to test:
    the search returns 0, whatever the cell and the tolerance. *)
Theorem triple_search_needs_three_vectors (vectors : VecDBL) (input : Cell)
  (symprec : Q) :
  (vsize vectors < 3)%Z ->
  search_min_vectors vectors input symprec = Some None /\
  get_primitive_lattice_vectors vectors input symprec = Some None.
Proof.
  intros Hsize.
  assert (H : first_qualifying_triple (vsize vectors - 2) vectors input
                                      symprec = None).
  { destruct (first_qualifying_triple _ _ _ _) as [mv|] eqn:E;
      [|reflexivity].
    apply first_qualifying_triple_inv in E. destruct E as (t & Hin & _).
    apply triples_nonempty_size in Hin. lia. }
  rewrite search_min_vectors_spec, get_primitive_lattice_vectors_spec, H.
  split; reflexivity.
Qed.

Lemma triple_search_needs_three_vectors_witness :
  Z.lt (vsize [(1 # 2, 0, 0); (0, 1 # 2, 0)]) 3 /\
  search_min_vectors [(1 # 2, 0, 0); (0, 1 # 2, 0)] cubic_cell (1 # 100000)
  = Some None /\
  get_primitive_lattice_vectors [(1 # 2, 0, 0); (0, 1 # 2, 0)] cubic_cell
                                (1 # 100000)
  = Some None.
Proof.
  split; [unfold vsize; simpl; lia|].
  apply (triple_search_needs_three_vectors
           [(1 # 2, 0, 0); (0, 1 # 2, 0)] cubic_cell (1 # 100000)).
  unfold vsize. simpl. lia.
Defined.

(** X4.  Lowering the tolerance never loses a solution of the triple
    search: if the search accepts a triple at one tolerance, it accepts, at
    any lower tolerance, that triple or one that comes before it in the
    order of the loops. *)
Theorem triple_search_monotone (vectors : VecDBL) (input : Cell)
  (symprec symprec' : Q) (mv : vec3 * vec3 * vec3) :
  symprec' <= symprec ->
  search_min_vectors vectors input symprec = Some (Some mv) ->
  exists s s' mv',
    In s (triples (vsize vectors)) /\ In s' (triples (vsize vectors)) /\
    mv = vectors_of vectors s /\ mv' = vectors_of vectors s' /\
    (s' = s \/ lex_lt s' s) /\
    search_min_vectors vectors input symprec' = Some (Some mv') /\
    exists prim_lattice,
      get_primitive_lattice_vectors vectors input symprec'
      = Some (Some prim_lattice).
Proof.
  intros Hle H. rewrite search_min_vectors_spec in H.
  inversion H as [H1]; clear H.
  apply first_qualifying_triple_inv in H1.
  destruct H1 as (s & Hs & -> & Hq & _).
  assert (Hq' : triple_qualifies_bool (vsize vectors - 2) input symprec'
                                      vectors s = true).
  { apply triple_qualifies_bool_iff. unfold triple_qualifies in *.
    destruct (vectors_of vectors s) as [[vi vj] vk]. cbv zeta in *.
    destruct Hq as [HV HN]. split; [lra|assumption]. }
  destruct (first_qualifying_triple (vsize vectors - 2) vectors input
                                    symprec') as [mv'|] eqn:E.
  - pose proof E as E'. apply first_qualifying_triple_inv in E'.
    destruct E' as (s' & Hs' & -> & _ & Hleast).
    exists s, s', (vectors_of vectors s').
    split; [assumption|]. split; [assumption|].
    split; [reflexivity|]. split; [reflexivity|].
    split.
    + destruct (lex_lt_total s' s) as [Heq|[Hlt|Hgt]]; auto.
      rewrite (Hleast s Hs Hgt) in Hq'. discriminate.
    + rewrite search_min_vectors_spec, get_primitive_lattice_vectors_spec, E.
      split; [reflexivity|]. now eexists.
  - unfold first_qualifying_triple in E.
    destruct (find _ (triples (vsize vectors))) eqn:F; [discriminate|].
    rewrite (find_none _ _ F s Hs) in Hq'. discriminate.
Qed.

Lemma triple_search_monotone_witness :
  (1 # 100000) <= 1 # 10 /\
  search_min_vectors (tl five_translations ++ unit_vectors) cubic_cell
                     (1 # 10)
  = Some (Some ((0, 2 # 5, 0), (1 # 2, 0, 1 # 2), (1, 0, 0))) /\
  exists s s' mv',
    In s (triples (vsize (tl five_translations ++ unit_vectors))) /\
    In s' (triples (vsize (tl five_translations ++ unit_vectors))) /\
    ((0, 2 # 5, 0), (1 # 2, 0, 1 # 2), (1, 0, 0))
    = vectors_of (tl five_translations ++ unit_vectors) s /\
    mv' = vectors_of (tl five_translations ++ unit_vectors) s' /\
    (s' = s \/ lex_lt s' s) /\
    search_min_vectors (tl five_translations ++ unit_vectors) cubic_cell
                       (1 # 100000)
    = Some (Some mv') /\
    exists prim_lattice,
      get_primitive_lattice_vectors (tl five_translations ++ unit_vectors)
                                    cubic_cell (1 # 100000)
      = Some (Some prim_lattice).
Proof.
  assert (Hle : (1 # 100000) <= 1 # 10) by (unfold Qle; simpl; lia).
  split; [exact Hle|].
  assert (Hrun : search_min_vectors (tl five_translations ++ unit_vectors)
                                    cubic_cell (1 # 10)
                 = Some (Some ((0, 2 # 5, 0), (1 # 2, 0, 1 # 2), (1, 0, 0))))
    by (vm_compute; reflexivity).
  split; [exact Hrun|].
  exact (triple_search_monotone
           (tl five_translations ++ unit_vectors) cubic_cell
           (1 # 10) (1 # 100000) _ Hle Hrun).
Defined.

(** X5.  For a tolerance that is not negative, a triple that the search
    accepts is made of three linearly independent vectors, taken from a
    list of at least three, and the original lattice is not degenerate
    (it has a determinant other than 0). *)
Theorem accepted_triple_independent (vectors : VecDBL) (input : Cell)
  (symprec : Q) (mv : vec3 * vec3 * vec3) :
  0 <= symprec ->
  search_min_vectors vectors input symprec = Some (Some mv) ->
  (3 <= vsize vectors)%Z /\
  ~ mat_get_determinant_d3 (lattice input) == 0 /\
  ~ mat_get_determinant_d3 mv == 0 /\
  ~ mat_get_determinant_d3 (transpose_min_vectors mv) == 0.
Proof.
  intros Htol H. rewrite search_min_vectors_spec in H.
  inversion H as [H1]; clear H.
  destruct (accepted_triple_volumes vectors input symprec mv Htol H1)
    as (Hsize & HL & Hv & _).
  split; [assumption|]. split; [assumption|]. split; [|assumption].
  intros E. apply Hv. now rewrite det_transpose.
Qed.

Lemma accepted_triple_independent_witness :
  0 <= 1 # 100000 /\
  search_min_vectors (tl bcc_translations ++ unit_vectors) cubic_cell
                     (1 # 100000)
  = Some (Some ((1 # 2, 1 # 2, 1 # 2), (1, 0, 0), (0, 1, 0))) /\
  (3 <= vsize (tl bcc_translations ++ unit_vectors))%Z /\
  ~ mat_get_determinant_d3 (lattice cubic_cell) == 0 /\
  ~ mat_get_determinant_d3 ((1 # 2, 1 # 2, 1 # 2), (1, 0, 0), (0, 1, 0))
    == 0 /\
  ~ mat_get_determinant_d3
      (transpose_min_vectors
         ((1 # 2, 1 # 2, 1 # 2), (1, 0, 0), (0, 1, 0))) == 0.
Proof.
  assert (Htol : 0 <= 1 # 100000) by (unfold Qle; simpl; lia).
  assert (Hrun : search_min_vectors (tl bcc_translations ++ unit_vectors)
                                    cubic_cell (1 # 100000)
                 = Some (Some ((1 # 2, 1 # 2, 1 # 2), (1, 0, 0), (0, 1, 0))))
    by (vm_compute; reflexivity).
  split; [exact Htol|]. split; [exact Hrun|].
  exact (accepted_triple_independent
           (tl bcc_translations ++ unit_vectors) cubic_cell (1 # 100000)
           _ Htol Hrun).
Defined.

(** X6.  For a tolerance that is not negative, the lattice that
    [get_primitive_lattice_vectors] returns is not degenerate, and the
    volume of the original cell divided by its volume rounds to the number
    of candidates minus two (the order of the group, for the candidates of
    a translation list); when the integer cleaning applies the ratio is
    exact. *)
Theorem primitive_lattice_volume_ratio (vectors : VecDBL) (input : Cell)
  (symprec : Q) (prim_lattice : mat3) :
  0 <= symprec ->
  get_primitive_lattice_vectors vectors input symprec
  = Some (Some prim_lattice) ->
  0 < mat_Dabs (mat_get_determinant_d3 prim_lattice) /\
  mat_Nint (mat_Dabs (mat_get_determinant_d3 (lattice input))
            / mat_Dabs (mat_get_determinant_d3 prim_lattice))
  = (vsize vectors - 2)%Z /\
  (forall pure_trans,
      (1 <= length pure_trans)%nat ->
      vectors = tl pure_trans ++ unit_vectors ->
      mat_Nint (mat_Dabs (mat_get_determinant_d3 (lattice input))
                / mat_Dabs (mat_get_determinant_d3 prim_lattice))
      = vsize pure_trans) /\
  exists mv,
    search_min_vectors vectors input symprec = Some (Some mv) /\
    ((Z.abs (mat_get_determinant_i3
               (mat_cast_matrix_3d_to_3i
                  (mat_inverse_matrix_d3 (transpose_min_vectors mv))))
      = vsize vectors - 2)%Z ->
     mat_Dabs (mat_get_determinant_d3 prim_lattice)
     * inject_Z (vsize vectors - 2)
     == mat_Dabs (mat_get_determinant_d3 (lattice input))).
Proof.
  intros Htol H. rewrite get_primitive_lattice_vectors_spec in H.
  destruct (first_qualifying_triple (vsize vectors - 2) vectors input
                                    symprec) as [mv|] eqn:E;
    [|discriminate].
  cbn [option_map] in H. inversion H; subst prim_lattice; clear H.
  destruct (accepted_triple_volumes vectors input symprec mv Htol E)
    as (_ & _ & _ & Hpos & Hratio & Hexact).
  split; [assumption|]. split; [assumption|]. split.
  - intros pure_trans Hm ->. rewrite Hratio. now apply candidates_size.
  - exists mv. split; [|assumption].
    now rewrite search_min_vectors_spec, E.
Qed.

Lemma primitive_lattice_volume_ratio_witness :
  exists prim_lattice,
    0 <= 1 # 100000 /\
    get_primitive_lattice_vectors (tl noisy_translations ++ unit_vectors)
                                  cubic_cell (1 # 100000)
    = Some (Some prim_lattice) /\
    0 < mat_Dabs (mat_get_determinant_d3 prim_lattice) /\
    mat_Nint (mat_Dabs (mat_get_determinant_d3 (lattice cubic_cell))
              / mat_Dabs (mat_get_determinant_d3 prim_lattice))
    = vsize noisy_translations.
Proof.
  eexists.
  assert (Htol : 0 <= 1 # 100000) by (unfold Qle; simpl; lia).
  split; [exact Htol|]. split; [vm_compute; reflexivity|].
  edestruct (primitive_lattice_volume_ratio
               (tl noisy_translations ++ unit_vectors) cubic_cell
               (1 # 100000))
    as (Hpos & _ & Hm & _); [exact Htol|vm_compute; reflexivity|].
  split; [exact Hpos|].
  apply Hm; [simpl; lia|reflexivity].
Defined.

(** ** Allocation of the record and of the candidates *)

(** X1.  [prm_alloc_primitive] requests the record, the transform and,
    only when [size > 0], the mapping table, in that order, and calls no
    collaborator.  When these requests are all granted it returns a record
    with no cell, [size] mapping entries all equal to -1, tolerance 0,
    angle tolerance -1 and a zero transform; when one of them is refused it
    returns [NULL]. *)
Theorem prm_alloc_primitive_outcome (size : Z) (w : world) :
  exists r w',
    prm_alloc_primitive size w = Some (r, w') /\
    trace w' = trace w /\
    (forallb (fun ok => ok)
             (firstn (if (0 <? size)%Z then 3 else 2) (allocs w)) = true ->
     r = Some (mkPrimitive None (repeat (-1)%Z (Z.to_nat size)) size
                           0 (- (1)) mat3_zero) /\
     allocs w' = skipn (if (0 <? size)%Z then 3 else 2) (allocs w)) /\
    (forallb (fun ok => ok)
             (firstn (if (0 <? size)%Z then 3 else 2) (allocs w)) = false ->
     r = None).
Proof.
  destruct w as [al tr].
  unfold prm_alloc_primitive, bind, malloc. cbn [allocs trace].
  destruct (0 <? size)%Z;
    destruct al as [|[|] [|[|] [|[|] l]]];
    cbn [hd tl negb firstn forallb andb skipn allocs trace];
    unfold ret at 1; cbn [negb];
    rewrite ?mapping_init_loop; unfold lift, ret;
    eexists _, _;
    (split; [reflexivity|]); (split; [reflexivity|]);
    split; intros H; try discriminate; try (split; reflexivity);
    reflexivity.
Qed.

Lemma prm_alloc_primitive_outcome_witness :
  exists w',
    prm_alloc_primitive 2 (mkWorld [true; true; true; false] [])
    = Some (Some (mkPrimitive None [(-1)%Z; (-1)%Z] 2 0 (- (1)) mat3_zero),
            w') /\
    allocs w' = [false].
Proof.
  destruct (prm_alloc_primitive_outcome
              2 (mkWorld [true; true; true; false] []))
    as (r & w' & Hrun & _ & Hok & _).
  destruct (Hok eq_refl) as [Hr Hal].
  exists w'. split; [now rewrite Hrun, Hr|exact Hal].
Defined.

Lemma get_translation_candidates_nil (w : world) :
  get_translation_candidates [] w
  = if next_alloc w then None else Some (None, after_malloc w).
Proof.
  unfold get_translation_candidates, bind.
  rewrite mat_alloc_VecDBL_spec. now destruct (next_alloc w).
Qed.

Lemma get_translation_candidates_inv (pure_trans vectors : VecDBL)
  (w w' : world) :
  get_translation_candidates pure_trans w = Some (Some vectors, w') ->
  (1 <= length pure_trans)%nat /\ next_alloc w = true /\
  vectors = tl pure_trans ++ unit_vectors /\ w' = after_malloc w.
Proof.
  destruct pure_trans as [|t0 rest].
  - rewrite get_translation_candidates_nil.
    destruct (next_alloc w); discriminate.
  - rewrite get_translation_candidates_spec by (simpl; lia).
    destruct (next_alloc w); [|discriminate].
    intros H. inversion H. repeat split. simpl. lia.
Qed.

(** X2.  [get_translation_candidates] leaves its arrays in one case only:
    with an empty translation list and memory for the candidates, the
    second loop writes at index -1.  When the memory is refused it returns
    [NULL], whatever the list. *)
Theorem get_translation_candidates_bounds (pure_trans : VecDBL) (w : world) :
  (get_translation_candidates pure_trans w = None
   <-> pure_trans = [] /\ next_alloc w = true) /\
  (next_alloc w = false ->
   get_translation_candidates pure_trans w = Some (None, after_malloc w)) /\
  (forall vectors w',
      get_translation_candidates pure_trans w = Some (Some vectors, w') ->
      (1 <= length pure_trans)%nat /\ next_alloc w = true /\
      vectors = tl pure_trans ++ unit_vectors).
Proof.
  destruct pure_trans as [|t0 rest].
  - rewrite get_translation_candidates_nil.
    destruct (next_alloc w); split; [| split | | split].
    + split; auto.
    + discriminate.
    + intros vectors w' H. discriminate.
    + split; [discriminate|]. intros [_ H]. discriminate.
    + reflexivity.
    + intros vectors w' H. discriminate.
  - rewrite get_translation_candidates_spec by (simpl; lia).
    destruct (next_alloc w); split; [| split | | split].
    + split; [discriminate|]. intros [H _]. discriminate.
    + discriminate.
    + intros vectors w' H. inversion H. repeat split. simpl. lia.
    + split; [discriminate|]. intros [H _]. discriminate.
    + reflexivity.
    + intros vectors w' H. discriminate.
Qed.

Lemma get_translation_candidates_bounds_witness :
  get_translation_candidates [] world0 = None /\
  get_translation_candidates bcc_translations (mkWorld [false] [])
  = Some (None, world0).
Proof.
  split.
  - apply (get_translation_candidates_bounds [] world0).
    split; reflexivity.
  - apply (get_translation_candidates_bounds
             bcc_translations (mkWorld [false] [])).
    reflexivity.
Defined.

(** ** The iterative search, further *)

Lemma reduced_tolerance_nonneg (tol : Q) (k : nat) :
  0 <= tol -> 0 <= reduced_tolerance tol k.
Proof.
  revert tol. induction k as [|k IH]; intros tol H; [exact H|].
  cbn [reduced_tolerance]. apply IH. unfold REDUCE_RATE. lra.
Qed.

Lemma flat_map_seq_shift {B : Type} (f : nat -> list B) (k a : nat) :
  flat_map f (seq (S a) k) = flat_map (fun j => f (S j)) (seq a k).
Proof.
  revert a. induction k as [|k IH]; intros a; [reflexivity|].
  cbn [seq flat_map]. now rewrite IH.
Qed.

Lemma search_rounds_succ (tol : Q) (k : nat) :
  search_rounds tol (S k)
  = Call_get_primitive_lattice_vectors tol
    :: Call_sym_reduce_pure_translation tol
    :: search_rounds (tol * REDUCE_RATE) k.
Proof.
  unfold search_rounds. cbn [seq flat_map app reduced_tolerance].
  now rewrite flat_map_seq_shift.
Qed.

(** The result of the volume test carried to the lattice returned. *)
Lemma stage_b_result_volume (vectors : VecDBL) (input : Cell) (tol : Q)
  (prim_lattice : mat3) :
  0 <= tol ->
  get_primitive_lattice_vectors vectors input tol
  = Some (Some prim_lattice) ->
  (3 <= vsize vectors)%Z /\
  ~ mat_get_determinant_d3 (lattice input) == 0 /\
  0 < mat_Dabs (mat_get_determinant_d3 prim_lattice) /\
  mat_Nint (mat_Dabs (mat_get_determinant_d3 (lattice input))
            / mat_Dabs (mat_get_determinant_d3 prim_lattice))
  = (vsize vectors - 2)%Z.
Proof.
  intros Htol H. rewrite get_primitive_lattice_vectors_spec in H.
  destruct (first_qualifying_triple (vsize vectors - 2) vectors input tol)
    as [mv|] eqn:E; [|discriminate].
  cbn [option_map] in H. inversion H; subst prim_lattice; clear H.
  destruct (accepted_triple_volumes vectors input tol mv Htol E)
    as (Hsize & HL & _ & Hpos & Hratio & _).
  auto.
Qed.

Lemma nth_0_hd (l : list bool) : nth 0 l true = hd true l.
Proof.
  now destruct l.
Qed.

Lemma nth_S_tl (l : list bool) (i : nat) : nth (S i) l true = nth i (tl l) true.
Proof.
  destruct l as [|a l]; [now destruct i|reflexivity].
Qed.

(** [get_translation_candidates] returns [NULL] only when its memory is
    refused, and then the world is that after one allocation. *)
Lemma get_translation_candidates_null (pure_trans : VecDBL) (w w' : world) :
  get_translation_candidates pure_trans w = Some (None, w') ->
  next_alloc w = false /\ w' = after_malloc w.
Proof.
  destruct pure_trans as [|t0 rest].
  - rewrite get_translation_candidates_nil.
    destruct (next_alloc w); [discriminate|].
    intros H. inversion H. auto.
  - rewrite get_translation_candidates_spec by (simpl; lia).
    destruct (next_alloc w); [discriminate|].
    intros H. inversion H. auto.
Qed.

(** A run of the loop, the allocations being counted from the first one
    of the loop.  On success, the calls are those of the iterations that
    failed and the triple search that succeeded.  A run without success
    ends after [n] iterations, or at iteration [k] with the memory of the
    candidates refused (allocation [2k]), with the memory of the copy
    refused after the triple search (allocation [2k+1]), or with a
    refinement that returned [NULL]. *)
Lemma get_primitive_lattice_vectors_iterative_loop_run
  {collab : Collaborators} (n : nat) :
  forall (input : Cell) (ptr : VecDBL) (tol angle : Q) (w w' : world)
         (r : option (Z * mat3)),
    get_primitive_lattice_vectors_iterative_loop n input ptr tol angle w
    = Some (r, w') ->
    match r with
    | Some (multi, prim_lattice) =>
        exists k ptr',
          (k < n)%nat /\ (1 <= length ptr')%nat /\ multi = vsize ptr' /\
          (k = 0%nat -> ptr' = ptr) /\
          get_primitive_lattice_vectors
            (tl ptr' ++ unit_vectors) input (reduced_tolerance tol k)
          = Some (Some prim_lattice) /\
          trace w'
          = trace w ++ search_rounds tol k
            ++ [Call_get_primitive_lattice_vectors (reduced_tolerance tol k)]
    | None =>
        exists k,
          (k <= n)%nat /\
          ((trace w' = trace w ++ search_rounds tol k /\
            (k = n \/
             ((k < n)%nat /\ nth (2 * k) (allocs w) true = false) \/
             ((1 <= k)%nat /\
              exists v,
                sym_reduce_pure_translation
                  input v (reduced_tolerance tol (k - 1)) angle = None)))
           \/
           ((k < n)%nat /\
            trace w'
            = trace w ++ search_rounds tol k
              ++ [Call_get_primitive_lattice_vectors
                    (reduced_tolerance tol k)] /\
            nth (1 + 2 * k) (allocs w) true = false))
    end.
Proof.
  induction n as [|n IH]; intros input ptr tol angle w w' r H.
  - inv_ret H. exists 0%nat. cbn [search_rounds seq flat_map].
    rewrite app_nil_r. auto.
  - cbn [get_primitive_lattice_vectors_iterative_loop] in H.
    inv_bind H a w1 Ha.
    destruct a as [vectors|].
    2:{ inv_ret H. apply get_translation_candidates_null in Ha.
        destruct Ha as [Hal ->]. exists 0%nat. split; [lia|]. left.
        cbn [search_rounds seq flat_map after_malloc trace].
        rewrite app_nil_r. split; [reflexivity|].
        right. left. split; [lia|].
        cbn [Nat.mul]. now rewrite nth_0_hd. }
    apply get_translation_candidates_inv in Ha.
    destruct Ha as (Hlen & _ & -> & ->).
    inv_bind H u w2 He. unfold emit in He. inversion He; subst; clear He.
    inv_bind H res w3 Hb. inv_lift Hb.
    destruct res as [prim_lattice|].
    { inv_ret H. exists 0%nat, ptr. cbn [reduced_tolerance].
      repeat split; auto; lia. }
    inv_bind H b w4 Hb'. rewrite mat_alloc_VecDBL_spec in Hb'.
    inversion Hb'; subst; clear Hb'.
    unfold next_alloc, after_malloc in H. cbn [allocs trace] in H.
    destruct (hd true (tl (allocs w))) eqn:Eal.
    2:{ inv_ret H. exists 0%nat. split; [lia|]. right.
        split; [lia|]. cbn [search_rounds seq flat_map app trace].
        cbn [reduced_tolerance]. split; [reflexivity|].
        cbn [Nat.mul Nat.add]. now rewrite nth_S_tl, nth_0_hd. }
    inv_bind H tmp_vec w5 Hc. inv_lift Hc.
    inv_bind H u' w6 He. unfold emit in He. inversion He; subst; clear He.
    cbn [allocs trace] in H.
    destruct (sym_reduce_pure_translation input tmp_vec tol angle)
      as [ptr'|] eqn:Ered.
    2:{ inv_ret H. exists 1%nat. split; [lia|]. left.
        split.
        - rewrite search_rounds_succ. cbn [trace search_rounds seq flat_map].
          now rewrite <- app_assoc.
        - right. right. split; [lia|]. exists tmp_vec. exact Ered. }
    apply IH in H. destruct r as [[multi prim_lattice]|].
    + destruct H as (k & ptr2 & Hk & Hlen2 & Hm & _ & Hglv & Ht).
      exists (S k), ptr2. split; [lia|]. split; [assumption|].
      split; [assumption|]. split; [intros; lia|]. split; [exact Hglv|].
      rewrite Ht, search_rounds_succ. cbn [trace reduced_tolerance].
      now rewrite <- !app_assoc.
    + destruct H as (k & Hk & Hcase). cbn [allocs trace] in Hcase.
      exists (S k). split; [lia|].
      destruct Hcase as [[Ht Hend]|(Hk' & Ht & Hal)].
      * left. split.
        { rewrite Ht, search_rounds_succ. now rewrite <- !app_assoc. }
        destruct Hend as [->|[[Hk' Hal]|(Hk1 & v & Hv)]].
        -- now left.
        -- right. left. split; [lia|].
           replace (2 * S k)%nat with (S (S (2 * k))) by lia.
           now rewrite 2 nth_S_tl.
        -- right. right. split; [lia|]. exists v.
           replace (S k - 1)%nat with (S (k - 1)) by lia. exact Hv.
      * right. split; [lia|]. split.
        { rewrite Ht, search_rounds_succ. cbn [reduced_tolerance].
          now rewrite <- !app_assoc. }
        replace (1 + 2 * S k)%nat with (S (S (1 + 2 * k))) by lia.
        now rewrite 2 nth_S_tl.
Qed.

(** A run of the function, the allocations being counted from the copy
    of the translations made before the loop (allocation 0). *)
Lemma get_primitive_lattice_vectors_iterative_run {collab : Collaborators}
  (input : Cell) (pure_trans : VecDBL) (symprec angle : Q) (w w' : world)
  (r : option (Z * mat3)) :
  get_primitive_lattice_vectors_iterative input pure_trans symprec angle w
  = Some (r, w') ->
  match r with
  | Some (multi, prim_lattice) =>
      exists k ptr,
        (k < 20)%nat /\ (1 <= length ptr)%nat /\ multi = vsize ptr /\
        (k = 0%nat -> ptr = pure_trans) /\
        get_primitive_lattice_vectors
          (tl ptr ++ unit_vectors) input (reduced_tolerance symprec k)
        = Some (Some prim_lattice) /\
        trace w'
        = trace w ++ search_rounds symprec k
          ++ [Call_get_primitive_lattice_vectors
                (reduced_tolerance symprec k)]
  | None =>
      exists k,
        (k <= 20)%nat /\
        ((trace w' = trace w ++ search_rounds symprec k /\
          (k = 20%nat \/
           (k = 0%nat /\ nth 0 (allocs w) true = false) \/
           ((k < 20)%nat /\ nth (1 + 2 * k) (allocs w) true = false) \/
           ((1 <= k)%nat /\
            exists v,
              sym_reduce_pure_translation
                input v (reduced_tolerance symprec (k - 1)) angle = None)))
         \/
         ((k < 20)%nat /\
          trace w'
          = trace w ++ search_rounds symprec k
            ++ [Call_get_primitive_lattice_vectors
                  (reduced_tolerance symprec k)] /\
          nth (2 + 2 * k) (allocs w) true = false))
  end.
Proof.
  unfold get_primitive_lattice_vectors_iterative. intros H.
  inv_bind H a w1 Ha. rewrite mat_alloc_VecDBL_spec in Ha.
  inversion Ha; subst; clear Ha.
  destruct (next_alloc w) eqn:Eal.
  2:{ inv_ret H. exists 0%nat. split; [lia|]. left.
      cbn [search_rounds seq flat_map after_malloc trace].
      rewrite app_nil_r. split; [reflexivity|].
      right. left. split; [reflexivity|]. now rewrite nth_0_hd. }
  inv_bind H ptr0 w2 Hc. inv_lift Hc.
  rewrite copy_loop in Hc. inversion Hc; subst ptr0; clear Hc.
  apply get_primitive_lattice_vectors_iterative_loop_run in H.
  destruct r as [[multi prim_lattice]|]; [exact H|].
  destruct H as (k & Hk & Hcase). unfold NUM_ATTEMPT in *.
  cbn [after_malloc allocs trace] in Hcase.
  exists k. split; [exact Hk|].
  destruct Hcase as [[Ht Hend]|(Hk' & Ht & Hal)].
  - left. split; [exact Ht|].
    destruct Hend as [->|[[Hk' Hal]|Hred]].
    + now left.
    + right. right. left. split; [exact Hk'|].
      cbn [Nat.add]. now rewrite nth_S_tl.
    + right. right. right. exact Hred.
  - right. split; [exact Hk'|]. split; [exact Ht|].
    change (2 + 2 * k)%nat with (S (1 + 2 * k)). now rewrite nth_S_tl.
Qed.

(** X7.  When the iterative search succeeds, for a tolerance that is not
    negative, the multiplicity it returns is the size of the translation
    list whose candidates were accepted (the list passed in, when the
    first iteration succeeds); it is at least 1, so that the zero test of
    [get_primitive_cell] is not taken; the lattice returned is not
    degenerate, and the volume of the original cell divided by its volume
    rounds to that multiplicity. *)
Theorem iterative_search_success (collab : Collaborators) (input : Cell)
  (pure_trans : VecDBL) (symprec angle : Q) (w w' : world) (multi : Z)
  (prim_lattice : mat3) :
  0 <= symprec ->
  get_primitive_lattice_vectors_iterative input pure_trans symprec angle w
  = Some (Some (multi, prim_lattice), w') ->
  (1 <= multi)%Z /\
  ~ mat_get_determinant_d3 (lattice input) == 0 /\
  0 < mat_Dabs (mat_get_determinant_d3 prim_lattice) /\
  mat_Nint (mat_Dabs (mat_get_determinant_d3 (lattice input))
            / mat_Dabs (mat_get_determinant_d3 prim_lattice))
  = multi /\
  exists k ptr,
    (k < 20)%nat /\ multi = vsize ptr /\
    (k = 0%nat -> ptr = pure_trans) /\
    get_primitive_lattice_vectors
      (tl ptr ++ unit_vectors) input (reduced_tolerance symprec k)
    = Some (Some prim_lattice).
Proof.
  intros Htol H. apply get_primitive_lattice_vectors_iterative_run in H.
  destruct H as (k & ptr & Hk & Hlen & Hm & H0 & Hglv & _).
  destruct (stage_b_result_volume _ _ _ _
              (reduced_tolerance_nonneg symprec k Htol) Hglv)
    as (_ & HL & Hpos & Hratio).
  rewrite candidates_size in Hratio by assumption.
  split; [unfold vsize in Hm; lia|]. split; [assumption|].
  split; [assumption|]. split; [congruence|].
  exists k, ptr. auto.
Qed.

Lemma iterative_search_success_witness :
  exists prim_lattice w',
    0 <= 1 # 100000 /\
    get_primitive_lattice_vectors_iterative
      (collab := example_collaborators)
      cubic_cell bcc_translations (1 # 100000) (- (1)) world0
    = Some (Some (2%Z, prim_lattice), w') /\
    (1 <= 2)%Z /\
    ~ mat_get_determinant_d3 (lattice cubic_cell) == 0 /\
    0 < mat_Dabs (mat_get_determinant_d3 prim_lattice) /\
    mat_Nint (mat_Dabs (mat_get_determinant_d3 (lattice cubic_cell))
              / mat_Dabs (mat_get_determinant_d3 prim_lattice))
    = 2%Z.
Proof.
  eexists _, _.
  assert (Htol : 0 <= 1 # 100000) by (unfold Qle; simpl; lia).
  split; [exact Htol|]. split; [vm_compute; reflexivity|].
  edestruct (iterative_search_success
               example_collaborators cubic_cell bcc_translations
               (1 # 100000) (- (1)) world0)
    as (H1 & H2 & H3 & H4 & _); [exact Htol|vm_compute; reflexivity|].
  auto.
Defined.



(** ** The non-trivial path, further *)

(** A run of [get_primitive_cell]: the three steps in their order, each at
    the tolerance the function was given. *)
Lemma get_primitive_cell_run {collab : Collaborators} (mapping : list Z)
  (input : Cell) (pure_trans : VecDBL) (symprec angle : Q) (w w' : world)
  (c : option Cell) (mapping' : list Z) :
  get_primitive_cell mapping input pure_trans symprec angle w
  = Some ((c, mapping'), w') ->
  match c with
  | Some primitive_cell =>
      exists multi prim_lat smallest_lat,
        get_primitive_lattice_vectors_iterative
          input pure_trans symprec angle w
        = Some (Some (multi, prim_lat), w') /\
        del_delaunay_reduce prim_lat symprec = Some smallest_lat /\
        cel_trim_cell mapping smallest_lat input symprec
        = (Some primitive_cell, mapping')
  | None =>
      mapping' = mapping \/
      exists smallest_lat,
        cel_trim_cell mapping smallest_lat input symprec = (None, mapping')
  end.
Proof.
  unfold get_primitive_cell. intros H. inv_bind H a w1 Ha.
  destruct a as [[multi prim_lat]|].
  2:{ unfold ret in H. inversion H; subst. now left. }
  destruct (multi =? 0)%Z.
  { unfold ret in H. inversion H; subst. now left. }
  destruct (del_delaunay_reduce prim_lat symprec) as [smallest_lat|] eqn:Ed.
  2:{ unfold ret in H. inversion H; subst. now left. }
  unfold ret in H. inversion H as [[Hc Hw]]. subst w1.
  destruct c as [primitive_cell|].
  - exists multi, prim_lat, smallest_lat. auto.
  - right. now exists smallest_lat.
Qed.

(** X9.  A cell returned by [get_primitive_cell], for a tolerance that is
    not negative, is the one that [cel_trim_cell] returns, with the mapping
    table it filled, for the reduction of the lattice that the iterative
    search found; that lattice is not degenerate, and the volume of the
    input cell divided by its volume rounds to the multiplicity, which is
    at least 1.  The reduction and the trimming are given the tolerance
    of the function, not the one the iterative search ended with, and no
    call or allocation follows the iterative search.  When [NULL] is
    returned the mapping table is as it was, unless [cel_trim_cell] was
    reached. *)
Theorem get_primitive_cell_outcome (collab : Collaborators)
  (mapping : list Z) (input : Cell) (pure_trans : VecDBL)
  (symprec angle : Q) (w w' : world) (c : option Cell)
  (mapping' : list Z) :
  0 <= symprec ->
  get_primitive_cell mapping input pure_trans symprec angle w
  = Some ((c, mapping'), w') ->
  match c with
  | Some primitive_cell =>
      exists multi prim_lat smallest_lat,
        get_primitive_lattice_vectors_iterative
          input pure_trans symprec angle w
        = Some (Some (multi, prim_lat), w') /\
        (1 <= multi)%Z /\
        0 < mat_Dabs (mat_get_determinant_d3 prim_lat) /\
        mat_Nint (mat_Dabs (mat_get_determinant_d3 (lattice input))
                  / mat_Dabs (mat_get_determinant_d3 prim_lat))
        = multi /\
        del_delaunay_reduce prim_lat symprec = Some smallest_lat /\
        cel_trim_cell mapping smallest_lat input symprec
        = (Some primitive_cell, mapping')
  | None =>
      mapping' = mapping \/
      exists smallest_lat,
        cel_trim_cell mapping smallest_lat input symprec = (None, mapping')
  end.
Proof.
  intros Htol H. apply get_primitive_cell_run in H.
  destruct c as [primitive_cell|]; [|exact H].
  destruct H as (multi & prim_lat & smallest_lat & Hrun & Hd & Ht).
  exists multi, prim_lat, smallest_lat.
  pose proof (get_primitive_lattice_vectors_iterative_run _ _ _ _ _ _ _ Hrun)
    as (k & ptr & Hk & Hlen & Hm & _ & Hglv & _).
  destruct (stage_b_result_volume _ _ _ _
              (reduced_tolerance_nonneg symprec k Htol) Hglv)
    as (_ & _ & Hpos & Hratio).
  rewrite candidates_size in Hratio by assumption.
  split; [assumption|]. split; [unfold vsize in Hm; lia|].
  split; [assumption|]. split; [congruence|]. auto.
Qed.

Lemma get_primitive_cell_outcome_witness :
  exists w',
    0 <= 1 # 100000 /\
    get_primitive_cell (collab := example_collaborators)
      [(-1)%Z; (-1)%Z] cubic_cell bcc_translations (1 # 100000) (- (1))
      world0
    = Some ((Some cubic_cell, [(-1)%Z; (-1)%Z]), w') /\
    exists multi prim_lat smallest_lat,
      get_primitive_lattice_vectors_iterative
        (collab := example_collaborators)
        cubic_cell bcc_translations (1 # 100000) (- (1)) world0
      = Some (Some (multi, prim_lat), w') /\
      (1 <= multi)%Z /\
      0 < mat_Dabs (mat_get_determinant_d3 prim_lat) /\
      mat_Nint (mat_Dabs (mat_get_determinant_d3 (lattice cubic_cell))
                / mat_Dabs (mat_get_determinant_d3 prim_lat))
      = multi /\
      del_delaunay_reduce (Collaborators := example_collaborators)
        prim_lat (1 # 100000)
      = Some smallest_lat /\
      cel_trim_cell (Collaborators := example_collaborators)
        [(-1)%Z; (-1)%Z] smallest_lat cubic_cell (1 # 100000)
      = (Some cubic_cell, [(-1)%Z; (-1)%Z]).
Proof.
  eexists.
  assert (Htol : 0 <= 1 # 100000) by (unfold Qle; simpl; lia).
  split; [exact Htol|]. split; [vm_compute; reflexivity|].
  apply (get_primitive_cell_outcome
           example_collaborators [(-1)%Z; (-1)%Z] cubic_cell
           bcc_translations (1 # 100000) (- (1)) world0 _
           (Some cubic_cell) [(-1)%Z; (-1)%Z] Htol).
  vm_compute. reflexivity.
Defined.

(** ** The orchestrator, further *)

(** The loop when the translation search fails at every attempt. *)
Lemma get_primitive_loop_no_translation {collab : Collaborators} (n : nat) :
  forall (input : Cell) (primitive : Primitive) (tol angle : Q) (w : world),
    (forall k, (k < n)%nat ->
               sym_get_pure_translation input (reduced_tolerance tol k)
               = None) ->
    get_primitive_loop n input primitive tol angle w
    = Some (None,
            mkWorld (allocs w)
                    (trace w
                     ++ map (fun k => Call_sym_get_pure_translation
                                        (reduced_tolerance tol k))
                            (seq 0 n)
                     ++ [Call_prm_free_primitive])).
Proof.
  induction n as [|n IH]; intros input primitive tol angle w Hnone.
  - reflexivity.
  - cbn [get_primitive_loop]. unfold bind at 1, emit.
    pose proof (Hnone 0%nat ltac:(lia)) as H0.
    cbn [reduced_tolerance] in H0. rewrite H0.
    rewrite IH.
    + cbn [allocs trace seq map]. rewrite <- seq_shift, map_map.
      cbn [reduced_tolerance]. now rewrite <- app_assoc.
    + intros k Hk. apply (Hnone (S k)). lia.
Qed.

(** X10.  When [sym_get_pure_translation] finds nothing at any of the 20
    tolerances [symprec * 0.95^k], [get_primitive] returns [NULL],
    whatever the cell, its arrays not being read: after a refused
    allocation of the record nothing is called, and otherwise the calls
    are the 20 translation searches followed by the release of the
    record. *)
Theorem get_primitive_without_translations (collab : Collaborators)
  (input : Cell) (symprec angle : Q) (w : world) :
  (forall k, (k < 20)%nat ->
             sym_get_pure_translation input (reduced_tolerance symprec k)
             = None) ->
  exists a w1 w',
    prm_alloc_primitive (cell_size input) w = Some (a, w1) /\
    get_primitive input symprec angle w = Some (None, w') /\
    allocs w' = allocs w1 /\
    trace w'
    = trace w
      ++ match a with
         | None => []
         | Some _ =>
             map (fun k => Call_sym_get_pure_translation
                             (reduced_tolerance symprec k))
                 (seq 0 20)
             ++ [Call_prm_free_primitive]
         end.
Proof.
  intros Hnone.
  destruct (prm_alloc_primitive_spec (cell_size input) w)
    as (a & w1 & E & Htr & Hcase).
  exists a, w1. unfold get_primitive, bind. rewrite E.
  destruct Hcase as [->| ->].
  - exists w1. split; [reflexivity|]. split; [reflexivity|].
    split; [reflexivity|]. now rewrite app_nil_r.
  - eexists. split; [reflexivity|].
    split; [apply get_primitive_loop_no_translation; exact Hnone|].
    cbn [allocs trace]. split; [reflexivity|]. now rewrite Htr.
Qed.

Lemma get_primitive_without_translations_witness :
  (forall k, (k < 20)%nat ->
             sym_get_pure_translation
               (Collaborators := example_collaborators)
               two_type_cell (reduced_tolerance 1 k)
             = None) /\
  exists w',
    get_primitive (collab := example_collaborators)
                  two_type_cell 1 (- (1)) world0
    = Some (None, w') /\
    length (trace w') = 21%nat.
Proof.
  assert (Hnone : forall k, (k < 20)%nat ->
                            sym_get_pure_translation
                              (Collaborators := example_collaborators)
                              two_type_cell (reduced_tolerance 1 k)
                            = None).
  { intros k Hk.
    do 20 (destruct k as [|k]; [vm_compute; reflexivity|]). lia. }
  split; [exact Hnone|].
  destruct (get_primitive_without_translations
              example_collaborators two_type_cell 1 (- (1)) world0 Hnone)
    as (a & w1 & w' & Ha & Hrun & _ & Htr).
  exists w'. split; [exact Hrun|].
  vm_compute in Ha. inversion Ha; subst a w1. rewrite Htr.
  reflexivity.
Defined.

(** The attempt that returns a record on the non-trivial path. *)
Lemma get_primitive_loop_nontrivial {collab : Collaborators} (n : nat) :
  forall (input : Cell) (primitive : Primitive) (tol angle : Q)
         (w w' : world) (p : Primitive) (pure_trans : VecDBL),
    length (mapping_table primitive) = Z.to_nat (cell_size input) ->
    get_primitive_loop n input primitive tol angle w = Some (Some p, w') ->
    sym_get_pure_translation input (tolerance p) = Some pure_trans ->
    vsize pure_trans <> 1%Z ->
    exists c mapping0 w1,
      cell p = Some c /\
      length mapping0 = Z.to_nat (cell_size input) /\
      get_primitive_cell mapping0 input pure_trans (tolerance p) angle w1
      = Some ((Some c, mapping_table p), w').
Proof.
  induction n as [|n IH];
    intros input primitive tol angle w w' p pure_trans Hlen H Hp Hne.
  - cbn [get_primitive_loop] in H. unfold prm_free_primitive in H.
    inv_bind H u w1 He. unfold ret in H. discriminate.
  - cbn [get_primitive_loop] in H.
    inv_bind H u w1 He. unfold emit in He. inversion He; subst; clear He.
    destruct (sym_get_pure_translation input tol) as [pt|] eqn:Hpt;
      [|now apply (IH _ _ _ _ _ _ _ _ Hlen H)].
    destruct (vsize pt =? 1)%Z eqn:Hone.
    + inv_bind H c w2 Hc. destruct c as [primitive_cell|];
        [|now apply (IH _ _ _ _ _ _ _ _ Hlen H)].
      inv_bind H mapping w3 Hm. inv_lift Hm.
      unfold ret in H. inversion H; subst p w'; clear H.
      cbn [found tolerance] in Hp. rewrite Hpt in Hp.
      inversion Hp; subst pt. apply Z.eqb_eq in Hone. contradiction.
    + inv_bind H cm w2 Hc. destruct cm as [c mapping].
      pose proof (get_primitive_cell_mapping_length _ _ _ _ _ _ _ _ _ Hc)
        as Hlen'.
      destruct c as [primitive_cell|].
      * unfold ret in H. inversion H; subst p w'; clear H.
        cbn [found tolerance] in Hp. rewrite Hpt in Hp.
        inversion Hp; subst pt.
        eexists primitive_cell, (mapping_table primitive), _.
        cbn [found cell tolerance mapping_table set_mapping_table].
        split; [reflexivity|]. split; [assumption|]. exact Hc.
      * apply (IH _ _ _ _ _ _ _ _) with (1 := eq_trans Hlen' Hlen) (2 := H);
          assumption.
Qed.

(** X11.  When the group found at the tolerance of the returned record has
    more than one member, the record comes from the non-trivial path: its
    cell and its mapping table are those that [cel_trim_cell] returned for
    the reduction of the lattice found by the iterative search, and the
    iterative search, the reduction and the trimming were all given the
    tolerance stored in the record.  The multiplicity found is at least
    1. *)
Theorem nontrivial_group_record (collab : Collaborators) (input : Cell)
  (symprec angle : Q) (w w' : world) (p : Primitive)
  (pure_trans : VecDBL) :
  prm_get_primitive input symprec angle w = Some (Some p, w') ->
  sym_get_pure_translation input (tolerance p) = Some pure_trans ->
  vsize pure_trans <> 1%Z ->
  exists c mapping0 multi prim_lat smallest_lat w1,
    cell p = Some c /\
    length mapping0 = Z.to_nat (cell_size input) /\
    get_primitive_lattice_vectors_iterative
      input pure_trans (tolerance p) angle w1
    = Some (Some (multi, prim_lat), w') /\
    (1 <= multi)%Z /\
    del_delaunay_reduce prim_lat (tolerance p) = Some smallest_lat /\
    cel_trim_cell mapping0 smallest_lat input (tolerance p)
    = (Some c, mapping_table p).
Proof.
  unfold prm_get_primitive, get_primitive. intros H Hp Hne.
  inv_bind H a w0 Ha.
  destruct (prm_alloc_primitive_spec (cell_size input) w)
    as (a' & w0' & E & _ & Hcase).
  rewrite E in Ha. inversion Ha; subst a' w0'; clear Ha.
  destruct Hcase as [->| ->]; [unfold ret in H; discriminate|].
  apply get_primitive_loop_nontrivial with (pure_trans := pure_trans) in H;
    [|unfold fresh_primitive; cbn [mapping_table]; apply repeat_length
     |assumption|assumption].
  destruct H as (c & mapping0 & w1 & Hc & Hlen & Hrun).
  apply get_primitive_cell_run in Hrun.
  destruct Hrun as (multi & prim_lat & smallest_lat & Hit & Hd & Ht).
  exists c, mapping0, multi, prim_lat, smallest_lat, w1.
  pose proof (get_primitive_lattice_vectors_iterative_run _ _ _ _ _ _ _ Hit)
    as (k & ptr & _ & Hl & Hm & _).
  repeat split; try assumption. unfold vsize in Hm. lia.
Qed.

Lemma nontrivial_group_record_witness :
  exists p w',
    prm_get_primitive (collab := centring_collaborators)
                      cubic_cell (1 # 100000) (- (1)) world0
    = Some (Some p, w') /\
    sym_get_pure_translation (Collaborators := centring_collaborators)
                             cubic_cell (tolerance p)
    = Some bcc_translations /\
    vsize bcc_translations <> 1%Z /\
    exists c mapping0 multi prim_lat smallest_lat w1,
      cell p = Some c /\
      length mapping0 = Z.to_nat (cell_size cubic_cell) /\
      get_primitive_lattice_vectors_iterative
        (collab := centring_collaborators)
        cubic_cell bcc_translations (tolerance p) (- (1)) w1
      = Some (Some (multi, prim_lat), w') /\
      (1 <= multi)%Z /\
      del_delaunay_reduce (Collaborators := centring_collaborators)
        prim_lat (tolerance p)
      = Some smallest_lat /\
      cel_trim_cell (Collaborators := centring_collaborators)
        mapping0 smallest_lat cubic_cell (tolerance p)
      = (Some c, mapping_table p).
Proof.
  eexists _, _. split; [vm_compute; reflexivity|].
  split; [reflexivity|]. split; [vm_compute; discriminate|].
  eapply (nontrivial_group_record
            centring_collaborators cubic_cell (1 # 100000) (- (1)) world0).
  - vm_compute. reflexivity.
  - reflexivity.
  - vm_compute. discriminate.
Defined.

(** ** The recorded tolerance *)

Lemma reduced_tolerance_pos (tol : Q) (k : nat) :
  0 < tol -> 0 < reduced_tolerance tol k.
Proof.
  revert tol. induction k as [|k IH]; intros tol H; [exact H|].
  cbn [reduced_tolerance]. apply IH. unfold REDUCE_RATE. lra.
Qed.

Lemma reduced_tolerance_antitone (j : nat) :
  forall (tol : Q) (k : nat),
    0 < tol -> (j <= k)%nat ->
    reduced_tolerance tol k <= reduced_tolerance tol j.
Proof.
  induction j as [|j IH]; intros tol k Htol Hjk.
  - now apply reduced_tolerance_le.
  - destruct k as [|k]; [lia|]. cbn [reduced_tolerance].
    apply IH; [unfold REDUCE_RATE; lra|lia].
Qed.

(** X12.  For a positive [symprec], the tolerance stored in a returned
    record is [symprec * 0.95^k] for some [k < 20]: it is positive, not
    larger than [symprec], and not smaller than three eighths of it. *)
Theorem recorded_tolerance_bounds (collab : Collaborators) (input : Cell)
  (symprec angle : Q) (w w' : world) (p : Primitive) :
  0 < symprec ->
  prm_get_primitive input symprec angle w = Some (Some p, w') ->
  0 < tolerance p /\
  tolerance p <= symprec /\
  (3 # 8) * symprec <= tolerance p /\
  exists k, (k < 20)%nat /\
            tolerance p == symprec * REDUCE_RATE ^ Z.of_nat k.
Proof.
  unfold prm_get_primitive. intros Htol H. apply get_primitive_run in H.
  destruct H as (evs & _ & [(_ & Hr & _)|(w1 & _ & k & Hk & _ & Hr)]);
    [discriminate|].
  destruct Hr as (Hk1 & Hp & _). unfold NUM_ATTEMPT in Hk. rewrite Hp.
  split; [now apply reduced_tolerance_pos|].
  split; [now apply reduced_tolerance_le|].
  split; [|exists (k - 1)%nat; split; [lia|apply reduced_tolerance_power]].
  apply Qle_trans with (reduced_tolerance symprec 19);
    [|apply reduced_tolerance_antitone; [assumption|lia]].
  rewrite reduced_tolerance_power, (Qmult_comm (3 # 8)).
  apply Qmult_le_l; [assumption|].
  apply Qle_bool_imp_le. vm_compute. reflexivity.
Qed.

Lemma recorded_tolerance_bounds_witness :
  exists p w',
    0 < 1 # 50 /\
    prm_get_primitive (collab := example_collaborators)
                      two_type_cell (1 # 50) (- (1)) world0
    = Some (Some p, w') /\
    0 < tolerance p /\
    tolerance p <= 1 # 50 /\
    (3 # 8) * (1 # 50) <= tolerance p /\
    exists k, (k < 20)%nat /\
              tolerance p == (1 # 50) * REDUCE_RATE ^ Z.of_nat k.
Proof.
  eexists _, _.
  assert (Htol : 0 < 1 # 50) by reflexivity.
  split; [exact Htol|]. split; [vm_compute; reflexivity|].
  eapply (recorded_tolerance_bounds
            example_collaborators two_type_cell (1 # 50) (- (1)) world0 _ _
            Htol).
  vm_compute. reflexivity.
Defined.

(** ** The arrays read by [get_cell_with_smallest_lattice] *)

Section Smallest_lattice_arrays.

Context {collab : Collaborators}.

Local Open Scope nat_scope.

Lemma for_each_app {S : Type} (body : Z -> S -> ub S) (l1 l2 : list Z)
  (s : S) :
  for_each (l1 ++ l2) body s
  = match for_each l1 body s with
    | Some s' => for_each l2 body s'
    | None => None
    end.
Proof.
  revert s. induction l1 as [|i l1 IH]; intros s; [reflexivity|].
  cbn [app for_each]. destruct (body i s); [apply IH|reflexivity].
Qed.

Lemma map_nth_firstn {A : Type} (d : A) :
  forall (l : list A) (n : nat),
    n <= length l -> map (fun i => nth i l d) (seq 0 n) = firstn n l.
Proof.
  induction l as [|x l IH]; intros [|n] H; cbn [length] in H;
    try reflexivity; try lia.
  cbn [seq map firstn nth]. f_equal.
  rewrite <- seq_shift, map_map. apply IH. lia.
Qed.

Lemma aget_None {A : Type} (a : list A) (i : nat) :
  length a <= i -> aget a (Z.of_nat i) = None.
Proof.
  intros H. unfold aget. destruct (Z.of_nat i <? 0)%Z; [reflexivity|].
  rewrite Nat2Z.id. now apply nth_error_None.
Qed.

(** The loop over the atoms leaves an array of the input that has fewer
    than [cell->size] entries. *)
Lemma smallest_cell_loop_short (trans_mat : mat3) (cell sc : Cell)
  (n : nat) :
  length (types sc) = n ->
  length (position sc) = n ->
  length (types cell) < n \/ length (position cell) < n ->
  for_each (map Z.of_nat (seq 0 n))
    (fun i sc =>
       let? t := aget (types cell) i in
       let? ts := aset (types sc) i t in
       let? p := aget (position cell) i in
       let? ps := aset (position sc) i (folded_position trans_mat p) in
       Some (mkCell (cell_size sc) (lattice sc) ts ps))
    sc
  = None.
Proof.
  intros Ht Hp Hshort.
  set (m := Nat.min (length (types cell)) (length (position cell))).
  assert (Hm : m < n) by lia.
  assert (Hn : n = m + S (n - m - 1)) by lia.
  rewrite Hn, seq_app, map_app, for_each_app.
  rewrite smallest_cell_loop by lia.
  cbn [seq map for_each Nat.add cell_size lattice types position].
  destruct (Nat.le_gt_cases (length (types cell)) m) as [Hle|Hgt].
  - now rewrite aget_None.
  - rewrite (aget_Some _ _ 0%Z) by exact Hgt.
    rewrite aset_Some.
    + rewrite aget_None; [reflexivity|lia].
    + rewrite firstn_0. cbn [app].
      rewrite length_app, length_map, length_seq, length_skipn. lia.
Qed.

End Smallest_lattice_arrays.

(** X13.  [get_cell_with_smallest_lattice] on any cell.  When the
    reduction fails it returns [NULL] and requests no memory; when the
    memory of the new cell is refused it returns [NULL]; otherwise it
    reads the first [cell->size] entries of the types and of the positions
    and no other, so that the cell it returns has these types and the
    folded images of these positions, and an array with fewer entries is
    read past its end. *)
Theorem smallest_lattice_outcome (collab : Collaborators) (cell : Cell)
  (symprec : Q) (w : world) :
  match del_delaunay_reduce (lattice cell) symprec with
  | None => get_cell_with_smallest_lattice cell symprec w = Some (None, w)
  | Some min_lat =>
      if next_alloc w then
        if (Z.to_nat (cell_size cell) <=? length (types cell))%nat
           && (Z.to_nat (cell_size cell) <=? length (position cell))%nat
        then
          get_cell_with_smallest_lattice cell symprec w
          = Some (Some (mkCell
                          (cell_size cell) min_lat
                          (firstn (Z.to_nat (cell_size cell)) (types cell))
                          (map (folded_position
                                  (mat_multiply_matrix_d3
                                     (mat_inverse_matrix_d3 min_lat)
                                     (lattice cell)))
                               (firstn (Z.to_nat (cell_size cell))
                                       (position cell)))),
                  after_malloc w)
        else get_cell_with_smallest_lattice cell symprec w = None
      else
        get_cell_with_smallest_lattice cell symprec w
        = Some (None, after_malloc w)
  end.
Proof.
  unfold get_cell_with_smallest_lattice.
  destruct (del_delaunay_reduce (lattice cell) symprec) as [min_lat|];
    [|reflexivity].
  unfold bind. rewrite cel_alloc_cell_spec.
  destruct (next_alloc w); [|reflexivity].
  cbn [cell_size lattice types position]. rewrite range_0.
  destruct ((Z.to_nat (cell_size cell) <=? length (types cell))%nat
            && (Z.to_nat (cell_size cell) <=? length (position cell))%nat)
    eqn:E.
  - apply andb_true_iff in E. destruct E as [Ht Hp].
    apply Nat.leb_le in Ht, Hp.
    rewrite smallest_cell_loop;
      cbn [types position]; rewrite ?repeat_length; try lia.
    unfold lift, ret. cbn [cell_size lattice types position firstn app].
    rewrite !skipn_all2 by (rewrite repeat_length; lia).
    rewrite !app_nil_r.
    rewrite map_nth_firstn by assumption.
    rewrite <- (map_map (fun i => nth i (position cell) vec3_zero)).
    rewrite map_nth_firstn by assumption. reflexivity.
  - apply andb_false_iff in E.
    rewrite smallest_cell_loop_short;
      cbn [types position]; rewrite ?repeat_length; try reflexivity.
    destruct E as [E|E]; apply Nat.leb_gt in E; [now left|now right].
Qed.

(** ** A single translation *)

(** The candidates of a list of one translation are the three unit
    vectors; their triple spans the cell itself. *)
Lemma unit_triple_search (input : Cell) (symprec : Q) :
  0 <= symprec ->
  symprec < mat_Dabs (mat_get_determinant_d3 (lattice input)) ->
  get_primitive_lattice_vectors unit_vectors input symprec
  = Some (Some (mat_multiply_matrix_d3 (lattice input) identity_lattice)).
Proof.
  intros Htol Hvol. rewrite get_primitive_lattice_vectors_spec.
  unfold first_qualifying_triple.
  change (triples (vsize unit_vectors)) with [(0, 1, 2)%Z].
  change (vsize unit_vectors - 2)%Z with 1%Z.
  cbn [find].
  assert (Hq : triple_qualifies_bool 1 input symprec unit_vectors
                                     (0, 1, 2)%Z = true).
  { apply triple_qualifies_bool_iff. unfold triple_qualifies.
    change (vectors_of unit_vectors (0, 1, 2)%Z)
      with ((1, 0, 0), (0, 1, 0), (0, 0, 1)) at 1.
    cbv zeta.
    assert (HV : triple_volume input (1, 0, 0) (0, 1, 0) (0, 0, 1)
                 == mat_Dabs (mat_get_determinant_d3 (lattice input))).
    { rewrite triple_volume_factor.
      change (mat_Dabs (mat_get_determinant_d3
                          ((1, 0, 0), (0, 1, 0), (0, 0, 1))))
        with 1. ring. }
    split; [now rewrite HV|].
    rewrite <- (mat_Nint_inject_Z 1). apply mat_Nint_comp.
    rewrite HV. change (inject_Z 1) with 1. field. lra. }
  rewrite Hq. cbn [option_map]. do 2 f_equal.
Qed.

Lemma mat_multiply_identity (l : mat3) :
  mat3_eq (mat_multiply_matrix_d3 l identity_lattice) l.
Proof.
  destruct l as [[[[l00 l01] l02] [[l10 l11] l12]] [[l20 l21] l22]].
  unfold mat3_eq, vec3_eq, mat_multiply_matrix_d3, identity_lattice.
  repeat split; ring.
Qed.

(** X14.  Given a list of one translation, a cell whose volume exceeds a
    tolerance that is not negative, and no refusal of memory, the
    iterative search succeeds at its first iteration: the candidates are
    the three unit vectors alone, the multiplicity returned is 1, the
    lattice returned is that of the cell, and the only call is one triple
    search at [symprec]. *)
Theorem single_translation_search (collab : Collaborators) (input : Cell)
  (t : vec3) (symprec angle : Q) (w : world) :
  allocs w = [] ->
  0 <= symprec ->
  symprec < mat_Dabs (mat_get_determinant_d3 (lattice input)) ->
  exists prim_lattice w',
    get_primitive_lattice_vectors_iterative input [t] symprec angle w
    = Some (Some (1%Z, prim_lattice), w') /\
    mat3_eq prim_lattice (lattice input) /\
    trace w' = trace w ++ [Call_get_primitive_lattice_vectors symprec].
Proof.
  intros Hal Htol Hvol.
  exists (mat_multiply_matrix_d3 (lattice input) identity_lattice).
  eexists. split; [|split; [apply mat_multiply_identity|]].
  - unfold get_primitive_lattice_vectors_iterative.
    unfold bind at 1. rewrite mat_alloc_VecDBL_spec.
    unfold next_alloc. rewrite Hal. cbn [hd].
    unfold bind at 1. rewrite copy_loop. unfold lift.
    unfold NUM_ATTEMPT. cbn [get_primitive_lattice_vectors_iterative_loop].
    unfold bind at 1.
    rewrite get_translation_candidates_spec by (cbn [length]; lia).
    unfold next_alloc, after_malloc. cbn [allocs trace].
    rewrite Hal. cbn [tl hd app].
    unfold bind at 1, emit. cbn [allocs trace]. unfold bind at 1.
    rewrite unit_triple_search by assumption.
    unfold ret. reflexivity.
  - reflexivity.
Qed.

Lemma single_translation_search_witness :
  allocs world0 = [] /\
  0 <= 1 # 1000 /\
  1 # 1000 < mat_Dabs (mat_get_determinant_d3 (lattice two_type_cell)) /\
  exists prim_lattice w',
    get_primitive_lattice_vectors_iterative
      (collab := example_collaborators)
      two_type_cell [vec3_zero] (1 # 1000) (- (1)) world0
    = Some (Some (1%Z, prim_lattice), w') /\
    mat3_eq prim_lattice (lattice two_type_cell) /\
    trace w'
    = trace world0 ++ [Call_get_primitive_lattice_vectors (1 # 1000)].
Proof.
  assert (Htol : 0 <= 1 # 1000) by (unfold Qle; simpl; lia).
  assert (Hvol : 1 # 1000
                 < mat_Dabs (mat_get_determinant_d3 (lattice two_type_cell)))
    by reflexivity.
  split; [reflexivity|]. split; [exact Htol|]. split; [exact Hvol|].
  exact (single_translation_search
           example_collaborators two_type_cell vec3_zero (1 # 1000) (- (1))
           world0 eq_refl Htol Hvol).
Defined.

(** ** The trivial path at the first attempt *)

Lemma prm_alloc_primitive_granted {collab : Collaborators} (size : Z)
  (w : world) :
  allocs w = [] ->
  prm_alloc_primitive size w
  = Some (Some (fresh_primitive size), mkWorld [] (trace w)).
Proof.
  intros Hal. unfold prm_alloc_primitive, bind, malloc.
  rewrite Hal. cbn [hd tl negb allocs trace].
  destruct (0 <? size)%Z; cbn [hd tl negb allocs trace];
    unfold ret at 1; cbn [negb];
    rewrite mapping_init_loop; reflexivity.
Qed.

(** The attempt of [get_primitive] that finds one translation and whose
    reduction succeeds. *)
Lemma get_primitive_loop_trivial {collab : Collaborators} (n : nat)
  (input : Cell) (primitive : Primitive) (tol angle : Q) (w : world)
  (pure_trans : VecDBL) (min_lat : mat3) :
  wf_cell input ->
  length (mapping_table primitive) = Z.to_nat (cell_size input) ->
  next_alloc w = true ->
  sym_get_pure_translation input tol = Some pure_trans ->
  vsize pure_trans = 1%Z ->
  del_delaunay_reduce (lattice input) tol = Some min_lat ->
  get_primitive_loop (S n) input primitive tol angle w
  = Some (Some (mkPrimitive
                  (Some (mkCell
                           (cell_size input) min_lat (types input)
                           (map (folded_position
                                   (mat_multiply_matrix_d3
                                      (mat_inverse_matrix_d3 min_lat)
                                      (lattice input)))
                                (position input))))
                  (range 0 (cell_size input))
                  (size primitive)
                  tol
                  angle
                  (mat_multiply_matrix_d3
                     min_lat (mat_inverse_matrix_d3 (lattice input)))),
          mkWorld (tl (allocs w))
                  (trace w ++ [Call_sym_get_pure_translation tol])).
Proof.
  intros Hwf Hlen Hal Hpt Hone Hred.
  cbn [get_primitive_loop].
  unfold bind at 1, emit.
  rewrite Hpt. apply Z.eqb_eq in Hone. rewrite Hone.
  unfold bind at 1.
  rewrite get_cell_with_smallest_lattice_spec by assumption.
  rewrite Hred. unfold next_alloc in *. cbn [allocs trace].
  rewrite Hal. unfold bind at 1.
  rewrite mapping_identity_loop by assumption.
  reflexivity.
Qed.

(** X15.  On a well-formed cell, when no memory is refused, the
    translation search at [symprec] finds one translation and the
    reduction of the lattice succeeds, [get_primitive] returns at its
    first attempt, having called the translation search once: the record
    carries the cell in the reduced lattice, with the types of the input
    and its positions folded, the identity mapping, [symprec] as its
    tolerance, the angle tolerance, and the transform from the input
    lattice to the reduced one. *)
Theorem trivial_group_first_attempt (collab : Collaborators) (input : Cell)
  (symprec angle : Q) (w : world) (pure_trans : VecDBL) (min_lat : mat3) :
  wf_cell input ->
  allocs w = [] ->
  sym_get_pure_translation input symprec = Some pure_trans ->
  vsize pure_trans = 1%Z ->
  del_delaunay_reduce (lattice input) symprec = Some min_lat ->
  prm_get_primitive input symprec angle w
  = Some (Some (mkPrimitive
                  (Some (mkCell
                           (cell_size input) min_lat (types input)
                           (map (folded_position
                                   (mat_multiply_matrix_d3
                                      (mat_inverse_matrix_d3 min_lat)
                                      (lattice input)))
                                (position input))))
                  (range 0 (cell_size input))
                  (cell_size input)
                  symprec
                  angle
                  (mat_multiply_matrix_d3
                     min_lat (mat_inverse_matrix_d3 (lattice input)))),
          mkWorld [] (trace w ++ [Call_sym_get_pure_translation symprec])).
Proof.
  intros Hwf Hal Hpt Hone Hred.
  unfold prm_get_primitive, get_primitive. unfold bind at 1.
  rewrite prm_alloc_primitive_granted by assumption.
  apply (get_primitive_loop_trivial
           19 input (fresh_primitive (cell_size input)) symprec angle
           (mkWorld [] (trace w)) pure_trans min_lat); auto.
  unfold fresh_primitive. cbn [mapping_table]. apply repeat_length.
Qed.

Lemma trivial_group_first_attempt_witness :
  wf_cell two_type_cell /\
  allocs world0 = [] /\
  sym_get_pure_translation (Collaborators := example_collaborators)
                           two_type_cell (1 # 1000)
  = Some [vec3_zero] /\
  vsize [vec3_zero] = 1%Z /\
  del_delaunay_reduce (Collaborators := example_collaborators)
                      (lattice two_type_cell) (1 # 1000)
  = Some (lattice two_type_cell) /\
  exists p w',
    prm_get_primitive (collab := example_collaborators)
                      two_type_cell (1 # 1000) (- (1)) world0
    = Some (Some p, w') /\
    mapping_table p = [0%Z; 1%Z] /\
    tolerance p = 1 # 1000 /\
    trace w' = [Call_sym_get_pure_translation (1 # 1000)].
Proof.
  assert (Hwf : wf_cell two_type_cell)
    by (unfold wf_cell; simpl; repeat split; lia).
  split; [exact Hwf|]. split; [reflexivity|]. split; [reflexivity|].
  split; [reflexivity|]. split; [reflexivity|].
  eexists _, _. split.
  - exact (trivial_group_first_attempt
             example_collaborators two_type_cell (1 # 1000) (- (1)) world0
             [vec3_zero] (lattice two_type_cell)
             Hwf eq_refl eq_refl eq_refl eq_refl).
  - split; [reflexivity|]. split; reflexivity.
Defined.
